(** * A shallow embedding of the collection helpers, the [isMaybe] decoder,
    the YAML load/dump core, the directory walk, the test runner, the
    logger registry and [sum], with the properties stated about them. *)

From Stdlib Require Import ZArith Ascii String List Lia Bool.
From Stdlib Require Import DecimalString DecimalZ DecimalNat DecimalPos.
From stdpp Require Import base option list gmap strings.

Set Warnings "-register-all".

Local Open Scope list_scope.
Local Open Scope stdpp_scope.

(* ===================================================================== *)
(** ** collections/union.ts and collections/distinct.ts                   *)
(* ===================================================================== *)

Module Collections.
Section WithElements.

(** Elements are compared the way a JS [Set] compares them
    (SameValueZero), a decidable equality. *)
Context {T : Type} `{EqDecision T}.

(** A JS [Set]: its elements in insertion order, none twice. *)
Definition JSSet : Type := list T.

Definition set_new : JSSet := [].

(** [s.add(x)]: appended when absent, otherwise left alone. *)
Definition set_add (s : JSSet) (x : T) : JSSet :=
  if decide (x ∈ s) then s else s ++ [x].

(** [Array.from(s)]: the elements in insertion order. *)
Definition array_from (s : JSSet) : list T := s.

(** [new Set(array)]: every element added in array order. *)
Definition set_of_array (array : list T) : JSSet :=
  foldl set_add set_new array.

(** [distinct(array)] of distinct.ts. *)
Definition distinct (array : list T) : list T :=
  array_from (set_of_array array).

(** [a.shift()]: the removed first element ([None] stands for the
    [undefined] of an empty array) and the array that is left. *)
Definition shift (a : list T) : option T * list T :=
  match a with
  | [] => (None, [])
  | x :: a' => (Some x, a')
  end.

(** [while (a.length > 0) { s.add(a.shift()) }]: the array as the loop
    leaves it, and the set.  Every turn shortens the array by one. *)
Fixpoint drain (a : list T) (s : JSSet) : list T * JSSet :=
  match a with
  | [] => (a, s)
  | x :: a' => drain a' (set_add s x)
  end.

(** Arrays are objects: the caller's arrays live in a store and the
    function receives references, which may be one and the same. *)
Definition ref : Type := nat.

Definition union (a b : ref) (h : gmap ref (list T))
  : option (list T * gmap ref (list T)) :=
  arr_a ← h !! a;
  let '(a_end, s1) := drain arr_a set_new in
  let h1 := <[a := a_end]> h in
  arr_b ← h1 !! b;
  let '(b_end, s2) := drain arr_b s1 in
  let h2 := <[b := b_end]> h1 in
  Some (array_from s2, h2).

(** The distinct elements of a list in order of first occurrence, by
    the textbook recursion. *)
Fixpoint first_occurrences (l : list T) : list T :=
  match l with
  | [] => []
  | x :: l' => x :: filter (λ y, y ≠ x) (first_occurrences l')
  end.

End WithElements.
End Collections.

(* ===================================================================== *)
(** ** type_decoders/is_maybe.ts                                          *)
(* ===================================================================== *)

Module TypeDecoders.

(** A JS value as the decoder sees it: exactly [undefined], exactly
    [null], or anything else. *)
Inductive JsValue (A : Type) : Type :=
| JsUndefined : JsValue A
| JsNull : JsValue A
| JsOther : A → JsValue A.
Arguments JsUndefined {A}.
Arguments JsNull {A}.
Arguments JsOther {A} _.

(** [new DecoderError(value, message, { child, decoderName })]. *)
Inductive DecoderError (I : Type) : Type :=
| MkDecoderError (value : I) (message : string)
    (child : option (DecoderError I)) (decoderName : option string).
Arguments MkDecoderError {I} _ _ _ _.

Definition error_value {I} (e : DecoderError I) : I :=
  match e with MkDecoderError v _ _ _ => v end.
Definition error_message {I} (e : DecoderError I) : string :=
  match e with MkDecoderError _ m _ _ => m end.
Definition error_child {I} (e : DecoderError I) : option (DecoderError I) :=
  match e with MkDecoderError _ _ c _ => c end.
Definition error_decoderName {I} (e : DecoderError I) : option string :=
  match e with MkDecoderError _ _ _ n => n end.

(** [DecoderResult<T> = DecoderSuccess<T> | DecoderError[]]. *)
Inductive DecoderResult (R I : Type) : Type :=
| DecoderSuccess (value : R)
| DecoderErrors (errors : list (DecoderError I)).
Arguments DecoderSuccess {R I} _.
Arguments DecoderErrors {R I} _.

Definition isDecoderSuccess {R I} (r : DecoderResult R I) : bool :=
  match r with DecoderSuccess _ => true | DecoderErrors _ => false end.

(** A computation that records which inputs it handed to the wrapped
    decoder. *)
Definition Traced (I X : Type) : Type := (X * list I)%type.
Definition tret {I X} (x : X) : Traced I X := (x, []).
Definition tbind {I X Y} (m : Traced I X) (k : X → Traced I Y) : Traced I Y :=
  let '(x, t1) := m in let '(y, t2) := k x in (y, t1 ++ t2).
(** [decoder.decode(value)] of the wrapped decoder, recorded. *)
Definition consult {I X} (d : I → X) (v : I) : Traced I X := (d v, [v]).

Definition decoderName : string := "isMaybe".
Definition suffix : string := " OR must be null OR must be undefined".

Section IsMaybe.
Context {A R : Type}.
Local Abbreviation I := (JsValue A).
Local Abbreviation Out := (JsValue R).

(** Not in the sources: util.ts ([SimpleDecoderOptions],
    [applyOptionsToDecoderErrors]) and is_exactly.ts.  They are taken
    as parameters. *)
Variable Options : Type.
Variable applyOptionsToDecoderErrors :
  list (DecoderError I) → Options → list (DecoderError I).
Variable undefinedDecoder : I → DecoderResult Out I.
Variable nullDecoder : I → DecoderResult Out I.

(** The function handed to [new Decoder(...)], lines 64-95. *)
Definition isMaybe (decoder : I → DecoderResult R I) (options : Options)
    (value : I) : Traced I (DecoderResult Out I) :=
  let result := undefinedDecoder value in
  if isDecoderSuccess result then tret result else
  let result := nullDecoder value in
  if isDecoderSuccess result then tret result else
  tbind (consult decoder value) (λ result,
    match result with
    | DecoderSuccess r => tret (DecoderSuccess (JsOther r))
    | DecoderErrors errors =>
        tret (DecoderErrors
          (applyOptionsToDecoderErrors
             (map (λ error,
                     MkDecoderError value (error_message error +:+ suffix)
                       (Some error) (Some decoderName))
                  errors)
             options))
    end).

End IsMaybe.

(** [isExactly(undefined)] and [isExactly(null)] as the name and the use
    of [isExactly] say it: success with the value when it is [===] the
    expected one, one error otherwise.  They instantiate the parameters
    above. *)
Definition exactlyUndefined {A R} (value : JsValue A)
  : DecoderResult (JsValue R) (JsValue A) :=
  match value with
  | JsUndefined => DecoderSuccess JsUndefined
  | _ => DecoderErrors
           [MkDecoderError value "must be exactly undefined" None (Some "isExactly")]
  end.

Definition exactlyNull {A R} (value : JsValue A)
  : DecoderResult (JsValue R) (JsValue A) :=
  match value with
  | JsNull => DecoderSuccess JsNull
  | _ => DecoderErrors
           [MkDecoderError value "must be exactly null" None (Some "isExactly")]
  end.

(** A promise as [await] finds it: fulfilled, rejected, or never
    settled. *)
Inductive Promise (E X : Type) : Type :=
| Fulfilled (x : X)
| Rejected (e : E)
| Unsettled.
Arguments Fulfilled {E X} _.
Arguments Rejected {E X} _.
Arguments Unsettled {E X}.

Section IsMaybePromise.
Context {A R E : Type}.
Local Abbreviation I := (JsValue A).
Local Abbreviation Out := (JsValue R).

Variable Options : Type.
Variable applyOptionsToDecoderErrors :
  list (DecoderError I) → Options → list (DecoderError I).
Variable undefinedDecoder : I → DecoderResult Out I.
Variable nullDecoder : I → DecoderResult Out I.

(** The function handed to [new PromiseDecoder(...)], lines 31-59, for a
    [decoder] that is a [PromiseDecoder]. *)
Definition isMaybePromise (decoder : I → Promise E (DecoderResult R I))
    (options : Options) (value : I) : Traced I (Promise E (DecoderResult Out I)) :=
  let result := undefinedDecoder value in
  if isDecoderSuccess result then tret (Fulfilled result) else
  let result := nullDecoder value in
  if isDecoderSuccess result then tret (Fulfilled result) else
  tbind (consult decoder value) (λ awaited,
    match awaited with
    | Rejected e => tret (Rejected e)
    | Unsettled => tret Unsettled
    | Fulfilled result =>
        match result with
        | DecoderSuccess r => tret (Fulfilled (DecoderSuccess (JsOther r)))
        | DecoderErrors errors =>
            tret (Fulfilled (DecoderErrors
              (applyOptionsToDecoderErrors
                 (map (λ error,
                         MkDecoderError value (error_message error +:+ suffix)
                           (Some error) (Some decoderName))
                      errors)
                 options)))
        end
    end).

End IsMaybePromise.

End TypeDecoders.

(* ===================================================================== *)
(** ** encoding/yaml: the loader and the dumper                            *)
(* ===================================================================== *)

Module Yaml.

(** *** Characters and text *)

Abbreviation LF := ("010"%char).
Abbreviation TAB := ("009"%char).
Abbreviation SP := (" "%char).
Abbreviation DQ := ("034"%char).
Abbreviation SQ := ("'"%char).
Abbreviation BSL := ("\"%char).
Definition nl : string := String LF EmptyString.

Definition code (c : ascii) : nat := nat_of_ascii c.

Definition is_digit (c : ascii) : bool :=
  ((48 <=? code c) && (code c <=? 57))%nat.
Definition is_letter (c : ascii) : bool :=
  (((65 <=? code c) && (code c <=? 90)) || ((97 <=? code c) && (code c <=? 122)))%nat.
Definition is_printable (c : ascii) : bool :=
  ((32 <=? code c) && (code c <=? 126))%nat.

Fixpoint all_chars (p : ascii → bool) (s : string) : bool :=
  match s with
  | EmptyString => true
  | String c s' => p c && all_chars p s'
  end.

Fixpoint spaces (n : nat) : string :=
  match n with 0 => EmptyString | S n' => String SP (spaces n') end.

(** Leading spaces of a line and what follows them. *)
Fixpoint indentation (s : string) : nat * string :=
  match s with
  | String c s' =>
      if Ascii.eqb c SP then let '(n, r) := indentation s' in (S n, r) else (0, s)
  | EmptyString => (0, EmptyString)
  end.

Definition skip_spaces (s : string) : string := snd (indentation s).

Fixpoint drop_chars (n : nat) (s : string) : string :=
  match n, s with
  | S n', String _ s' => drop_chars n' s'
  | _, _ => s
  end.

Fixpoint starts_with (p s : string) : bool :=
  match p, s with
  | EmptyString, _ => true
  | String a p', String b s' => Ascii.eqb a b && starts_with p' s'
  | String _ _, EmptyString => false
  end.

(** Nothing but spaces, or spaces and then a comment. *)
Definition blank_or_comment (s : string) : bool :=
  match skip_spaces s with
  | EmptyString => true
  | String c _ => Ascii.eqb c "#"
  end.

(** A plain scalar stops before a comment: a [#] that follows a space. *)
Fixpoint strip_comment (s : string) : string :=
  match s with
  | String a (String b r as s') =>
      if Ascii.eqb a SP && Ascii.eqb b "#" then EmptyString
      else String a (strip_comment s')
  | _ => s
  end.

(** Trailing spaces removed. *)
Fixpoint rtrim (s : string) : string :=
  match s with
  | EmptyString => EmptyString
  | String c s' =>
      match rtrim s' with
      | EmptyString => if Ascii.eqb c SP then EmptyString else String c EmptyString
      | r => String c r
      end
  end.

(** The text up to the first space, and the rest. *)
Fixpoint word (s : string) : string * string :=
  match s with
  | EmptyString => (EmptyString, EmptyString)
  | String c s' =>
      if Ascii.eqb c SP then (EmptyString, s)
      else let '(w, r) := word s' in (String c w, r)
  end.

(** The lines of a text; a final line break ends the last line and opens
    no further one. *)
Fixpoint lines (s : string) : list string :=
  match s with
  | EmptyString => []
  | String c s' =>
      if Ascii.eqb c LF then EmptyString :: lines s'
      else match lines s' with
           | [] => [String c EmptyString]
           | l :: ls => String c l :: ls
           end
  end.

Fixpoint unlines (ls : list string) : string :=
  match ls with
  | [] => EmptyString
  | l :: ls' => l +:+ nl +:+ unlines ls'
  end.

(** *** Marks and faults (spec §3, §7) *)

(** Modelled from the spec: the loader and the dumper (the scanner, the
    parser, the schema, the constructor and the serializer) are not among
    the sources; only their tests are.  This module follows §3-§7 of the
    specification on a block-style fragment of the format: block
    sequences and mappings nested by indentation, one entry per line,
    plain, quoted and block scalars, anchors, aliases and tags in front
    of a value, empty flow collections, comments and document markers.
    Flow collections with entries, compact nesting on one line,
    directives and multi-line plain or quoted scalars are outside the
    fragment. *)
Record Mark := { line : nat; column : nat; bufferSnippet : string }.

Inductive ScannerFault :=
  BadIndentation | InvalidEscape | UnexpectedEnd | UnexpectedCharacter.
Inductive ParserFault :=
  UnexpectedIndicator | InconsistentIndentation | UnexpectedContent.
Inductive ConstructFault := DuplicateKey | ImplicitTypeAmbiguity | BadKey | BadLiteral.

Inductive Fault :=
| ScannerError (kind : ScannerFault)
| ParserError (kind : ParserFault)
| UnresolvedTagError (tag : string)
| AliasNotFoundError (anchorName : string)
| ConstructError (kind : ConstructFault)
| UnrepresentableValueError
| CircularReferenceError
| DepthExceededError.

(** A stage either returns or faults at a position. *)
Inductive Result (A : Type) : Type :=
| Ok (a : A)
| Err (f : Fault) (m : Mark).
Arguments Ok {A} _.
Arguments Err {A} _ _.

Definition rbind {A B} (r : Result A) (k : A → Result B) : Result B :=
  match r with Ok a => k a | Err f m => Err f m end.

Notation "x ←r e ; k" := (rbind e (λ x, k))
  (at level 100, e at next level, k at level 200, right associativity,
   format "x  ←r  e ;  '/' k").

Fixpoint rmap {A B} (f : A → Result B) (l : list A) : Result (list B) :=
  match l with
  | [] => Ok []
  | a :: l' => b ←r f a; bs ←r rmap f l'; Ok (b :: bs)
  end.

(** *** Tokens (spec §3, §4.1) *)

Inductive Style := Plain | SingleQuoted | DoubleQuoted | Literal | Folded.
Inductive Chomp := Clip | Strip | Keep.

(** What a line carries after its indicator. *)
Inductive Tok :=
| TScalar (text : string) (style : Style)
| TAlias (name : string)
| TEmptySeq
| TEmptyMap.

(** How a line starts: a sequence entry ([- ]), a mapping key ([key:]),
    or neither. *)
Inductive Head :=
| HNone
| HDash
| HKey (text : string) (style : Style).

Record Line := {
  lindent : nat;
  lhead : Head;
  lanchor : option string;
  ltag : option string;
  lvalue : option Tok
}.

Abbreviation MLine := (Mark * Line)%type.

(** *** Quoted scalars: escapes are decoded at scan time *)

Definition hex_digit (n : nat) : ascii :=
  if (n <? 10)%nat then ascii_of_nat (48 + n) else ascii_of_nat (87 + n).

Definition hex_value (c : ascii) : option nat :=
  if is_digit c then Some (code c - 48)
  else if ((97 <=? code c) && (code c <=? 102))%nat then Some (code c - 87)
  else if ((65 <=? code c) && (code c <=? 70))%nat then Some (code c - 55)
  else None.

Definition escape_char (c : ascii) : string :=
  if Ascii.eqb c BSL then String BSL (String BSL EmptyString)
  else if Ascii.eqb c DQ then String BSL (String DQ EmptyString)
  else if Ascii.eqb c LF then String BSL "n"
  else if Ascii.eqb c TAB then String BSL "t"
  else if is_printable c then String c EmptyString
  else String BSL (String "x" (String (hex_digit (code c / 16))
                                 (String (hex_digit (code c mod 16)) EmptyString))).

Fixpoint escape_double (s : string) : string :=
  match s with
  | EmptyString => EmptyString
  | String c s' => escape_char c +:+ escape_double s'
  end.

Fixpoint escape_single (s : string) : string :=
  match s with
  | EmptyString => EmptyString
  | String c s' =>
      if Ascii.eqb c SQ then String SQ (String SQ (escape_single s'))
      else String c (escape_single s')
  end.

Definition push (c : ascii) (r : ScannerFault + string * string)
  : ScannerFault + string * string :=
  match r with
  | inl k => inl k
  | inr (t, rest) => inr (String c t, rest)
  end.

(** After the opening double quote: the decoded text and what follows
    the closing quote. *)
Fixpoint read_double (s : string) : ScannerFault + string * string :=
  match s with
  | EmptyString => inl UnexpectedEnd
  | String c s' =>
      if Ascii.eqb c DQ then inr (EmptyString, s')
      else if Ascii.eqb c BSL then
        match s' with
        | EmptyString => inl UnexpectedEnd
        | String e s'' =>
            if Ascii.eqb e "n" then push LF (read_double s'')
            else if Ascii.eqb e "t" then push TAB (read_double s'')
            else if Ascii.eqb e BSL then push BSL (read_double s'')
            else if Ascii.eqb e DQ then push DQ (read_double s'')
            else if Ascii.eqb e "x" then
              match s'' with
              | String h (String l s3) =>
                  match hex_value h, hex_value l with
                  | Some a, Some b => push (ascii_of_nat (16 * a + b)) (read_double s3)
                  | _, _ => inl InvalidEscape
                  end
              | _ => inl InvalidEscape
              end
            else inl InvalidEscape
        end
      else push c (read_double s')
  end.

(** After the opening single quote: a doubled quote stands for one. *)
Fixpoint read_single (s : string) : ScannerFault + string * string :=
  match s with
  | EmptyString => inl UnexpectedEnd
  | String c s' =>
      if Ascii.eqb c SQ then
        match s' with
        | String c2 s'' =>
            if Ascii.eqb c2 SQ then push SQ (read_single s'') else inr (EmptyString, s')
        | EmptyString => inr (EmptyString, EmptyString)
        end
      else push c (read_single s')
  end.

(** The first [:] that ends a key: one followed by a space or by the end
    of the line. *)
Fixpoint find_colon (s : string) : option (string * string) :=
  match s with
  | EmptyString => None
  | String c s' =>
      if Ascii.eqb c ":" &&
         match s' with EmptyString => true | String d _ => Ascii.eqb d SP end
      then Some (EmptyString, s')
      else match find_colon s' with
           | Some (k, r) => Some (String c k, r)
           | None => None
           end
  end.

(** *** Block scalars (spec §4.1) *)

(** Modelled from the spec: the scanner is not among the sources.  The
    folding of §4.1: a line break between two non-blank lines becomes a
    space; a blank line stays a line break. *)
Fixpoint fold_lines (ls : list string) : string :=
  match ls with
  | [] => EmptyString
  | l :: rest =>
      match rest with
      | [] => l
      | l' :: _ =>
          if String.eqb l EmptyString then nl +:+ fold_lines rest
          else if String.eqb l' EmptyString then l +:+ fold_lines rest
          else l +:+ " " +:+ fold_lines rest
      end
  end.

Fixpoint join_lines (ls : list string) : string :=
  match ls with
  | [] => EmptyString
  | l :: rest =>
      match rest with
      | [] => l
      | _ => l +:+ nl +:+ join_lines rest
      end
  end.

Fixpoint newlines (k : nat) : string :=
  match k with 0 => EmptyString | S k' => String LF (newlines k') end.

Definition is_blank (raw : string) : bool :=
  match skip_spaces raw with EmptyString => true | _ => false end.

Fixpoint drop_blank (ls : list string) : list string :=
  match ls with
  | l :: ls' => if is_blank l then drop_blank ls' else ls
  | [] => []
  end.

(** The indentation of a block scalar is that of its first non-blank
    line. *)
Definition block_indent (body : list string) : nat :=
  match drop_blank body with
  | l :: _ => fst (indentation l)
  | [] => 0
  end.

Definition strip_block (body : list string) : list string :=
  map (λ l, if is_blank l then EmptyString else drop_chars (block_indent body) l) body.

(** The chomping indicator decides what is left of the final line break
    and of the trailing blank lines. *)
Definition chomp_text (c : Chomp) (content : list string) (body : string)
    (trailing : nat) : string :=
  match c with
  | Strip => body
  | Clip => match content with [] => EmptyString | _ => body +:+ nl end
  | Keep => match content with
            | [] => newlines trailing
            | _ => body +:+ nl +:+ newlines trailing
            end
  end.

(** Modelled from the spec: the text of a block scalar (§4.1), folded or
    literal, with the chomping of its indicator. *)
Definition block_text (folded : bool) (c : Chomp) (body : list string) : string :=
  let ls := strip_block body in
  let content := rev (drop_blank (rev ls)) in
  let trailing := length ls - length content in
  chomp_text c content
    (if folded then fold_lines content else join_lines content) trailing.

(** *** Scanner (spec §4.1) *)

(** A node property in front of a value: [&anchor] or [!tag]. *)
Definition read_prop (indicator : ascii) (s : string) : option string * string :=
  match s with
  | String c s' =>
      if Ascii.eqb c indicator
      then let '(w, r) := word s' in (Some w, skip_spaces r)
      else (None, s)
  | EmptyString => (None, s)
  end.

(** [!!name] is the shorthand of the standard tags. *)
Definition expand_tag (t : string) : string :=
  match t with
  | String "!" name => "tag:yaml.org,2002:" +:+ name
  | _ => String "!" t
  end.

Definition ends_key (after : string) : bool :=
  match after with
  | EmptyString => true
  | String d _ => Ascii.eqb d SP
  end.

Record Value := {
  v_anchor : option string;
  v_tag : option string;
  v_tok : option Tok;
  v_block : option (bool * Chomp)
}.

(** What follows the indicator of a line. *)
Definition scan_value (s : string) : ScannerFault + Value :=
  let s0 := skip_spaces s in
  let '(a1, s1) := read_prop "&" s0 in
  let '(t, s2) := read_prop "!" s1 in
  let '(a2, s3) := match a1 with
                   | None => read_prop "&" s2
                   | Some _ => (None, s2)
                   end in
  let anchor := match a1 with Some a => Some a | None => a2 end in
  let tag := expand_tag <$> t in
  let value tok block := inr (Build_Value anchor tag tok block) in
  match s3 with
  | EmptyString => value None None
  | String c r =>
      if Ascii.eqb c "#" then value None None
      else if Ascii.eqb c "*" then
        let '(w, r') := word r in
        if blank_or_comment r' then value (Some (TAlias w)) None
        else inl UnexpectedCharacter
      else if Ascii.eqb c SQ then
        match read_single r with
        | inl k => inl k
        | inr (t, r') =>
            if blank_or_comment r' then value (Some (TScalar t SingleQuoted)) None
            else inl UnexpectedCharacter
        end
      else if Ascii.eqb c DQ then
        match read_double r with
        | inl k => inl k
        | inr (t, r') =>
            if blank_or_comment r' then value (Some (TScalar t DoubleQuoted)) None
            else inl UnexpectedCharacter
        end
      else if Ascii.eqb c "[" then
        if starts_with "]" r && blank_or_comment (drop_chars 1 r)
        then value (Some TEmptySeq) None else inl UnexpectedCharacter
      else if Ascii.eqb c "{" then
        if starts_with "}" r && blank_or_comment (drop_chars 1 r)
        then value (Some TEmptyMap) None else inl UnexpectedCharacter
      else if Ascii.eqb c ">" || Ascii.eqb c "|" then
        let '(ch, r') := match r with
                         | String "-" r' => (Strip, r')
                         | String "+" r' => (Keep, r')
                         | _ => (Clip, r)
                         end in
        if blank_or_comment r' then value None (Some (Ascii.eqb c ">", ch))
        else inl UnexpectedCharacter
      else
        let text := rtrim (strip_comment s3) in
        match find_colon text with
        | Some _ => inl UnexpectedCharacter
        | None =>
            if Ascii.eqb c "-" && ends_key r then inl UnexpectedCharacter
            else value (Some (TScalar text Plain)) None
        end
  end.

Inductive Scanned :=
| SBlank
| SLine (l : Line) (block : option (bool * Chomp)).

Definition scanned (n : nat) (h : Head) (v : ScannerFault + Value)
  : ScannerFault + Scanned :=
  match v with
  | inl k => inl k
  | inr v => inr (SLine (Build_Line n h (v_anchor v) (v_tag v) (v_tok v)) (v_block v))
  end.

Definition scan_quoted_head (n : nat) (style : Style) (r : string)
    (q : ScannerFault + string * string) : ScannerFault + Scanned :=
  match q with
  | inl k => inl k
  | inr (t, after) =>
      match after with
      | String ":" after' =>
          if ends_key after' then scanned n (HKey t style) (scan_value after')
          else inl UnexpectedCharacter
      | _ => scanned n HNone (scan_value r)
      end
  end.

(** One line outside a block scalar. *)
Definition scan_line (raw : string) : ScannerFault + Scanned :=
  let '(n, r) := indentation raw in
  match r with
  | EmptyString => inr SBlank
  | String c r' =>
      if Ascii.eqb c TAB then inl BadIndentation
      else if Ascii.eqb c "#" then inr SBlank
      else if Ascii.eqb c "-" && ends_key r' then scanned n HDash (scan_value r')
      else if Ascii.eqb c SQ then scan_quoted_head n SingleQuoted r (read_single r')
      else if Ascii.eqb c DQ then scan_quoted_head n DoubleQuoted r (read_double r')
      else match find_colon r with
           | Some (k, after) => scanned n (HKey (rtrim k) Plain) (scan_value after)
           | None => scanned n HNone (scan_value r)
           end
  end.

(** A block scalar whose lines are still being collected. *)
Record Pending := {
  pd_mark : Mark;
  pd_line : Line;
  pd_folded : bool;
  pd_chomp : Chomp;
  pd_body : list string
}.

Definition finish (p : Pending) : MLine :=
  (pd_mark p,
   Build_Line (lindent (pd_line p)) (lhead (pd_line p))
     (lanchor (pd_line p)) (ltag (pd_line p))
     (Some (TScalar (block_text (pd_folded p) (pd_chomp p) (rev (pd_body p)))
              (if pd_folded p then Folded else Literal)))).

Definition mark_of (no : nat) (raw : string) : Mark :=
  Build_Mark no (fst (indentation raw)) raw.

Definition scan_fresh (out : list MLine) (no : nat) (raw : string)
  : Result (list MLine * option Pending) :=
  match scan_line raw with
  | inl k => Err (ScannerError k) (mark_of no raw)
  | inr SBlank => Ok (out, None)
  | inr (SLine l None) => Ok ((mark_of no raw, l) :: out, None)
  | inr (SLine l (Some (f, c))) =>
      Ok (out, Some (Build_Pending (mark_of no raw) l f c []))
  end.

Definition scan_step (st : list MLine * option Pending) (nraw : nat * string)
  : Result (list MLine * option Pending) :=
  let '(out, pend) := st in
  let '(no, raw) := nraw in
  match pend with
  | Some p =>
      if is_blank raw || (lindent (pd_line p) <? fst (indentation raw))%nat
      then Ok (out, Some (Build_Pending (pd_mark p) (pd_line p) (pd_folded p)
                            (pd_chomp p) (raw :: pd_body p)))
      else scan_fresh (finish p :: out) no raw
  | None => scan_fresh out no raw
  end.

Fixpoint scan_from (st : list MLine * option Pending) (nls : list (nat * string))
  : Result (list MLine) :=
  match nls with
  | [] => let '(out, pend) := st in
          Ok (rev match pend with Some p => finish p :: out | None => out end)
  | x :: rest => st' ←r scan_step st x; scan_from st' rest
  end.

(** Modelled from the spec: the scanner (§4.1) is not among the sources.
    [scan] of one document: its numbered lines to its tokens. *)
Definition scan (nls : list (nat * string)) : Result (list MLine) :=
  scan_from ([], None) nls.

(** *** Documents of a stream *)

Inductive RawKind := KStart (rest : string) | KEnd | KContent.

Definition classify (raw : string) : RawKind :=
  if starts_with "---" raw && ends_key (drop_chars 3 raw)
  then KStart (drop_chars 4 raw)
  else if starts_with "..." raw && ends_key (drop_chars 3 raw) then KEnd
  else KContent.

Definition close_doc (cur : option (list (nat * string)))
  : list (list (nat * string)) :=
  match cur with Some d => [rev d] | None => [] end.

Fixpoint split_docs (cur : option (list (nat * string)))
    (nls : list (nat * string)) : list (list (nat * string)) :=
  match nls with
  | [] => close_doc cur
  | (no, raw) :: rest =>
      match classify raw with
      | KStart r => close_doc cur ++ split_docs (Some [(no, r)]) rest
      | KEnd => close_doc cur ++ split_docs None rest
      | KContent =>
          match cur with
          | Some d => split_docs (Some ((no, raw) :: d)) rest
          | None => if blank_or_comment raw then split_docs None rest
                    else split_docs (Some [(no, raw)]) rest
          end
      end
  end.

Definition number_lines (ls : list string) : list (nat * string) :=
  imap (λ i l, (S i, l)) ls.

(** Modelled from the spec: the documents of a stream (§3), each with
    its numbered lines. *)
Definition documents (text : string) : list (list (nat * string)) :=
  split_docs None (number_lines (lines text)).

(** *** Nodes and the parser (spec §3, §4.2) *)

Inductive Node :=
| Scalar (tag anchor : option string) (text : string) (style : Style) (mark : Mark)
| Sequence (tag anchor : option string) (items : list Node) (mark : Mark)
| Mapping (tag anchor : option string) (pairs : list (Node * Node)) (mark : Mark)
| Alias (name : string) (mark : Mark).

Fixpoint node_depth (n : Node) : nat :=
  match n with
  | Scalar _ _ _ _ _ | Alias _ _ => 0
  | Sequence _ _ items _ => S (foldr (λ i d, Nat.max (node_depth i) d) 0 items)
  | Mapping _ _ pairs _ =>
      S (foldr (λ kv d, Nat.max (Nat.max (node_depth (fst kv)) (node_depth (snd kv))) d)
           0 pairs)
  end.

(** The lines of a collection at indentation [n], grouped in entries: a
    line at [n] (or left of it) opens an entry and the deeper lines that
    follow belong to it.  The first component holds deeper lines met
    before any entry. *)
Fixpoint group (n : nat) (ls : list MLine)
  : list MLine * list (MLine * list MLine) :=
  match ls with
  | [] => ([], [])
  | l :: rest =>
      let '(pre, gs) := group n rest in
      if (lindent (snd l) <=? n)%nat then ([], (l, pre) :: gs) else (l :: pre, gs)
  end.

(** The node of an inline value; a collection, even empty, needs depth. *)
Definition tok_node (d : nat) (tag anchor : option string) (m : Mark) (t : Tok)
  : Result Node :=
  match t with
  | TScalar text style => Ok (Scalar tag anchor text style m)
  | TAlias name => Ok (Alias name m)
  | TEmptySeq =>
      match d with 0 => Err DepthExceededError m | S _ => Ok (Sequence tag anchor [] m) end
  | TEmptyMap =>
      match d with 0 => Err DepthExceededError m | S _ => Ok (Mapping tag anchor [] m) end
  end.

(** The value of an entry: inline on the entry's line, or the nested block
    on the lines below it. *)
Definition entry_value (d : nat) (n : nat)
    (block : option string → option string → Mark → list MLine → Result Node)
    (e : MLine * list MLine) : Result Node :=
  let '((m, l), nested) := e in
  if negb (lindent l =? n)%nat then Err (ParserError InconsistentIndentation) m
  else match lvalue l with
       | Some t =>
           match nested with
           | [] => tok_node d (ltag l) (lanchor l) m t
           | (m', _) :: _ => Err (ParserError UnexpectedContent) m'
           end
       | None => block (ltag l) (lanchor l) m nested
       end.

Definition seq_entry (d n : nat)
    (block : option string → option string → Mark → list MLine → Result Node)
    (e : MLine * list MLine) : Result Node :=
  match lhead (snd (fst e)) with
  | HDash => entry_value d n block e
  | _ => Err (ParserError UnexpectedIndicator) (fst (fst e))
  end.

Definition map_entry (d n : nat)
    (block : option string → option string → Mark → list MLine → Result Node)
    (e : MLine * list MLine) : Result (Node * Node) :=
  match lhead (snd (fst e)) with
  | HKey k style =>
      v ←r entry_value d n block e;
      Ok (Scalar None None k style (fst (fst e)), v)
  | _ => Err (ParserError UnexpectedIndicator) (fst (fst e))
  end.

(** Modelled from the spec: the parser (§4.2) and the depth guard (§5)
    are not among the sources.
    [parse] of the lines of one block, by recursive descent.  The depth
    that is left is the measure of the recursion: a collection met with
    none left is the fault [DepthExceededError]. *)
Fixpoint parse_block (d : nat) (tag anchor : option string) (pm : Mark)
    (ls : list MLine) {struct d} : Result Node :=
  match ls with
  | [] => Ok (Scalar tag anchor EmptyString Plain pm)
  | (m, l) :: rest =>
      match lhead l with
      | HNone =>
          match rest with
          | [] =>
              let tag' := match ltag l with Some t => Some t | None => tag end in
              let anchor' := match lanchor l with Some a => Some a | None => anchor end in
              match lvalue l with
              | Some t => tok_node d tag' anchor' m t
              | None => Ok (Scalar tag' anchor' EmptyString Plain m)
              end
          | (m', _) :: _ => Err (ParserError UnexpectedContent) m'
          end
      | HDash =>
          match d with
          | 0 => Err DepthExceededError m
          | S d' =>
              items ←r rmap (seq_entry d' (lindent l) (parse_block d'))
                         (snd (group (lindent l) ls));
              Ok (Sequence tag anchor items m)
          end
      | HKey _ _ =>
          match d with
          | 0 => Err DepthExceededError m
          | S d' =>
              pairs ←r rmap (map_entry d' (lindent l) (parse_block d'))
                         (snd (group (lindent l) ls));
              Ok (Mapping tag anchor pairs m)
          end
      end
  end.

Definition no_mark : Mark := Build_Mark 0 0 EmptyString.

(** [parse] of one document. *)
Definition parse (maxDepth : nat) (ls : list MLine) : Result Node :=
  parse_block maxDepth None None no_mark ls.

(** *** Native values (spec §3) *)

Inductive Prim := PNull | PBool (b : bool) | PNum (n : Z) | PStr (s : string).

(** A constructed value: a scalar, or a reference to a collection of the
    store, so that two occurrences can be one shared object. *)
Inductive Val := VPrim (p : Prim) | VRef (r : nat).
Inductive Obj := OSeq (items : list Val) | OMap (entries : list (string * Val)).

(** A value without sharing: what [dump] takes and what a loaded value is
    compared with. *)
Inductive Data :=
| DPrim (p : Prim)
| DSeq (items : list Data)
| DMap (entries : list (string * Data)).

Fixpoint data_depth (v : Data) : nat :=
  match v with
  | DPrim _ => 0
  | DSeq items => S (foldr (λ i d, Nat.max (data_depth i) d) 0 items)
  | DMap entries => S (foldr (λ kv d, Nat.max (data_depth (snd kv)) d) 0 entries)
  end.

(** The keys of every mapping are distinct. *)
Fixpoint distinct_keys (v : Data) : Prop :=
  match v with
  | DPrim _ => True
  | DSeq items => foldr (λ i P, distinct_keys i ∧ P) True items
  | DMap entries =>
      NoDup (map fst entries)
      ∧ foldr (λ kv P, distinct_keys (snd kv) ∧ P) True entries
  end.

(** The value behind a reference, read out of the store as far as the
    fuel reaches. *)
Fixpoint reify (fuel : nat) (st : list Obj) (v : Val) : option Data :=
  match v with
  | VPrim p => Some (DPrim p)
  | VRef r =>
      match fuel with
      | 0 => None
      | S f =>
          match st !! r with
          | Some (OSeq vs) => DSeq <$> mapM (reify f st) vs
          | Some (OMap es) =>
              DMap <$> mapM (λ kv, pair (fst kv) <$> reify f st (snd kv)) es
          | None => None
          end
      end
  end.

(** *** Schema (spec §3, §4.3) *)

Inductive Kind := KScalar | KSequence | KMapping.

Definition kind_eqb (a b : Kind) : bool :=
  match a, b with
  | KScalar, KScalar | KSequence, KSequence | KMapping, KMapping => true
  | _, _ => false
  end.

Record TypeDescriptor := {
  td_tag : string;
  td_kind : Kind;
  td_resolve : string → bool;
  td_construct : string → option Prim;
  td_represent : Prim → string * Style;
  td_predicate : Prim → bool
}.

(** The ordered type descriptors, and the descriptors of implicit types
    that are deprecated: a plain scalar one of them would claim is the
    anomaly of §7. *)
Record Schema := {
  types : list TypeDescriptor;
  deprecated : list TypeDescriptor
}.

Definition one_of (l : list string) (t : string) : bool :=
  existsb (String.eqb t) l.

Definition print_int (n : Z) : string := NilZero.string_of_int (Z.to_int n).
Definition read_int (t : string) : option Z := Z.of_int <$> NilZero.int_of_string t.

Definition str_tag : string := "tag:yaml.org,2002:str".

Definition null_type : TypeDescriptor := {|
  td_tag := "tag:yaml.org,2002:null"; td_kind := KScalar;
  td_resolve := one_of [EmptyString; "~"; "null"; "Null"; "NULL"];
  td_construct := λ _, Some PNull;
  td_represent := λ _, ("null", Plain);
  td_predicate := λ p, match p with PNull => true | _ => false end |}.

Definition bool_type : TypeDescriptor := {|
  td_tag := "tag:yaml.org,2002:bool"; td_kind := KScalar;
  td_resolve := one_of ["true"; "True"; "TRUE"; "false"; "False"; "FALSE"];
  td_construct := λ t, Some (PBool (one_of ["true"; "True"; "TRUE"] t));
  td_represent := λ p, (match p with PBool false => "false" | _ => "true" end, Plain);
  td_predicate := λ p, match p with PBool _ => true | _ => false end |}.

Definition int_type : TypeDescriptor := {|
  td_tag := "tag:yaml.org,2002:int"; td_kind := KScalar;
  td_resolve := λ t, match read_int t with Some _ => true | None => false end;
  td_construct := λ t, PNum <$> read_int t;
  td_represent := λ p, (match p with PNum n => print_int n | _ => "0" end, Plain);
  td_predicate := λ p, match p with PNum _ => true | _ => false end |}.

Definition str_type : TypeDescriptor := {|
  td_tag := str_tag; td_kind := KScalar;
  td_resolve := λ _, true;
  td_construct := λ t, Some (PStr t);
  td_represent := λ p, (match p with PStr s => s | _ => EmptyString end, Plain);
  td_predicate := λ p, match p with PStr _ => true | _ => false end |}.

Definition collection_type (tag : string) (k : Kind) : TypeDescriptor := {|
  td_tag := tag; td_kind := k;
  td_resolve := λ _, true;
  td_construct := λ _, None;
  td_represent := λ _, (EmptyString, Plain);
  td_predicate := λ _, false |}.

(** The truth words of the older format, once booleans, now strings. *)
Definition legacy_bool_type : TypeDescriptor := {|
  td_tag := "tag:yaml.org,2002:bool"; td_kind := KScalar;
  td_resolve := one_of ["y"; "Y"; "yes"; "Yes"; "YES"; "n"; "N"; "no"; "No"; "NO";
                        "on"; "On"; "ON"; "off"; "Off"; "OFF"];
  td_construct := λ t, Some (PBool (one_of ["y"; "Y"; "yes"; "Yes"; "YES"; "on"; "On"; "ON"] t));
  td_represent := λ p, (match p with PBool false => "no" | _ => "yes" end, Plain);
  td_predicate := λ p, match p with PBool _ => true | _ => false end |}.

Definition default_schema : Schema := {|
  types := [null_type; bool_type; int_type; str_type;
            collection_type "tag:yaml.org,2002:seq" KSequence;
            collection_type "tag:yaml.org,2002:map" KMapping];
  deprecated := [legacy_bool_type] |}.

(** The type with an explicit tag, among those of the node's kind. *)
Definition find_tag (s : Schema) (k : Kind) (tag : string) : option TypeDescriptor :=
  find (λ t, kind_eqb (td_kind t) k && String.eqb (td_tag t) tag) (types s).

(** Implicit resolution: the first scalar type, in schema order, whose
    predicate accepts the text. *)
Definition implicit_type (s : Schema) (text : string) : option TypeDescriptor :=
  find (λ t, kind_eqb (td_kind t) KScalar && td_resolve t text) (types s).

Definition ambiguous (s : Schema) (text : string) : bool :=
  existsb (λ t, td_resolve t text) (deprecated s).

Definition construct_with (ty : TypeDescriptor) (text : string) : Fault + Prim :=
  match td_construct ty text with
  | Some p => inr p
  | None => inl (ConstructError BadLiteral)
  end.

Definition construct_scalar (s : Schema) (tag : option string) (text : string)
    (style : Style) : Fault + Prim :=
  match tag with
  | Some t =>
      match find_tag s KScalar t with
      | Some ty => construct_with ty text
      | None => inl (UnresolvedTagError t)
      end
  | None =>
      match style with
      | Plain =>
          match implicit_type s text with
          | Some ty => construct_with ty text
          | None => inr (PStr text)
          end
      | _ => inr (PStr text)
      end
  end.

(** *** Errors as the caller sees them (spec §6) *)

Record FormatException := {
  name : string;
  fault : Fault;
  reason : string;
  mark : Mark;
  message : string
}.

(** What a callback of the caller may raise: an error of the loader
    handed back, or anything of its own. *)
Inductive Thrown := Yaml (e : FormatException) | Foreign (what : string).

Record LoadOptions := {
  filename : string;
  schema : Schema;
  onWarning : option (FormatException → option Thrown);
  fatalDuplicateKeys : bool;
  maxDepth : nat
}.

Definition reason_of (f : Fault) : string :=
  match f with
  | ScannerError BadIndentation => "tab characters are not allowed in indentation"
  | ScannerError InvalidEscape => "invalid escape sequence in a quoted scalar"
  | ScannerError UnexpectedEnd => "unexpected end of a quoted scalar"
  | ScannerError UnexpectedCharacter => "unexpected character"
  | ParserError UnexpectedIndicator => "unexpected indicator"
  | ParserError InconsistentIndentation => "bad indentation of a collection entry"
  | ParserError UnexpectedContent => "unexpected content after a value"
  | UnresolvedTagError t => "unknown tag " +:+ t
  | AliasNotFoundError a => "unidentified alias " +:+ a
  | ConstructError DuplicateKey => "duplicated mapping key"
  | ConstructError ImplicitTypeAmbiguity => "deprecated implicit type"
  | ConstructError BadKey => "a collection cannot be a mapping key"
  | ConstructError BadLiteral => "cannot construct the value of a scalar"
  | UnrepresentableValueError => "unacceptable kind of a value to dump"
  | CircularReferenceError => "circular reference"
  | DepthExceededError => "maximum nesting depth exceeded"
  end.

Definition print_nat (n : nat) : string := NilZero.string_of_uint (Nat.to_uint n).

Definition format_message (file : string) (f : Fault) (m : Mark) : string :=
  reason_of f +:+ " in " +:+ file +:+ " at line " +:+ print_nat (line m)
  +:+ ", column " +:+ print_nat (column m) +:+ ":" +:+ nl +:+ bufferSnippet m.

(** Modelled from the spec: the error value of §6, with the name of the
    file in its message. *)
Definition exception (file : string) (f : Fault) (m : Mark) : FormatException :=
  {| name := "FormatException"; fault := f; reason := reason_of f; mark := m;
     message := format_message file f m |}.

(** *** Constructor (spec §4.3) *)

Record LoadState := {
  store : list Obj;
  anchors : gmap string Val;
  delivered : list FormatException
}.

Inductive Outcome (A : Type) : Type :=
| Done (a : A) (st : LoadState)
| Raised (t : Thrown) (st : LoadState).
Arguments Done {A} _ _.
Arguments Raised {A} _ _.

Definition M (A : Type) : Type := LoadState → Outcome A.

Definition ret {A} (a : A) : M A := λ st, Done a st.
Definition bind {A B} (m : M A) (k : A → M B) : M B :=
  λ st, match m st with
        | Done a st' => k a st'
        | Raised t st' => Raised t st'
        end.

Notation "x ←m e ; k" := (bind e (λ x, k))
  (at level 100, e at next level, k at level 200, right associativity,
   format "x  ←m  e ;  '/' k").
Notation "e >>m k" := (bind e (λ _, k))
  (at level 100, k at level 200, right associativity).

Definition fail {A} (o : LoadOptions) (f : Fault) (m : Mark) : M A :=
  λ st, Raised (Yaml (exception (filename o) f m)) st.

Definition lift {A} (o : LoadOptions) (r : Result A) : M A :=
  match r with Ok a => ret a | Err f m => fail o f m end.

(** A new object of the store and its reference. *)
Definition alloc (ob : Obj) : M nat :=
  λ st, Done (length (store st))
          {| store := store st ++ [ob]; anchors := anchors st;
             delivered := delivered st |}.

Definition fill (r : nat) (ob : Obj) : M unit :=
  λ st, Done tt {| store := <[r := ob]> (store st); anchors := anchors st;
                   delivered := delivered st |}.

(** Registering an anchor overwrites an earlier one of the same name. *)
Definition register (anchor : option string) (v : Val) : M unit :=
  λ st, match anchor with
        | Some a => Done tt {| store := store st; anchors := <[a := v]> (anchors st);
                               delivered := delivered st |}
        | None => Done tt st
        end.

Definition reset_anchors : M unit :=
  λ st, Done tt {| store := store st; anchors := ∅; delivered := delivered st |}.

(** Modelled from the spec: the warnings of §7.  A recoverable anomaly
    goes to the hook when there is one; what the hook raises ends the
    load. *)
Definition warn (o : LoadOptions) (f : ConstructFault) (m : Mark) : M unit :=
  λ st, match onWarning o with
        | None => Done tt st
        | Some hook =>
            let w := exception (filename o) (ConstructError f) m in
            let st' := {| store := store st; anchors := anchors st;
                          delivered := delivered st ++ [w] |} in
            match hook w with
            | None => Done tt st'
            | Some t => Raised t st'
            end
        end.

(** Modelled from the spec: a duplicate key (§4.3, §7) is a fault, or a
    warning when leniency is asked for. *)
Definition duplicate_key (o : LoadOptions) (m : Mark) : M unit :=
  if fatalDuplicateKeys o then fail o (ConstructError DuplicateKey) m
  else warn o DuplicateKey m.

Definition check_tag (o : LoadOptions) (k : Kind) (tag : option string) (m : Mark)
  : M unit :=
  match tag with
  | None => ret tt
  | Some t => match find_tag (schema o) k t with
              | Some _ => ret tt
              | None => fail o (UnresolvedTagError t) m
              end
  end.

Definition prim_text (p : Prim) : string :=
  match p with
  | PNull => "null"
  | PBool true => "true"
  | PBool false => "false"
  | PNum n => print_int n
  | PStr s => s
  end.

(** A mapping key is kept as a string. *)
Definition key_string (v : Val) : option string :=
  match v with VPrim p => Some (prim_text p) | VRef _ => None end.

Definition has_key (k : string) (es : list (string * Val)) : bool :=
  existsb (λ e, String.eqb k (fst e)) es.

(** A later value for a key replaces the earlier one in place. *)
Fixpoint set_entry (k : string) (v : Val) (es : list (string * Val))
  : list (string * Val) :=
  match es with
  | [] => [(k, v)]
  | (k', v') :: es' =>
      if String.eqb k k' then (k, v) :: es' else (k', v') :: set_entry k v es'
  end.

Definition node_mark (n : Node) : Mark :=
  match n with
  | Scalar _ _ _ _ m | Sequence _ _ _ m | Mapping _ _ _ m | Alias _ m => m
  end.

(** The items of a sequence, one after the other. *)
Definition construct_items (item : Node → M Val) : list Node → M (list Val) :=
  fix each (l : list Node) : M (list Val) :=
    match l with
    | [] => ret []
    | i :: l' => v ←m item i ; vs ←m each l' ; ret (v :: vs)
    end.

(** The pairs of a mapping, one after the other: key, value, then the
    entry is stored. *)
Definition construct_pairs (o : LoadOptions) (item : Node → M Val)
  : list (Node * Node) → list (string * Val) → M (list (string * Val)) :=
  fix each (l : list (Node * Node)) (acc : list (string * Val))
    : M (list (string * Val)) :=
    match l with
    | [] => ret acc
    | kv :: l' =>
        k ←m item (fst kv) ;
        match key_string k with
        | None => fail o (ConstructError BadKey) (node_mark (fst kv))
        | Some ks =>
            v ←m item (snd kv) ;
            (if has_key ks acc then duplicate_key o (node_mark (fst kv)) else ret tt) >>m
            each l' (set_entry ks v acc)
        end
    end.

(** A plain scalar without a tag that a deprecated implicit type would
    claim is an anomaly. *)
Definition check_ambiguity (o : LoadOptions) (tag : option string) (text : string)
    (style : Style) (m : Mark) : M unit :=
  match tag, style with
  | None, Plain =>
      if ambiguous (schema o) text then warn o ImplicitTypeAmbiguity m else ret tt
  | _, _ => ret tt
  end.

(** Modelled from the spec: the constructor (§4.3) is not among the
    sources.
    [construct]: a collection is allocated and its anchor registered
    before its children are built, and filled afterwards; an alias is the
    registered value itself. *)
Fixpoint construct (o : LoadOptions) (n : Node) : M Val :=
  match n with
  | Scalar tag anchor text style m =>
      check_ambiguity o tag text style m >>m
      match construct_scalar (schema o) tag text style with
      | inl f => fail o f m
      | inr p => register anchor (VPrim p) >>m ret (VPrim p)
      end
  | Sequence tag anchor items m =>
      check_tag o KSequence tag m >>m
      r ←m alloc (OSeq []) ;
      register anchor (VRef r) >>m
      vs ←m construct_items (construct o) items ;
      fill r (OSeq vs) >>m
      ret (VRef r)
  | Mapping tag anchor pairs m =>
      check_tag o KMapping tag m >>m
      r ←m alloc (OMap []) ;
      register anchor (VRef r) >>m
      es ←m construct_pairs o (construct o) pairs [] ;
      fill r (OMap es) >>m
      ret (VRef r)
  | Alias a m =>
      λ st, match anchors st !! a with
            | Some v => Done v st
            | None => fail o (AliasNotFoundError a) m st
            end
  end.

(** Reading and writing an object through a reference to it, as the
    caller of [load] does with a value it was handed. *)
Definition deref (sto : list Obj) (v : Val) : option Obj :=
  match v with VRef r => sto !! r | VPrim _ => None end.

Definition assign (v : Val) (ob : Obj) (sto : list Obj) : list Obj :=
  match v with VRef r => <[r := ob]> sto | VPrim _ => sto end.

(** *** load and loadAll (spec §6) *)

Definition initial : LoadState :=
  {| store := []; anchors := ∅; delivered := [] |}.

(** One document: scanned, parsed and constructed with an anchor table of
    its own. *)
Definition load_document (o : LoadOptions) (doc : list (nat * string)) : M Val :=
  toks ←m lift o (scan doc) ;
  n ←m lift o (parse (maxDepth o) toks) ;
  reset_anchors >>m
  construct o n.

(** Modelled from the spec: [load] of §6 is not among the sources.  The
    first document only; a text without a document gives null. *)
Definition load (o : LoadOptions) (text : string) : Outcome Val :=
  match documents text with
  | [] => Done (VPrim PNull) initial
  | doc :: _ => load_document o doc initial
  end.

(** Modelled from the spec: [loadAll] of §6 is not among the sources.
    The documents one after the other; [calls] records the
    calls of the per-document callback, each with the index of its
    document. *)
Fixpoint loadAll_from (o : LoadOptions) (i : nat) (docs : list (list (nat * string)))
    (calls : list (nat * Val)) (st : LoadState) : list (nat * Val) * Outcome unit :=
  match docs with
  | [] => (calls, Done tt st)
  | doc :: rest =>
      match load_document o doc st with
      | Done v st' => loadAll_from o (S i) rest (calls ++ [(i, v)]) st'
      | Raised t st' => (calls, Raised t st')
      end
  end.

Definition loadAll (o : LoadOptions) (text : string)
  : list (nat * Val) * Outcome unit :=
  loadAll_from o 0 (documents text) [] initial.

(** *** Dumper (spec §4.4) *)

Inductive SortKeys :=
| SortNone
| SortLexicographic
| SortCustom (compare : string → string → Z).

Record DumpOptions := {
  indent : nat;
  sortKeys : SortKeys;
  dumpSchema : Schema;
  dumpMaxDepth : nat;
  skipInvalid : bool
}.

(** Modelled from the spec: the key ordering of §4.4.
    [Array.prototype.sort] with a comparator, as a stable insertion sort:
    an entry moves behind those the comparator puts strictly before it. *)
Fixpoint insert_by {X} (compare : string → string → Z) (e : string * X)
    (l : list (string * X)) : list (string * X) :=
  match l with
  | [] => [e]
  | e' :: l' =>
      if (0 <? compare (fst e) (fst e'))%Z then e' :: insert_by compare e l'
      else e :: l
  end.

Definition sort_by {X} (compare : string → string → Z) (l : list (string * X))
  : list (string * X) :=
  foldr (insert_by compare) [] l.

(** The default comparison of strings. *)
Definition lexicographic (a b : string) : Z :=
  match String.compare a b with Lt => (-1)%Z | Eq => 0%Z | Gt => 1%Z end.

Definition ordered {X} (k : SortKeys) (l : list (string * X)) : list (string * X) :=
  match k with
  | SortNone => l
  | SortLexicographic => sort_by lexicographic l
  | SortCustom compare => sort_by compare l
  end.

Definition plain_char (c : ascii) : bool :=
  is_letter c || is_digit c || Ascii.eqb c "_" || Ascii.eqb c "-".

(** Texts with no character that an indicator could be taken for. *)
Definition plain_safe (text : string) : bool :=
  match text with
  | EmptyString => false
  | String c r =>
      (if Ascii.eqb c "-"
       then match r with String d _ => is_digit d | EmptyString => false end
       else plain_char c)
      && all_chars plain_char r
  end.

(** The scalar quoting rule: plain only when scanning the text again
    resolves to the same type. *)
Definition plain_legal (s : Schema) (ty : TypeDescriptor) (text : string) : bool :=
  plain_safe text
  && String.eqb (td_tag ty)
       (match implicit_type s text with Some ty' => td_tag ty' | None => str_tag end)
  && negb (ambiguous s text).

Definition quoted_style (text : string) : Style :=
  if all_chars is_printable text then SingleQuoted else DoubleQuoted.

Definition choose_style (s : Schema) (ty : TypeDescriptor) (text : string)
    (preferred : Style) : Style :=
  match preferred with
  | Plain => if plain_legal s ty text then Plain else quoted_style text
  | _ => quoted_style text
  end.

(** The first type, in schema order, whose predicate holds of the value,
    and the text and style it is written with. *)
Definition render_scalar (s : Schema) (p : Prim) : option (string * Style) :=
  match find (λ t, kind_eqb (td_kind t) KScalar && td_predicate t p) (types s) with
  | Some ty =>
      let text := fst (td_represent ty p) in
      Some (text, choose_style s ty text (snd (td_represent ty p)))
  | None => None
  end.

Inductive Rendered := Inline (t : Tok) | Block (ls : list Line).

Definition entry_lines (n : nat) (h : Head) (r : Rendered) : list Line :=
  match r with
  | Inline t => [Build_Line n h None None (Some t)]
  | Block ls => Build_Line n h None None None :: ls
  end.

Definition unrepresentable {A} (o : DumpOptions) (skipped : A) : Result A :=
  if skipInvalid o then Ok skipped else Err UnrepresentableValueError no_mark.

(** Modelled from the spec: the dumper (§4.4) is not among the sources.
    A value at indentation [n] with depth [d] left: a scalar or an empty
    collection goes on the line of its entry, a collection with entries
    on lines of its own. [None] is a value that is skipped. *)
Fixpoint render (o : DumpOptions) (d n : nat) (v : Data) {struct v}
  : Result (option Rendered) :=
  match v with
  | DPrim p =>
      match render_scalar (dumpSchema o) p with
      | Some (text, style) => Ok (Some (Inline (TScalar text style)))
      | None => unrepresentable o None
      end
  | DSeq items =>
      match d with
      | 0 => Err DepthExceededError no_mark
      | S d' =>
          match items with
          | [] => Ok (Some (Inline TEmptySeq))
          | _ =>
              rs ←r rmap (render o d' (n + indent o)) items;
              Ok (Some (Block (concat (map (λ r, match r with
                                                 | Some r => entry_lines n HDash r
                                                 | None => []
                                                 end) rs))))
          end
      end
  | DMap entries =>
      match d with
      | 0 => Err DepthExceededError no_mark
      | S d' =>
          match entries with
          | [] => Ok (Some (Inline TEmptyMap))
          | _ =>
              rs ←r rmap (λ kv, r ←r render o d' (n + indent o) (snd kv);
                                Ok (fst kv, r)) entries;
              ls ←r rmap (λ kr, match snd kr with
                                | None => Ok []
                                | Some r =>
                                    match render_scalar (dumpSchema o) (PStr (fst kr)) with
                                    | Some (text, style) =>
                                        Ok (entry_lines n (HKey text style) r)
                                    | None => unrepresentable o []
                                    end
                                end) (ordered (sortKeys o) rs);
              Ok (Some (Block (concat ls)))
          end
      end
  end.

Definition print_scalar (text : string) (style : Style) : string :=
  match style with
  | Plain => text
  | SingleQuoted => String SQ (escape_single text +:+ String SQ EmptyString)
  | _ => String DQ (escape_double text +:+ String DQ EmptyString)
  end.

Definition print_tok (t : Tok) : string :=
  match t with
  | TScalar text style => print_scalar text style
  | TAlias a => String "*" a
  | TEmptySeq => "[]"
  | TEmptyMap => "{}"
  end.

(** The text of a line of the dumper, which writes no anchor and no
    tag. *)
Definition print_line (l : Line) : string :=
  spaces (lindent l) +:+
  match lhead l, lvalue l with
  | HNone, None => EmptyString
  | HNone, Some t => print_tok t
  | HDash, None => "-"
  | HDash, Some t => "- " +:+ print_tok t
  | HKey k style, None => print_scalar k style +:+ ":"
  | HKey k style, Some t => print_scalar k style +:+ ": " +:+ print_tok t
  end.

Definition dump_lines (o : DumpOptions) (v : Data) : Result (list Line) :=
  r ←r render o (dumpMaxDepth o) 0 v;
  Ok match r with
     | Some (Inline t) => [Build_Line 0 HNone None None (Some t)]
     | Some (Block ls) => ls
     | None => []
     end.

(** Modelled from the spec: [dump] of §6, the lines of the value, each
    ended by a line feed. *)
Definition dump (o : DumpOptions) (v : Data) : Result string :=
  ls ←r dump_lines o v; Ok (unlines (map print_line ls)).

(** The options of a call without options; the depth is the configured
    maximum. *)
Definition default_load (depth : nat) : LoadOptions :=
  {| filename := EmptyString; schema := default_schema; onWarning := None;
     fatalDuplicateKeys := false; maxDepth := depth |}.

Definition default_dump (depth : nat) : DumpOptions :=
  {| indent := 2; sortKeys := SortNone; dumpSchema := default_schema;
     dumpMaxDepth := depth; skipInvalid := false |}.

(** *** Values and documents used in the statements *)

(** The mapping [{ b: 1, a: 2, c: 3 }] of units/sort-keys.js, its keys
    in insertion order. *)
Definition sample : Data :=
  DMap [("b", DPrim (PNum 1)); ("a", DPrim (PNum 2)); ("c", DPrim (PNum 3))].

(** [a < b] on strings. *)
Definition js_lt (a b : string) : bool :=
  match String.compare a b with Lt => true | _ => false end.

(** [function (a, b) { return a < b ? 1 : a > b ? -1 : 0; }] *)
Definition reverse_comparator (a b : string) : Z :=
  if js_lt a b then 1%Z else if js_lt b a then (-1)%Z else 0%Z.

Definition with_sortKeys (k : SortKeys) : DumpOptions :=
  {| indent := 2; sortKeys := k; dumpSchema := default_schema;
     dumpMaxDepth := 100; skipInvalid := false |}.

(** Modelled from the spec: the fixture issues/0026.yml is not among the
    sources.  It is taken to be the smallest document that §8 describes:
    the key [test] with a folded scalar of the three lines a, b and c. *)
Definition fixture_0026 : string := unlines ["test: >"; " a"; " b"; " c"].

(** A document nested three deep. *)
Definition deep_text : string := unlines ["a:"; "  b:"; "    c: 1"].

(** Sequences nested [S k] deep. *)
Fixpoint nest (k : nat) : Data :=
  match k with
  | 0 => DSeq []
  | S k' => DSeq [nest k']
  end.

(** A document with an anchor on a mapping, an alias to it, and a
    mapping that holds an alias to itself. *)
Definition shared_text : string :=
  unlines ["base: &a"; "  k: v"; "copy: *a"; "self: &s"; "  me: *s"].

(** A document with a key given twice, and one with a truth word of the
    older format. *)
Definition duplicate_text : string := unlines ["a: 1"; "a: 2"].
Definition ambiguous_text : string := unlines ["x: yes"].

(** The hook of 11-load-errors.js, [function (e) { throw e; }], and a
    hook that returns. *)
Definition rethrow (e : FormatException) : option Thrown := Some (Yaml e).
Definition tolerate (e : FormatException) : option Thrown := None.

Definition lenient_load (hook : FormatException → option Thrown) : LoadOptions :=
  {| filename := "sample.yml"; schema := default_schema; onWarning := Some hook;
     fatalDuplicateKeys := false; maxDepth := 100 |}.

(** *** Notions used in the proofs *)

(** The guard at depth [D] against a parse with more depth: the same
    node when it is no deeper than [D], the fault otherwise. *)
Definition guarded (D : nat) (big small : Result Node) : Prop :=
  ∀ n, big = Ok n →
    (node_depth n ≤ D → small = Ok n)
    ∧ (D < node_depth n → ∃ m, small = Err DepthExceededError m).

(** The anchors a node defines, in its whole subtree. *)
Fixpoint anchors_of (n : Node) : list string :=
  match n with
  | Scalar _ anchor _ _ _ => option_list anchor
  | Sequence _ anchor items _ => option_list anchor ++ flat_map anchors_of items
  | Mapping _ anchor pairs _ =>
      option_list anchor
      ++ flat_map (λ kv, anchors_of (fst kv) ++ anchors_of (snd kv)) pairs
  | Alias _ _ => []
  end.

(** The recoverable anomalies of §7. *)
Definition anomaly (f : Fault) : Prop :=
  f = ConstructError DuplicateKey ∨ f = ConstructError ImplicitTypeAmbiguity.

(** A state property that holds when a step returns, and a property of
    what it raises otherwise. *)
Definition post {A} (I : LoadState → Prop) (E : Thrown → LoadState → Prop)
    (out : Outcome A) : Prop :=
  match out with Done _ st => I st | Raised t st => E t st end.

(** What a construction leaves alone: the objects that were there and the
    anchor [a]. *)
Definition kept (sto : list Obj) (a : string) (x : option Val) (st : LoadState) : Prop :=
  length sto ≤ length (store st)
  ∧ take (length sto) (store st) = sto
  ∧ anchors st !! a = x.

Definition parser_fault (f : Fault) : Prop :=
  f = DepthExceededError ∨ ∃ k, f = ParserError k.

(** Every warning handed to the hook was an anomaly and the hook
    returned. *)
Definition answered (hook : FormatException → option Thrown) (st : LoadState) : Prop :=
  Forall (λ w, anomaly (fault w) ∧ hook w = None) (delivered st).

(** Why a load ended: a fault that is no anomaly, or the hook raised on
    the last warning it was handed. *)
Definition raised_by (o : LoadOptions) (hook : FormatException → option Thrown)
    (t : Thrown) (st : LoadState) : Prop :=
  (∃ f m, t = Yaml (exception (filename o) f m) ∧ ¬ anomaly f ∧ answered hook st)
  ∨ (∃ ws w, delivered st = ws ++ [w]
             ∧ Forall (λ w, anomaly (fault w) ∧ hook w = None) ws
             ∧ anomaly (fault w) ∧ hook w = Some t).

(** The scalars, values and lines the dumper writes. *)
Definition wf_scalar (text : string) (style : Style) : Prop :=
  match style with
  | Plain => plain_safe text = true
  | SingleQuoted => all_chars is_printable text = true
  | DoubleQuoted => True
  | _ => False
  end.

Definition wf_tok (t : Tok) : Prop :=
  match t with
  | TScalar text style => wf_scalar text style
  | TAlias _ => False
  | TEmptySeq | TEmptyMap => True
  end.

Definition wf_line (l : Line) : Prop :=
  lanchor l = None ∧ ltag l = None
  ∧ match lhead l with HKey k style => wf_scalar k style | _ => True end
  ∧ match lvalue l with Some t => wf_tok t | None => lhead l ≠ HNone end.

Definition no_value : Value := Build_Value None None None None.
Definition just (t : Tok) : Value := Build_Value None None (Some t) None.

(** What follows the indicator of a line of the dumper. *)
Definition vpart (v : option Tok) : string :=
  match v with None => EmptyString | Some t => String SP (print_tok t) end.

Definition no_lf (s : string) : bool := all_chars (λ c, negb (Ascii.eqb c LF)) s.

(** A node that stands for a value: no tag, no anchor, no alias, and
    scalars that the default schema constructs to the scalars of the
    value. *)
Inductive denotes : Data → Node → Prop :=
| denotes_prim p text style m :
    construct_scalar default_schema None text style = inr p →
    (style = Plain → ambiguous default_schema text = false) →
    denotes (DPrim p) (Scalar None None text style m)
| denotes_seq items ns m :
    Forall2 denotes items ns →
    denotes (DSeq items) (Sequence None None ns m)
| denotes_map entries ps m :
    Forall2 (λ e p, denotes (DPrim (PStr (fst e))) (fst p) ∧ denotes (snd e) (snd p))
      entries ps →
    denotes (DMap entries) (Mapping None None ps m).

(** What is known of a rendered value: its lines are scanned back, lie at
    or right of its indentation, and are parsed back to a node that
    stands for it. *)
Definition rendered_ok (d n : nat) (v : Data) (r : Rendered) : Prop :=
  match r with
  | Inline t =>
      wf_tok t
      ∧ ∀ m, ∃ node, tok_node d None None m t = Ok node ∧ denotes v node
  | Block ls =>
      ls ≠ []
      ∧ Forall (λ l, wf_line l ∧ n ≤ lindent l) ls
      ∧ ∀ mls pm, map snd mls = ls →
          ∃ node, parse_block d None None pm mls = Ok node ∧ denotes v node
  end.

Definition with_store (st : LoadState) (sto : list Obj) : LoadState :=
  {| store := sto; anchors := anchors st; delivered := delivered st |}.

Definition same_on (lo hi : nat) (T U : list Obj) : Prop :=
  ∀ i, lo ≤ i < hi → T !! i = U !! i.

(** A constructed value that reads as [v] in every store that holds the
    objects made for it. *)
Definition reads_as (base : nat) (sto : list Obj) (x : Val) (v : Data) : Prop :=
  ∀ T f, data_depth v ≤ f → same_on base (length sto) T sto → reify f T x = Some v.

(** A node that is constructed, from any state, to a value that reads as
    [v], with objects appended to the store and nothing else changed. *)
Definition constructs (o : LoadOptions) (v : Data) (node : Node) : Prop :=
  ∀ st, ∃ objs x,
    construct o node st = Done x (with_store st (store st ++ objs))
    ∧ reads_as (length (store st)) (store st ++ objs) x v.

End Yaml.

(* ===================================================================== *)
(** ** fs/walk.ts                                                          *)
(* ===================================================================== *)

Module Walk.

(** What [isFile()] and [isSymlink()] of a [Deno.FileInfo] answer; an
    entry that is neither is walked into as a directory. *)
Inductive FileKind := IsFile | IsDirectory | IsSymlink.

Record FileInfo := { path : string; kind : FileKind }.

Definition isFile (f : FileInfo) : bool :=
  match kind f with IsFile => true | _ => false end.
Definition isSymlink (f : FileInfo) : bool :=
  match kind f with IsSymlink => true | _ => false end.

(** The field [maxDepth]: absent, an integer, or the [NaN] that
    [undefined - 1] is. *)
Inductive JsNumber := Undefined | NaN | Int (z : Z).

(** [n - 1]. *)
Definition minus_one (n : JsNumber) : JsNumber :=
  match n with Int z => Int (z - 1) | _ => NaN end.

(** [n < 0]: false on [NaN]. *)
Definition lt_zero (n : JsNumber) : bool :=
  match n with Int z => (z <? 0)%Z | _ => false end.

(** A call that returns or throws. *)
Inductive Try (E A : Type) : Type := Returns (a : A) | Throws (e : E).
Arguments Returns {E A} _.
Arguments Throws {E A} _.

(** [s.endsWith(suffix)]. *)
Definition endsWith (s suffix : string) : bool :=
  (String.length suffix <=? String.length s)%nat
  && String.eqb (String.substring (String.length s - String.length suffix)
                   (String.length suffix) s) suffix.

Section WithFileSystem.

(** Patterns are [RegExp] objects of the caller; [pattern.test(path)] is
    taken without the state a global or sticky pattern keeps between
    calls.  [Err] is what the calls of [Deno] throw. *)
Variable RegExp : Type.
Variable test : RegExp → string → bool.
Variable Err : Type.

(** The file system: [Deno.readDirSync], [Deno.readlinkSync] and
    [Deno.statSync]. *)
Variable readDirSync : string → Try Err (list FileInfo).
Variable readlinkSync : string → Try Err string.
Variable statSync : string → Try Err FileInfo.

(** [WalkOptions]; [onError] returns ([None]) or throws. *)
Record WalkOptions := {
  maxDepth : JsNumber;
  exts : option (list string);
  match_ : option (list RegExp);
  skip : option (list RegExp);
  onError : option (Err → option Err);
  followSymlinks : bool
}.

(** [options = {}]. *)
Definition no_options : WalkOptions :=
  {| maxDepth := Undefined; exts := None; match_ := None; skip := None;
     onError := None; followSymlinks := false |}.

Definition set_maxDepth (o : WalkOptions) (n : JsNumber) : WalkOptions :=
  {| maxDepth := n; exts := exts o; match_ := match_ o; skip := skip o;
     onError := onError o; followSymlinks := followSymlinks o |}.

(** [include(f, options)], lines 94-105. *)
Definition include (f : FileInfo) (options : WalkOptions) : bool :=
  if match exts options with
     | Some es => negb (existsb (λ ext, endsWith (path f) ext) es)
     | None => false
     end then false
  else if match match_ options with
          | Some ps => negb (existsb (λ pattern, test pattern (path f)) ps)
          | None => false
          end then false
  else if match skip options with
          | Some ps => existsb (λ pattern, test pattern (path f)) ps
          | None => false
          end then false
  else true.

(** [resolveSync(f)], lines 117-125: what the link points to, under the
    path the link holds. *)
Definition resolveSync (f : FileInfo) : Try Err FileInfo :=
  match readlinkSync (path f) with
  | Throws e => Throws e
  | Returns fpath =>
      match statSync fpath with
      | Throws e => Throws e
      | Returns f' => Returns {| path := fpath; kind := kind f' |}
      end
  end.

(** A run of the generator: the options object, which every call of
    [walkSync] shares and writes to, the entries yielded, the directories
    [readDirSync] was called on and the errors handed to [onError], each
    in the order of the run. *)
Record Run := {
  options : WalkOptions;
  yielded : list FileInfo;
  visited : list string;
  reported : list Err
}.

Definition start (o : WalkOptions) : Run :=
  {| options := o; yielded := []; visited := []; reported := [] |}.

Inductive Outcome :=
| Finished (r : Run)
| Threw (e : Err) (r : Run)
| OutOfFuel.

(** [options.maxDepth -= 1]. *)
Definition decrement (r : Run) : Run :=
  {| options := set_maxDepth (options r) (minus_one (maxDepth (options r)));
     yielded := yielded r; visited := visited r; reported := reported r |}.

Definition visit (dir : string) (r : Run) : Run :=
  {| options := options r; yielded := yielded r; visited := visited r ++ [dir];
     reported := reported r |}.

Definition yield (f : FileInfo) (r : Run) : Run :=
  {| options := options r; yielded := yielded r ++ [f]; visited := visited r;
     reported := reported r |}.

Definition report (e : Err) (r : Run) : Run :=
  {| options := options r; yielded := yielded r; visited := visited r;
     reported := reported r ++ [e] |}.

(** [for (let f of ls) { ... }], lines 74-91; [walk] is the call
    [walkSync(f.path, options)] on a directory. *)
Fixpoint each (walk : string → Run → Outcome) (ls : list FileInfo) (r : Run)
  : Outcome :=
  match ls with
  | [] => Finished r
  | f :: rest =>
      match (if isSymlink f
             then if followSymlinks (options r)
                  then match resolveSync f with
                       | Returns f' => Returns (Some f')
                       | Throws e => Throws e
                       end
                  else Returns None
             else Returns (Some f)) with
      | Throws e => Threw e r
      | Returns None => each walk rest r
      | Returns (Some f) =>
          if isFile f then
            if include f (options r) then each walk rest (yield f r)
            else each walk rest r
          else if negb (lt_zero (maxDepth (options r))) then
            match walk (path f) r with
            | Finished r' => each walk rest r'
            | other => other
            end
          else each walk rest r
      end
  end.

(** [walkSync(dir, options)], lines 61-92.  The generator is run to its
    end by a consumer that leaves the options alone; the fuel bounds the
    nesting of the calls. *)
Fixpoint walkSync (fuel : nat) (dir : string) (r : Run) : Outcome :=
  match fuel with
  | 0 => OutOfFuel
  | S fuel' =>
      let r := visit dir (decrement r) in
      match readDirSync dir with
      | Returns ls => each (walkSync fuel') ls r
      | Throws err =>
          match onError (options r) with
          | Some hook =>
              match hook err with
              | None => each (walkSync fuel') [] (report err r)
              | Some e => Threw e (report err r)
              end
          | None => each (walkSync fuel') [] r
          end
      end
  end.

End WithFileSystem.

Arguments maxDepth {RegExp Err} _.
Arguments exts {RegExp Err} _.
Arguments match_ {RegExp Err} _.
Arguments skip {RegExp Err} _.
Arguments onError {RegExp Err} _.
Arguments followSymlinks {RegExp Err} _.
Arguments no_options {RegExp Err}.
Arguments set_maxDepth {RegExp Err} _ _.
Arguments options {RegExp Err} _.
Arguments yielded {RegExp Err} _.
Arguments visited {RegExp Err} _.
Arguments reported {RegExp Err} _.
Arguments start {RegExp Err} _.
Arguments Finished {RegExp Err} _.
Arguments Threw {RegExp Err} _ _.
Arguments OutOfFuel {RegExp Err}.
Arguments decrement {RegExp Err} _.
Arguments visit {RegExp Err} _ _.
Arguments yield {RegExp Err} _ _.
Arguments report {RegExp Err} _ _.
Arguments include {RegExp} _ {Err} _ _.
Arguments resolveSync {Err} _ _ _.
Arguments each {RegExp} _ {Err} _ _ _ _ _.
Arguments walkSync {RegExp} _ {Err} _ _ _ _ _ _.

(** *** Notions used in the proofs *)

(** [n] after [k] calls of [walkSync]. *)
Definition lowered (k : nat) (n : JsNumber) : JsNumber := Nat.iter k minus_one n.

(** The run a call ended with, returned or thrown out of. *)
Definition final {RegExp Err} (out : Outcome RegExp Err) : option (Run RegExp Err) :=
  match out with
  | Finished r | Threw _ r => Some r
  | OutOfFuel => None
  end.

(** A call that ended by throwing. *)
Definition threw {RegExp Err} (out : Outcome RegExp Err) : bool :=
  match out with Threw _ _ => true | _ => false end.

(** What a part of a run adds: entries yielded, directories read and
    errors reported; [maxDepth] is lowered once per directory read and
    nothing else of the options is written. *)
Definition grows {RegExp Err} (r r' : Run RegExp Err)
    (ys : list FileInfo) (vs : list string) (es : list Err) : Prop :=
  yielded r' = yielded r ++ ys
  ∧ visited r' = visited r ++ vs
  ∧ reported r' = reported r ++ es
  ∧ options r'
    = set_maxDepth (options r)
        (lowered (length vs) (maxDepth (options r))).

(** The errors [readDirSync] throws on the directories [dirs]. *)
Definition failures {Err} (readDirSync : string → Try Err (list FileInfo))
    (dirs : list string) : list Err :=
  omap (λ d, match readDirSync d with Throws e => Some e | Returns _ => None end) dirs.

End Walk.

(* ===================================================================== *)
(** ** testing/runner.ts                                                   *)
(* ===================================================================== *)

Module Runner.

(** [/^https?:\/\//.test(url)], lines 48-50. *)
Definition isRemoteUrl (url : string) : bool :=
  String.prefix "http://" url || String.prefix "https://" url.

(** [partition(arr, callback)], lines 52-63: an element is pushed to the
    array at index 1 when the callback holds of it and to the one at
    index 0 otherwise. *)
Definition partition (arr : list string) (callback : string → bool)
  : list string * list string :=
  foldl (λ (paritioned : list string * list string) el,
           if callback el then (fst paritioned, snd paritioned ++ [el])
           else (fst paritioned ++ [el], snd paritioned))
        ([], []) arr.

(** [array.map(f)] with an [f] that may throw: the first error ends it. *)
Fixpoint map_try {E A B} (f : A → E + B) (l : list A) : E + list B :=
  match l with
  | [] => inr []
  | a :: l' =>
      match f a with
      | inl e => inl e
      | inr b => match map_try f l' with
                 | inl e => inl e
                 | inr bs => inr (b :: bs)
                 end
      end
  end.

Section WithModules.

(** Not in the sources: [glob] and [isGlob] of fs/mod.ts, so that
    [filePathToRegExp] is a parameter, the [walk] this version of the
    runner imports, taken by the file names it yields under the root for
    the patterns to match and to skip, and the [RegExp] of the platform.
    A call returns ([inr]) or throws ([inl]). *)
Variable RegExp : Type.
Variable Err : Type.
Variable filePathToRegExp : string → Err + RegExp.
Variable newRegExp : string → Err + RegExp.
Variable test : RegExp → string → bool.
Variable walk : list RegExp → list RegExp → Err + list string.

(** [getMatchingUrls(matchPaths, excludePaths, root)], lines 70-102. *)
Definition getMatchingUrls (matchPaths excludePaths : list string)
  : Err + list string :=
  let '(includeLocal, includeRemote) := partition matchPaths isRemoteUrl in
  let '(excludeLocal, excludeRemote) := partition excludePaths isRemoteUrl in
  match map_try filePathToRegExp includeLocal with
  | inl e => inl e
  | inr match_ =>
  match map_try filePathToRegExp excludeLocal with
  | inl e => inl e
  | inr skip =>
  match walk match_ skip with
  | inl e => inl e
  | inr localFileIterator =>
  let matchingLocalUrls := map (λ filename, "file://" +:+ filename) localFileIterator in
  match map_try newRegExp excludeRemote with
  | inl e => inl e
  | inr excludeRemotePatterns =>
  let matchingRemoteUrls :=
    List.filter (λ candidateUrl,
                   negb (existsb (λ pattern, test pattern candidateUrl)
                           excludeRemotePatterns))
                includeRemote in
  inr (matchingLocalUrls ++ matchingRemoteUrls)
  end end end end.

(** The options of [runTests] of testing/mod.ts; [only] and [skip] are
    patterns. *)
Record RunOptions := {
  parallel : bool;
  exitOnFail : bool;
  only : RegExp;
  skip : RegExp;
  disableLog : bool
}.

(** [RunTestModulesOptions]: every field may be left out. *)
Record RunTestModulesOptions := {
  opt_exclude : option (list string);
  opt_allowNone : option bool;
  opt_parallel : option bool;
  opt_exitOnFail : option bool;
  opt_only : option RegExp;
  opt_skip : option RegExp;
  opt_disableLog : option bool
}.

(** The patterns [/[^\s]/] and [/^\s*$/] of the defaults. *)
Variable default_only default_skip : RegExp.

(** [import(url)] and [runTests(options)]: they return ([None]) or
    throw. *)
Variable import : string → option Err.
Variable runTests : RunOptions → option Err.

(** What [runTestModules] does that can be seen. *)
Inductive Event :=
| ConsoleLog (msg : string)
| Imported (url : string)
| RunTests (o : RunOptions).

(** [new DenoError(ErrorKind.NotFound, msg)], or what a call threw. *)
Inductive Thrown := NotFound (msg : string) | Other (e : Err).

Definition noneFoundMessage : string := "No matching test modules found.".

Definition print_length (n : nat) : string := NilZero.string_of_uint (Nat.to_uint n).

(** [for (const url of testModuleUrls) { await import(url); }]. *)
Fixpoint import_all (urls : list string) : list Event * option Err :=
  match urls with
  | [] => ([], None)
  | url :: rest =>
      match import url with
      | Some e => ([Imported url], Some e)
      | None => let '(evs, r) := import_all rest in (Imported url :: evs, r)
      end
  end.

(** [runTestModules(include, options)], lines 134-173. *)
Definition runTestModules (include : list string) (o : RunTestModulesOptions)
  : list Event * option Thrown :=
  let exclude := default [] (opt_exclude o) in
  let allowNone := default false (opt_allowNone o) in
  let disableLog := default false (opt_disableLog o) in
  match getMatchingUrls include exclude with
  | inl e => ([], Some (Other e))
  | inr testModuleUrls =>
      if (length testModuleUrls =? 0)%nat then
        if negb allowNone then ([], Some (NotFound noneFoundMessage))
        else if negb disableLog then ([ConsoleLog noneFoundMessage], None)
        else ([], None)
      else
        let logged :=
          if negb disableLog
          then [ConsoleLog ("Found " +:+ print_length (length testModuleUrls)
                            +:+ " matching test modules.")]
          else [] in
        let '(imported, failure) := import_all testModuleUrls in
        match failure with
        | Some e => (logged ++ imported, Some (Other e))
        | None =>
            let options :=
              {| parallel := default false (opt_parallel o);
                 exitOnFail := default false (opt_exitOnFail o);
                 only := default default_only (opt_only o);
                 skip := default default_skip (opt_skip o);
                 disableLog := disableLog |} in
            (logged ++ imported ++ [RunTests options],
             match runTests options with Some e => Some (Other e) | None => None end)
        end
  end.

End WithModules.

Arguments ConsoleLog {RegExp} _.
Arguments Imported {RegExp} _.
Arguments RunTests {RegExp} _.
Arguments NotFound {Err} _.
Arguments Other {Err} _.

(** *** Notions used in the proofs *)

(** The modules imported in a list of events, in order. *)
Definition imports {RegExp} (evs : list (Event RegExp)) : list string :=
  omap (λ ev, match ev with Imported url => Some url | _ => None end) evs.

(** The calls of [runTests] in a list of events. *)
Definition test_runs {RegExp} (evs : list (Event RegExp)) : list (RunOptions RegExp) :=
  omap (λ ev, match ev with RunTests o => Some o | _ => None end) evs.

End Runner.


(* ===================================================================== *)
(** ** log/mod.ts                                                          *)
(* ===================================================================== *)

Module Log.

(** An object used as a record of named entries, or a [Map] with string
    keys: the entries in the order the keys were first set, which is the
    order [for ... in] and [forEach] go through them (keys that read as
    array indices, which an object lists first, are left aside). *)
Definition Obj (V : Type) : Type := list (string * V).

(** [o[key]], [map.get(key)]. *)
Fixpoint obj_get {V} (key : string) (o : Obj V) : option V :=
  match o with
  | [] => None
  | (k, v) :: o' => if String.eqb k key then Some v else obj_get key o'
  end.

(** [o[key] = v], [map.set(key, v)]: a key that is there keeps its
    place. *)
Fixpoint obj_set {V} (key : string) (v : V) (o : Obj V) : Obj V :=
  match o with
  | [] => [(key, v)]
  | (k, w) :: o' =>
      if String.eqb k key then (k, v) :: o' else (k, w) :: obj_set key v o'
  end.

(** [{ ...a, ...b }]; an absent [b] adds nothing. *)
Definition spread {V} (a : Obj V) (b : option (Obj V)) : Obj V :=
  foldl (λ acc kv, obj_set (fst kv) (snd kv) acc) a (default [] b).

(** [class LoggerConfig], lines 18-21; [handlerNames] is its field
    [handlers]. *)
Record LoggerConfig := {
  level : option string;
  handlerNames : option (list string)
}.

Definition DEFAULT_LEVEL : string := "INFO".

Section WithHandlers.

(** Not in the sources: handlers.ts and logger.ts.  A handler is an
    object of a type of its own; [handler.setup()] returns ([None]) or
    throws, [handler.destroy()] is taken to return.  A [Logger] is taken
    by what its constructor is given. *)
Variable BaseHandler : Type.
Variable Err : Type.
Variable handler_setup : BaseHandler → option Err.
(** [new ConsoleHandler(DEFAULT_LEVEL)] of the default configuration. *)
Variable consoleHandler : BaseHandler.

(** [interface LogConfig], lines 23-36. *)
Record LogConfig := {
  handlers : option (Obj BaseHandler);
  loggers : option (Obj LoggerConfig);
  fallbackLogger : option LoggerConfig
}.

(** [new Logger(loggerName, levelName, { handlers })]. *)
Record Logger := {
  loggerName : string;
  levelName : string;
  loggerHandlers : list BaseHandler
}.

Definition DEFAULT_CONFIG : LogConfig :=
  {| handlers := Some [("default", consoleHandler)];
     loggers := Some [("default", {| level := Some DEFAULT_LEVEL;
                                     handlerNames := Some ["default"] |})];
     fallbackLogger := None |}.

(** [const state], lines 52-56. *)
Record State := {
  state_handlers : Obj BaseHandler;
  state_loggers : Obj Logger;
  state_config : LogConfig
}.

Definition initial_state : State :=
  {| state_handlers := []; state_loggers := []; state_config := DEFAULT_CONFIG |}.

(** [getHandlersByName(handlerNames)], lines 215-226. *)
Definition getHandlersByName (st : State) (names : option (list string))
  : list BaseHandler :=
  omap (λ handlerName, obj_get handlerName (state_handlers st)) (default [] names).

(** The message of the assertion of line 72. *)
Definition no_default_logger : string :=
  String (ascii_of_nat 34) "default"
  +:+ String (ascii_of_nat 34) " logger must be set for getting logger without name".

(** [getLogger(name)], lines 67-88: the logger, or the message of the
    failed assertion, and the state afterwards. *)
Definition getLogger (name : option string) (st : State) : (string + Logger) * State :=
  match name with
  | None | Some EmptyString =>
      match obj_get "default" (state_loggers st) with
      | None => (inl no_default_logger, st)
      | Some d => (inr d, st)
      end
  | Some name =>
      match obj_get name (state_loggers st) with
      | Some result => (inr result, st)
      | None =>
          let fallback := fallbackLogger (state_config st) in
          let handlers := getHandlersByName st (fallback ≫= handlerNames) in
          let logger :=
            {| loggerName := name;
               levelName := default "NOTSET" (fallback ≫= level);
               loggerHandlers := handlers |} in
          (inr logger,
           {| state_handlers := state_handlers st;
              state_loggers := obj_set name logger (state_loggers st);
              state_config := state_config st |})
      end
  end.

(** What [setup] does to the handlers. *)
Inductive Event := Destroy (h : BaseHandler) | Setup (h : BaseHandler).

(** [for (const handlerName in handlers) { await handler.setup();
    state.handlers.set(handlerName, handler); }], lines 195-199. *)
Fixpoint setup_handlers (entries : Obj BaseHandler) (registered : Obj BaseHandler)
  : list Event * option Err * Obj BaseHandler :=
  match entries with
  | [] => ([], None, registered)
  | (handlerName, handler) :: rest =>
      match handler_setup handler with
      | Some e => ([Setup handler], Some e, registered)
      | None =>
          let '(evs, r, registered') :=
            setup_handlers rest (obj_set handlerName handler registered) in
          (Setup handler :: evs, r, registered')
      end
  end.

(** [loggerConfig.level || DEFAULT_LEVEL]: the empty string is falsy. *)
Definition level_or_default (c : LoggerConfig) : string :=
  match level c with
  | None | Some EmptyString => DEFAULT_LEVEL
  | Some l => l
  end.

(** [for (const loggerName in loggers) { ... }], lines 206-212. *)
Definition setup_loggers (entries : Obj LoggerConfig) (st : State) : Obj Logger :=
  foldl (λ registered kv,
           let loggerName := fst kv in
           let loggerConfig := snd kv in
           let handlers := getHandlersByName st (handlerNames loggerConfig) in
           let levelName := level_or_default loggerConfig in
           obj_set loggerName
             {| loggerName := loggerName; levelName := levelName;
                loggerHandlers := handlers |} registered)
        [] entries.

(** [setup(config)], lines 176-213. *)
Definition setup (config : LogConfig) (st : State) : list Event * option Err * State :=
  let config' :=
    {| handlers := Some (spread (default [] (handlers DEFAULT_CONFIG)) (handlers config));
       loggers := Some (spread (default [] (loggers DEFAULT_CONFIG)) (loggers config));
       fallbackLogger :=
         Some {| handlerNames := fallbackLogger config ≫= handlerNames;
                 level := fallbackLogger config ≫= level |} |} in
  let destroyed := map (λ kv, Destroy (snd kv)) (state_handlers st) in
  let '(evs, failure, registered) :=
    setup_handlers (default [] (handlers config')) [] in
  match failure with
  | Some e =>
      (destroyed ++ evs, Some e,
       {| state_handlers := registered; state_loggers := state_loggers st;
          state_config := config' |})
  | None =>
      let st' := {| state_handlers := registered; state_loggers := [];
                    state_config := config' |} in
      (destroyed ++ evs, None,
       {| state_handlers := registered;
          state_loggers := setup_loggers (default [] (loggers config')) st';
          state_config := config' |})
  end.

End WithHandlers.

Arguments handlers {BaseHandler} _.
Arguments loggers {BaseHandler} _.
Arguments fallbackLogger {BaseHandler} _.
Arguments loggerName {BaseHandler} _.
Arguments levelName {BaseHandler} _.
Arguments loggerHandlers {BaseHandler} _.
Arguments state_handlers {BaseHandler} _.
Arguments state_loggers {BaseHandler} _.
Arguments state_config {BaseHandler} _.
Arguments Destroy {BaseHandler} _.
Arguments Setup {BaseHandler} _.
Arguments getHandlersByName {BaseHandler} _ _.
Arguments getLogger {BaseHandler} _ _.
Arguments setup {BaseHandler Err} _ _ _ _.
Arguments setup_handlers {BaseHandler Err} _ _ _.
Arguments setup_loggers {BaseHandler} _ _.
Arguments initial_state {BaseHandler} _.
Arguments DEFAULT_CONFIG {BaseHandler} _.

(** *** Notions used in the proofs *)

Definition keys {V} (o : Obj V) : list string := map fst o.

(** Every logger holds handlers that are registered. *)
Definition wired {BaseHandler} (st : State BaseHandler) : Prop :=
  ∀ name logger,
    obj_get name (state_loggers st) = Some logger →
    Forall (λ h, ∃ k, obj_get k (state_handlers st) = Some h) (loggerHandlers logger).

End Log.

(* ===================================================================== *)
(** ** math/sum.ts                                                         *)
(* ===================================================================== *)

Module MathSum.
Section WithBig.

(** Not in the sources: big/mod.ts.  [Big] is the class of its numbers,
    [Raw] the numbers and strings a [Big] is made of; [BigSource] is
    either. *)
Variable Big Raw : Type.
Definition BigSource : Type := (Raw + Big)%type.

(** [new Big(x)], [b.plus(x)], [b.toString()], and the number [0]. *)
Variable newBig : BigSource → Big.
Variable plus : Big → BigSource → Big.
Variable toString : Big → string.
Variable zero : Raw.
(** [(0).toString()], for the result that would not be a [Big]. *)
Variable raw_toString : Raw → string.

(** The callback of [reduce], lines 8-13. *)
Definition add (previousValue currentValue : BigSource) : BigSource :=
  inr (plus (match previousValue with
             | inr big => big
             | inl _ => newBig previousValue
             end) currentValue).

(** [sum(...values)], lines 3-17. *)
Definition sum (values : list BigSource) : string :=
  if (length values =? 0)%nat then "0"
  else match foldl add (inl zero) values with
       | inr result => toString result
       | inl raw => raw_toString raw
       end.

End WithBig.
End MathSum.


(* ===================================================================== *)
(** ** Small worlds to run the code in                                    *)
(* ===================================================================== *)

Module WalkSample.
Import Walk.

Definition file (p : string) : FileInfo := {| path := p; kind := IsFile |}.
Definition directory (p : string) : FileInfo := {| path := p; kind := IsDirectory |}.
Definition link (p : string) : FileInfo := {| path := p; kind := IsSymlink |}.

(** A directory with two files, a directory that cannot be read, a
    directory with a file and a directory in it, and a link to it. *)
Definition readDir (dir : string) : Try string (list FileInfo) :=
  if String.eqb dir "." then
    Returns [file "./a.ts"; directory "./gone"; directory "./sub"; link "./link";
             file "./b.js"]
  else if String.eqb dir "./sub" then
    Returns [file "./sub/c.ts"; directory "./sub/deep"]
  else if String.eqb dir "./sub/deep" then Returns [file "./sub/deep/d.ts"]
  else Throws "NotFound".

Definition readlink (p : string) : Try string string :=
  if String.eqb p "./link" then Returns "./sub" else Throws "InvalidData".

Definition stat (p : string) : Try string FileInfo :=
  if String.eqb p "./sub" then Returns (directory EmptyString) else Throws "NotFound".

(** A pattern is taken by the paths it matches. *)
Definition test (pattern : string → bool) (p : string) : bool := pattern p.

Definition options (depth : JsNumber) (match_ : option (list (string → bool)))
  : WalkOptions (string → bool) string :=
  {| maxDepth := depth; exts := Some [".ts"]; match_ := match_; skip := None;
     onError := Some (λ _, None); followSymlinks := false |}.

(** The run of [walkSync(".", o)] with fuel for three nested calls. *)
Definition run_of (o : WalkOptions (string → bool) string) : Run (string → bool) string :=
  match walkSync test readDir readlink stat 3 "." (start o) with
  | Finished r | Threw _ r => r
  | OutOfFuel => start o
  end.

End WalkSample.

Module RunnerSample.
Import Runner.

(** Patterns that match the paths they are a prefix of, and a root with
    one test file. *)
Definition test (pattern url : string) : bool := String.prefix pattern url.
Definition toRegExp (s : string) : string + string := inr s.
Definition walk (match_ skip : list string) : string + list string :=
  inr ["/root/a_test.ts"].
Definition matchPaths : list string :=
  ["a_test.ts"; "https://deno.land/x/b_test.ts"; "http://localhost/c_test.ts"].
Definition excludePaths : list string := ["http://localhost"; "vendor"].
Definition import (url : string) : option string := None.
Definition runTests (o : RunOptions string) : option string := None.
Definition modulesOptions : RunTestModulesOptions string :=
  {| opt_exclude := Some excludePaths; opt_allowNone := None; opt_parallel := None;
     opt_exitOnFail := Some true; opt_only := None; opt_skip := None;
     opt_disableLog := None |}.

End RunnerSample.

Module LogSample.
Import Log.

(** Handlers taken by a name of their own; the one called [broken]
    cannot be set up. *)
Definition handler_setup (h : string) : option string :=
  if String.eqb h "broken" then Some "cannot open the file" else None.

Definition config (handler : string) : LogConfig string :=
  {| handlers := Some [("file", handler)];
     loggers := Some [("app", {| level := Some "DEBUG";
                                 handlerNames := Some ["file"; "missing"] |})];
     fallbackLogger := None |}.

(** The state once the module is loaded: [await setup(DEFAULT_CONFIG)]. *)
Definition loaded : State string :=
  snd (setup handler_setup "console" (DEFAULT_CONFIG "console") (initial_state "console")).

(** A second [setup], with a handler that can be set up and with one that
    cannot. *)
Definition configured : list (Event string) * option string * State string :=
  setup handler_setup "console" (config "rotating") loaded.
Definition failed : list (Event string) * option string * State string :=
  setup handler_setup "console" (config "broken") loaded.

End LogSample.

Module SumSample.

(** Whole numbers for [Big], and for what a [Big] is made of. *)
Definition source (s : Z + Z) : Z := match s with inl z | inr z => z end.
Definition plus (b : Z) (s : Z + Z) : Z := (b + source s)%Z.
Definition print (z : Z) : string := NilZero.string_of_int (Z.to_int z).

End SumSample.

Module DecoderSample.
Import TypeDecoders.

(** Values that are numbers or not, a decoder that accepts the numbers
    below ten, one that answers with a promise that is rejected, and
    options that change no error. *)
Definition Value : Type := JsValue nat.

Definition isSmall (value : Value) : DecoderResult nat Value :=
  match value with
  | JsOther n => if (n <? 10)%nat then DecoderSuccess n
                 else DecoderErrors [MkDecoderError value "must be small" None None]
  | _ => DecoderErrors [MkDecoderError value "must be a number" None None]
  end.

Definition offline (value : Value) : Promise string (DecoderResult nat Value) :=
  Rejected "offline".

Definition keep (errors : list (DecoderError Value)) (options : unit)
  : list (DecoderError Value) := errors.

Definition maybeSmall : Value → Traced Value (DecoderResult (JsValue nat) Value) :=
  isMaybe unit keep exactlyUndefined exactlyNull isSmall tt.

Definition maybeOffline
  : Value → Traced Value (Promise string (DecoderResult (JsValue nat) Value)) :=
  isMaybePromise unit keep exactlyUndefined exactlyNull offline tt.

End DecoderSample.

(* ===================================================================== *)
(** * Properties                                                          *)
(* ===================================================================== *)

(** ** union and distinct *)

Section UnionFacts.
Context {T : Type} `{EqDecision T}.
Import Collections.

Lemma drain_foldl (a : list T) (s : JSSet) :
  drain a s = ([], foldl set_add s a).
Proof.
  revert s. induction a as [|x a IH]; intros s; simpl; [reflexivity|apply IH].
Qed.

Lemma filter_not_elem_snoc (s : list T) (x : T) (l : list T) :
  filter (λ y, y ∉ s ++ [x]) l = filter (λ y, y ∉ s) (filter (λ y, y ≠ x) l).
Proof.
  induction l as [|y l IH]; [reflexivity|].
  rewrite !filter_cons. destruct (decide (y = x)) as [->|Hne].
  - rewrite decide_False
      by (intros Hn; apply Hn; rewrite elem_of_app, list_elem_of_singleton; tauto).
    rewrite decide_False by congruence. exact IH.
  - rewrite (decide_True (P := y ≠ x)) by assumption. rewrite filter_cons.
    destruct (decide (y ∉ s)) as [Hs|Hs].
    + rewrite decide_True
        by (rewrite elem_of_app, list_elem_of_singleton; tauto).
      by rewrite IH.
    + rewrite decide_False
        by (rewrite elem_of_app, list_elem_of_singleton; tauto).
      exact IH.
Qed.

Lemma filter_absorb (s : list T) (x : T) (l : list T) :
  x ∈ s →
  filter (λ y, y ∉ s) (filter (λ y, y ≠ x) l) = filter (λ y, y ∉ s) l.
Proof.
  intros Hx. induction l as [|y l IH]; [reflexivity|].
  rewrite !filter_cons. destruct (decide (y = x)) as [->|Hne].
  - rewrite decide_False by congruence.
    rewrite (decide_False (P := x ∉ s)) by (intros Hn; exact (Hn Hx)). exact IH.
  - rewrite (decide_True (P := y ≠ x)) by assumption. rewrite filter_cons.
    destruct (decide (y ∉ s)); by rewrite IH.
Qed.

Lemma foldl_set_add (a : list T) (s : JSSet) :
  foldl set_add s a = s ++ filter (λ y, y ∉ s) (first_occurrences a).
Proof.
  revert s. induction a as [|x a IH]; intros s; simpl.
  - by rewrite app_nil_r.
  - rewrite IH. unfold set_add. rewrite filter_cons.
    destruct (decide (x ∈ s)) as [Hx|Hx].
    + rewrite decide_False by (intros Hn; exact (Hn Hx)).
      by rewrite filter_absorb.
    + rewrite decide_True by assumption.
      rewrite filter_not_elem_snoc, <- app_assoc. reflexivity.
Qed.

Lemma filter_not_elem_nil (l : list T) : filter (λ y : T, y ∉ []) l = l.
Proof.
  induction l as [|y l IH]; [reflexivity|].
  rewrite filter_cons, decide_True by apply not_elem_of_nil. by rewrite IH.
Qed.

Lemma distinct_first_occurrences (l : list T) :
  distinct l = first_occurrences l.
Proof.
  unfold distinct, array_from, set_of_array, set_new.
  rewrite foldl_set_add. simpl. apply filter_not_elem_nil.
Qed.

Lemma elem_of_first_occurrences (l : list T) (x : T) :
  x ∈ first_occurrences l ↔ x ∈ l.
Proof.
  induction l as [|y l IH]; simpl; [reflexivity|].
  rewrite !elem_of_cons, list_elem_of_filter, IH.
  destruct (decide (x = y)); tauto.
Qed.

Lemma NoDup_first_occurrences (l : list T) : NoDup (first_occurrences l).
Proof.
  induction l as [|y l IH]; simpl; [constructor|].
  constructor.
  - rewrite list_elem_of_filter. intros [Hne _]. by apply Hne.
  - by apply NoDup_filter.
Qed.

Lemma first_occurrences_app (a b : list T) :
  first_occurrences (a ++ b)
  = first_occurrences a ++ filter (λ y, y ∉ a) (first_occurrences b).
Proof.
  rewrite <- !distinct_first_occurrences at 1.
  unfold distinct, array_from, set_of_array, set_new.
  rewrite foldl_app, !foldl_set_add. simpl.
  rewrite !filter_not_elem_nil. f_equal.
  apply list_filter_iff. intros y. by rewrite elem_of_first_occurrences.
Qed.

Lemma first_occurrences_twice (a : list T) :
  first_occurrences (a ++ a) = first_occurrences a.
Proof.
  rewrite first_occurrences_app.
  assert (Hnil : ∀ l : list T, (∀ y, y ∈ l → y ∈ a) → filter (λ y, y ∉ a) l = []).
  { induction l as [|y l IH]; intros Hin; [reflexivity|].
    rewrite filter_cons, decide_False.
    - apply IH. intros z Hz. apply Hin. by right.
    - intros Hn. apply Hn, Hin. by left. }
  rewrite Hnil; [apply app_nil_r|].
  intros y. by rewrite elem_of_first_occurrences.
Qed.

(** C9. For all arrays [a] and [b] (given by reference, possibly the same
    array), [union(a, b)] returns the distinct elements of [a] followed by
    those of [b], in order of first occurrence, and leaves both arrays
    empty; no other array of the store is touched. *)
Theorem union_returns_distinct_and_empties_inputs
    (h : gmap ref (list T)) (ra rb : ref) (a b : list T) :
  h !! ra = Some a →
  h !! rb = Some b →
  ∃ h', union ra rb h = Some (first_occurrences (a ++ b), h')
        ∧ h' !! ra = Some [] ∧ h' !! rb = Some []
        ∧ (∀ r, r ≠ ra → r ≠ rb → h' !! r = h !! r)
        ∧ first_occurrences (a ++ b)
          = first_occurrences a ++ filter (λ y, y ∉ a) (first_occurrences b)
        ∧ NoDup (first_occurrences (a ++ b))
        ∧ (∀ x, x ∈ first_occurrences (a ++ b) ↔ x ∈ a ∨ x ∈ b).
Proof.
  intros Ha Hb. unfold union. rewrite Ha. simpl.
  rewrite drain_foldl.
  destruct (decide (ra = rb)) as [->|Hne].
  - assert (a = b) as <- by congruence.
    rewrite lookup_insert_eq. simpl.
    eexists. split; [|split; [|split; [|split; [|split; [|split]]]]].
    + unfold array_from, set_new. rewrite foldl_set_add. simpl.
      rewrite filter_not_elem_nil, first_occurrences_twice. reflexivity.
    + apply lookup_insert_eq.
    + apply lookup_insert_eq.
    + intros r Hr _. by rewrite !lookup_insert_ne.
    + apply first_occurrences_app.
    + apply NoDup_first_occurrences.
    + intros x. by rewrite elem_of_first_occurrences, elem_of_app.
  - rewrite lookup_insert_ne by assumption. rewrite Hb. simpl.
    rewrite drain_foldl.
    eexists. split; [|split; [|split; [|split; [|split; [|split]]]]].
    + unfold array_from, set_new. rewrite <- foldl_app, foldl_set_add. simpl.
      rewrite filter_not_elem_nil. reflexivity.
    + rewrite lookup_insert_ne by congruence. apply lookup_insert_eq.
    + apply lookup_insert_eq.
    + intros r Hr1 Hr2. by rewrite !lookup_insert_ne.
    + apply first_occurrences_app.
    + apply NoDup_first_occurrences.
    + intros x. by rewrite elem_of_first_occurrences, elem_of_app.
Qed.

End UnionFacts.

(** ** isMaybe *)

Section IsMaybeFacts.
Import TypeDecoders.
Context {A R : Type}.
Variable Options : Type.
Variable applyOptionsToDecoderErrors :
  list (DecoderError (JsValue A)) → Options → list (DecoderError (JsValue A)).
Variable undefinedDecoder nullDecoder :
  JsValue A → DecoderResult (JsValue R) (JsValue A).
(** The options of a call [isMaybe(d)]: the default [{}]. *)
Variable noOptions : Options.

(** What the missing modules are taken to do: [isExactly(x)] succeeds with
    the value exactly when it is [x], and the empty options change no
    error. *)
Hypothesis undefinedDecoder_hit :
  undefinedDecoder JsUndefined = DecoderSuccess JsUndefined.
Hypothesis undefinedDecoder_miss :
  ∀ v, v ≠ JsUndefined → isDecoderSuccess (undefinedDecoder v) = false.
Hypothesis nullDecoder_hit :
  nullDecoder JsNull = DecoderSuccess JsNull.
Hypothesis nullDecoder_miss :
  ∀ v, v ≠ JsNull → isDecoderSuccess (nullDecoder v) = false.
Hypothesis applyOptions_default :
  ∀ errors, applyOptionsToDecoderErrors errors noOptions = errors.

Local Abbreviation isMaybe' :=
  (isMaybe Options applyOptionsToDecoderErrors undefinedDecoder nullDecoder).

(** C10. The decoder [isMaybe(d)] succeeds at once on exactly [undefined]
    and on exactly [null], without handing the value to [d]; any other
    value is handed to [d] once, a success of [d] is returned, and a
    failure of [d] is returned with one error per error of [d], its
    message extended by [" OR must be null OR must be undefined"]. *)
Theorem isMaybe_decodes
    (d : JsValue A → DecoderResult R (JsValue A)) (value : JsValue A) :
  match value with
  | JsUndefined =>
      isMaybe' d noOptions value = (DecoderSuccess JsUndefined, [])
  | JsNull =>
      isMaybe' d noOptions value = (DecoderSuccess JsNull, [])
  | JsOther _ =>
      match d value with
      | DecoderSuccess r =>
          isMaybe' d noOptions value = (DecoderSuccess (JsOther r), [value])
      | DecoderErrors errors =>
          ∃ errors',
            isMaybe' d noOptions value = (DecoderErrors errors', [value])
            ∧ map error_message errors'
              = map (λ e, error_message e +:+ suffix) errors
            ∧ map error_child errors' = map Some errors
            ∧ Forall (λ e, error_value e = value
                           ∧ error_decoderName e = Some decoderName) errors'
      end
  end.
Proof.
  unfold isMaybe.
  destruct value as [| |a].
  - rewrite undefinedDecoder_hit. reflexivity.
  - rewrite undefinedDecoder_miss by discriminate.
    rewrite nullDecoder_hit. reflexivity.
  - rewrite undefinedDecoder_miss, nullDecoder_miss by discriminate.
    unfold tbind, consult, tret.
    destruct (d (JsOther a)) as [r|errors]; [reflexivity|].
    eexists. split; [reflexivity|].
    rewrite applyOptions_default, !map_map. simpl.
    split; [reflexivity|]. split; [reflexivity|].
    apply Forall_map, Forall_forall. intros e _. split; reflexivity.
Qed.

End IsMaybeFacts.

Lemma union_returns_distinct_and_empties_inputs_witness :
  let h : gmap nat (list nat) := <[0 := [3; 1; 3]]> (<[1 := [1; 2]]> ∅) in
  h !! 0 = Some [3; 1; 3] ∧ h !! 1 = Some [1; 2] ∧
  ∃ h', Collections.union 0 1 h
        = Some (Collections.first_occurrences ([3; 1; 3] ++ [1; 2]), h')
        ∧ h' !! 0 = Some [] ∧ h' !! 1 = Some []
        ∧ (∀ r, r ≠ 0 → r ≠ 1 → h' !! r = h !! r)
        ∧ Collections.first_occurrences ([3; 1; 3] ++ [1; 2])
          = Collections.first_occurrences [3; 1; 3]
            ++ filter (λ y, y ∉ [3; 1; 3]) (Collections.first_occurrences [1; 2])
        ∧ NoDup (Collections.first_occurrences ([3; 1; 3] ++ [1; 2]))
        ∧ (∀ x, x ∈ Collections.first_occurrences ([3; 1; 3] ++ [1; 2])
                ↔ x ∈ [3; 1; 3] ∨ x ∈ [1; 2]).
Proof.
  intros h.
  split; [reflexivity|]. split; [reflexivity|].
  apply (union_returns_distinct_and_empties_inputs h 0 1); reflexivity.
Defined.

Lemma isMaybe_decodes_witness :
  let d : TypeDecoders.JsValue nat → TypeDecoders.DecoderResult nat (TypeDecoders.JsValue nat) :=
    λ v, TypeDecoders.DecoderErrors
           [TypeDecoders.MkDecoderError v "must be a string" None (Some "isString")] in
  ∃ errors',
    TypeDecoders.isMaybe unit (λ errors _, errors)
      TypeDecoders.exactlyUndefined TypeDecoders.exactlyNull d tt
      (TypeDecoders.JsOther 7)
    = (TypeDecoders.DecoderErrors errors', [TypeDecoders.JsOther 7])
    ∧ map TypeDecoders.error_message errors'
      = ["must be a string OR must be null OR must be undefined"]
    ∧ map TypeDecoders.error_child errors'
      = map Some [TypeDecoders.MkDecoderError (TypeDecoders.JsOther 7)
                    "must be a string" None (Some "isString")]
    ∧ Forall (λ e, TypeDecoders.error_value e = TypeDecoders.JsOther 7
                   ∧ TypeDecoders.error_decoderName e
                     = Some TypeDecoders.decoderName) errors'.
Proof.
  intros d.
  refine (isMaybe_decodes (R := nat) unit (λ errors _, errors)
            TypeDecoders.exactlyUndefined TypeDecoders.exactlyNull tt
            _ _ _ _ _ d (TypeDecoders.JsOther 7)).
  - reflexivity.
  - intros [| |a] Hv; [destruct Hv| |]; reflexivity.
  - reflexivity.
  - intros [| |a] Hv; [|destruct Hv|]; reflexivity.
  - reflexivity.
Defined.

(* ===================================================================== *)
(** ** The loader and the dumper                                          *)
(* ===================================================================== *)

Import Yaml.
#[local] Arguments String.append : simpl nomatch.

Lemma insert_by_ties {X} (e : string * X) (l : list (string * X)) :
  insert_by (λ _ _, 0%Z) e l = e :: l.
Proof. destruct l; reflexivity. Qed.

Lemma sort_by_ties {X} (l : list (string * X)) : sort_by (λ _ _, 0%Z) l = l.
Proof.
  induction l as [|e l IH]; [reflexivity|].
  unfold sort_by in *. simpl. rewrite IH. apply insert_by_ties.
Qed.

Lemma insert_by_perm {X} cmp (e : string * X) (l : list (string * X)) :
  insert_by cmp e l ≡ₚ e :: l.
Proof.
  induction l as [|e' l IH]; simpl; [reflexivity|].
  destruct (0 <? cmp e.1 e'.1)%Z; [|reflexivity].
  rewrite IH. apply Permutation_swap.
Qed.

Lemma sort_by_perm {X} cmp (l : list (string * X)) : sort_by cmp l ≡ₚ l.
Proof.
  induction l as [|e l IH]; [reflexivity|].
  unfold sort_by in *. simpl. rewrite insert_by_perm. by constructor.
Qed.


Example unlines_sample : unlines ["b: 1"; "a: 2"; "c: 3"] = "b: 1" +:+ nl +:+ "a: 2" +:+ nl +:+ "c: 3" +:+ nl.
Proof. reflexivity. Qed.

Lemma fold_lines_cons_cons (l l' : string) (rest : list string) :
  fold_lines (l :: l' :: rest)
  = if String.eqb l EmptyString then nl +:+ fold_lines (l' :: rest)
    else if String.eqb l' EmptyString then l +:+ fold_lines (l' :: rest)
    else l +:+ " " +:+ fold_lines (l' :: rest).
Proof. reflexivity. Qed.

Lemma append_assoc (a b c : string) : (a +:+ b) +:+ c = a +:+ (b +:+ c).
Proof. induction a; simpl; [reflexivity|]. by f_equal. Qed.

Lemma fold_lines_app (pre : list string) (l : string) (rest : list string) (sep : string) :
  fold_lines (l :: rest) = l +:+ sep +:+ fold_lines rest →
  fold_lines (pre ++ l :: rest) = fold_lines (pre ++ [l]) +:+ sep +:+ fold_lines rest.
Proof.
  intros Hl. induction pre as [|p pre IH]; [exact Hl|].
  destruct pre as [|p' pre].
  - simpl app in *. rewrite fold_lines_cons_cons, (fold_lines_cons_cons p l []).
    rewrite Hl. simpl fold_lines at 2 3 4.
    destruct (String.eqb p EmptyString), (String.eqb l EmptyString);
      rewrite ?append_assoc; reflexivity.
  - simpl app in *. rewrite fold_lines_cons_cons, (fold_lines_cons_cons p p' (pre ++ [l])).
    rewrite IH.
    destruct (String.eqb p EmptyString), (String.eqb p' EmptyString);
      rewrite ?append_assoc; reflexivity.
Qed.


(** ** loadAll *)

Lemma loadAll_from_calls o docs : ∀ i calls st,
  ∃ news,
    fst (loadAll_from o i docs calls st) = calls ++ news
    ∧ map fst news = seq i (length news)
    ∧ (∀ j iv, news !! j = Some iv →
         ∃ doc st0 st1, docs !! j = Some doc
                        ∧ load_document o doc st0 = Done (snd iv) st1)
    ∧ match snd (loadAll_from o i docs calls st) with
      | Done _ _ => length news = length docs
      | Raised t st' =>
          ∃ doc st0, docs !! (length news) = Some doc
                     ∧ load_document o doc st0 = Raised t st'
      end.
Proof.
  induction docs as [|doc docs IH]; intros i calls st; simpl.
  - exists []. rewrite app_nil_r. repeat split; try reflexivity.
    intros j iv Hj. destruct j; discriminate.
  - destruct (load_document o doc st) as [v st'|t st'] eqn:Hdoc; simpl.
    + destruct (IH (S i) (calls ++ [(i, v)]) st') as (news & Hc & Hi & Hv & Ho).
      exists ((i, v) :: news). rewrite Hc, <- app_assoc. simpl.
      split; [reflexivity|]. split; [by rewrite Hi|]. split.
      * intros [|j] iv Hj; simpl in Hj.
        -- inversion Hj; subst. exists doc, st, st'. by split.
        -- apply Hv in Hj. exact Hj.
      * destruct (snd (loadAll_from o (S i) docs (calls ++ [(i, v)]) st')).
        -- by rewrite Ho.
        -- exact Ho.
    + exists []. rewrite app_nil_r. repeat split; try reflexivity.
      * intros j iv Hj. destruct j; discriminate.
      * exists doc, st. by split.
Qed.


(** ** The depth guard *)

Lemma rmap_guard {A B} (f g : A → Result B) (depth : B → nat) (d : nat) (l : list A) :
  (∀ a b, a ∈ l → f a = Ok b →
     (depth b ≤ d → g a = Ok b)
     ∧ (d < depth b → ∃ m, g a = Err DepthExceededError m)) →
  ∀ bs, rmap f l = Ok bs →
    (Forall (λ b, depth b ≤ d) bs → rmap g l = Ok bs)
    ∧ (Exists (λ b, d < depth b) bs → ∃ m, rmap g l = Err DepthExceededError m).
Proof.
  induction l as [|a l IH]; intros Hfg bs Hbs; simpl in *.
  - inversion Hbs; subst. split; [reflexivity|]. intros H; inversion H.
  - destruct (f a) as [b|] eqn:Hfa; [|discriminate]. simpl in Hbs.
    destruct (rmap f l) as [bs'|] eqn:Hfl; [|discriminate]. simpl in Hbs.
    inversion Hbs; subst. clear Hbs.
    destruct (Hfg a b (list_elem_of_here _ _) Hfa) as [Hle Hgt].
    destruct (IH (λ a' b' Ha', Hfg a' b' (list_elem_of_further _ _ _ Ha')) bs' eq_refl)
      as [IHle IHgt].
    split.
    + intros Hall. inversion Hall; subst. rewrite Hle by assumption. simpl.
      rewrite IHle by assumption. reflexivity.
    + intros Hex. destruct (le_lt_dec (depth b) d) as [Hb|Hb].
      * rewrite Hle by assumption. simpl.
        inversion Hex; subst; [lia|].
        destruct IHgt as [m Hm]; [assumption|]. rewrite Hm. simpl. by exists m.
      * destruct (Hgt Hb) as [m Hm]. rewrite Hm. simpl. by exists m.
Qed.

Lemma foldr_max_le {B} (depth : B → nat) (d : nat) (bs : list B) :
  foldr (λ b k, Nat.max (depth b) k) 0 bs ≤ d ↔ Forall (λ b, depth b ≤ d) bs.
Proof.
  induction bs as [|b bs IH]; simpl.
  - split; [constructor|lia].
  - rewrite Forall_cons, <- IH. lia.
Qed.

Lemma foldr_max_gt {B} (depth : B → nat) (d : nat) (bs : list B) :
  d < foldr (λ b k, Nat.max (depth b) k) 0 bs ↔ Exists (λ b, d < depth b) bs.
Proof.
  induction bs as [|b bs IH]; simpl.
  - split; [lia|]. intros H; inversion H.
  - rewrite Exists_cons, <- IH. lia.
Qed.

Lemma tok_node_guard d' d tag anchor m t :
  guarded d (tok_node d' tag anchor m t) (tok_node d tag anchor m t).
Proof.
  intros n Hn. destruct t; simpl in *.
  - inversion Hn; subst. simpl. split; [reflexivity|lia].
  - inversion Hn; subst. simpl. split; [reflexivity|lia].
  - destruct d'; [discriminate|]. inversion Hn; subst. simpl.
    destruct d; split; try reflexivity; try lia. intros _. by eexists.
  - destruct d'; [discriminate|]. inversion Hn; subst. simpl.
    destruct d; split; try reflexivity; try lia. intros _. by eexists.
Qed.

Lemma entry_value_guard d' d n block' block e :
  (∀ tag anchor pm ls, guarded d (block' tag anchor pm ls) (block tag anchor pm ls)) →
  guarded d (entry_value d' n block' e) (entry_value d n block e).
Proof.
  intros Hblock node. unfold entry_value.
  destruct e as [[m l] nested].
  destruct (negb (lindent l =? n)%nat); [discriminate|].
  destruct (lvalue l) as [t|].
  - destruct nested as [|[m' l'] nested]; [|discriminate]. apply tok_node_guard.
  - apply Hblock.
Qed.

Lemma parse_block_eq d tag anchor pm ls :
  parse_block d tag anchor pm ls
  = match ls with
    | [] => Ok (Scalar tag anchor EmptyString Plain pm)
    | (m, l) :: rest =>
        match lhead l with
        | HNone =>
            match rest with
            | [] =>
                let tag' := match ltag l with Some t => Some t | None => tag end in
                let anchor' := match lanchor l with Some a => Some a | None => anchor end in
                match lvalue l with
                | Some t => tok_node d tag' anchor' m t
                | None => Ok (Scalar tag' anchor' EmptyString Plain m)
                end
            | (m', _) :: _ => Err (ParserError UnexpectedContent) m'
            end
        | HDash =>
            match d with
            | 0 => Err DepthExceededError m
            | S d' =>
                items ←r rmap (seq_entry d' (lindent l) (parse_block d'))
                           (snd (group (lindent l) ls));
                Ok (Sequence tag anchor items m)
            end
        | HKey _ _ =>
            match d with
            | 0 => Err DepthExceededError m
            | S d' =>
                pairs ←r rmap (map_entry d' (lindent l) (parse_block d'))
                           (snd (group (lindent l) ls));
                Ok (Mapping tag anchor pairs m)
            end
        end
    end.
Proof. destruct d; reflexivity. Qed.

Lemma parse_block_guard : ∀ d' d tag anchor pm ls,
  guarded d (parse_block d' tag anchor pm ls) (parse_block d tag anchor pm ls).
Proof.
  induction d' as [|d' IH]; intros d tag anchor pm ls node;
    rewrite (parse_block_eq d), parse_block_eq;
    (destruct ls as [|[m l] rest];
     [intros Hnode; inversion Hnode; subst; simpl; split; [reflexivity|lia]|]);
    (destruct (lhead l) eqn:Hh;
     [destruct rest as [|[m' l'] rest]; [|discriminate]; cbv zeta;
      destruct (lvalue l) as [t|];
      [apply tok_node_guard
      |intros Hnode; inversion Hnode; subst; simpl; split; [reflexivity|lia]]
     | |]); try discriminate.
  - destruct (rmap _ _) as [items|] eqn:Hitems; [|discriminate].
    cbn [rbind]. intros Hnode. inversion Hnode; subst. clear Hnode.
    destruct d as [|d].
    { split; [simpl; lia|]. intros _. by eexists. }
    destruct (rmap_guard (seq_entry d' (lindent l) (parse_block d'))
                (seq_entry d (lindent l) (parse_block d)) node_depth d
                (snd (group (lindent l) ((m, l) :: rest)))) with (bs := items)
      as [Hle Hgt]; [|exact Hitems|].
    { intros e b _. unfold seq_entry. destruct (lhead (snd (fst e))); try discriminate.
      apply entry_value_guard. intros. apply IH. }
    simpl node_depth. split.
    + intros Hd. rewrite Hle; [reflexivity|]. apply foldr_max_le. lia.
    + intros Hd. destruct Hgt as [m0 Hm0]; [apply foldr_max_gt; lia|].
      rewrite Hm0. by exists m0.
  - destruct (rmap _ _) as [pairs|] eqn:Hpairs; [|discriminate].
    cbn [rbind]. intros Hnode. inversion Hnode; subst. clear Hnode.
    destruct d as [|d].
    { split; [simpl; lia|]. intros _. by eexists. }
    destruct (rmap_guard (map_entry d' (lindent l) (parse_block d'))
                (map_entry d (lindent l) (parse_block d))
                (λ kv, Nat.max (node_depth (fst kv)) (node_depth (snd kv))) d
                (snd (group (lindent l) ((m, l) :: rest)))) with (bs := pairs)
      as [Hle Hgt]; [|exact Hpairs|].
    { intros e b _. unfold map_entry.
      destruct (lhead (snd (fst e))); try discriminate.
      destruct (entry_value d' _ _ e) as [v|] eqn:Hv; [|discriminate].
      simpl. intros Hb. inversion Hb; subst. simpl.
      destruct (entry_value_guard d' d (lindent l) (parse_block d') (parse_block d) e
                  (λ tag anchor pm ls, IH d tag anchor pm ls) v Hv) as [H1 H2].
      split.
      - intros Hd. rewrite H1 by lia. reflexivity.
      - intros Hd. destruct H2 as [m0 Hm0]; [lia|]. rewrite Hm0. by exists m0. }
    simpl node_depth. split.
    + intros Hd. rewrite Hle; [reflexivity|].
      apply (foldr_max_le (λ kv : Node * Node, Nat.max (node_depth kv.1) (node_depth kv.2))). lia.
    + intros Hd. destruct Hgt as [m0 Hm0].
      { apply (foldr_max_gt (λ kv : Node * Node, Nat.max (node_depth kv.1) (node_depth kv.2))). lia. }
      rewrite Hm0. by exists m0.
Qed.

Lemma parse_block_depth d tag anchor pm ls n :
  parse_block d tag anchor pm ls = Ok n → node_depth n ≤ d.
Proof.
  intros Hn. destruct (le_lt_dec (node_depth n) d) as [|Hgt]; [assumption|].
  destruct (parse_block_guard d d tag anchor pm ls n Hn) as [_ H].
  destruct (H Hgt) as [m Hm]. congruence.
Qed.

(** ** Induction on nodes *)

Lemma Node_ind' (P : Node → Prop) :
  (∀ tag anchor text style m, P (Scalar tag anchor text style m)) →
  (∀ tag anchor items m, Forall P items → P (Sequence tag anchor items m)) →
  (∀ tag anchor pairs m, Forall (λ kv, P (fst kv) ∧ P (snd kv)) pairs →
     P (Mapping tag anchor pairs m)) →
  (∀ a m, P (Alias a m)) →
  ∀ n, P n.
Proof.
  intros Hs Hq Hm Ha. fix IH 1. intros [tag anchor text style m|tag anchor items m|tag anchor pairs m|a m].
  - apply Hs.
  - apply Hq. induction items as [|i items IHi]; constructor; [apply IH|exact IHi].
  - apply Hm. induction pairs as [|[k v] pairs IHp]; constructor;
      [split; apply IH|exact IHp].
  - apply Ha.
Qed.

(** ** Invariants of the constructor *)

Lemma bind_alloc {B} (ob : Obj) (k : nat → M B) (st : LoadState) :
  bind (alloc ob) k st
  = k (length (store st))
      {| store := store st ++ [ob]; anchors := anchors st; delivered := delivered st |}.
Proof. reflexivity. Qed.

Section ConstructInvariant.
Variable o : LoadOptions.
Variable I : LoadState → Prop.
Variable E : Thrown → LoadState → Prop.
Variable ok : string → Prop.

Variable base : nat.
Hypothesis I_base : ∀ st, I st → base ≤ length (store st).
Hypothesis I_alloc : ∀ st ob,
  I st →
  I {| store := store st ++ [ob]; anchors := anchors st; delivered := delivered st |}.
Hypothesis I_fill : ∀ st r ob,
  base ≤ r → I st →
  I {| store := <[r := ob]> (store st); anchors := anchors st;
       delivered := delivered st |}.
Hypothesis I_register : ∀ st a v,
  ok a → I st →
  I {| store := store st; anchors := <[a := v]> (anchors st); delivered := delivered st |}.
Hypothesis I_warn : ∀ m st, I st → post I E (warn o ImplicitTypeAmbiguity m st).
Hypothesis I_duplicate : ∀ m st, I st → post I E (duplicate_key o m st).
Hypothesis I_fail : ∀ f m st,
  ¬ anomaly f → I st → E (Yaml (exception (filename o) f m)) st.

Lemma post_bind {A B} (m : M A) (k : A → M B) st :
  post I E (m st) → (∀ a st', I st' → post I E (k a st')) → post I E (bind m k st).
Proof.
  unfold bind. destruct (m st) as [a st'|t st']; simpl; intros H Hk; [by apply Hk|exact H].
Qed.

Lemma post_check_tag k tag m st : I st → post I E (check_tag o k tag m st).
Proof.
  intros HI. unfold check_tag. destruct tag as [t|]; [|exact HI].
  destruct (find_tag (schema o) k t); [exact HI|].
  apply I_fail; [|exact HI]. intros [H|H]; discriminate.
Qed.

Lemma post_register anchor v st :
  Forall ok (option_list anchor) → I st → post I E (register anchor v st).
Proof.
  intros Hok HI. destruct anchor as [a|]; simpl; [|exact HI].
  apply I_register; [|exact HI]. by inversion Hok.
Qed.

Lemma construct_scalar_fault s tag text style f :
  construct_scalar s tag text style = inl f → ¬ anomaly f.
Proof.
  unfold construct_scalar, construct_with. intros H [Hf|Hf]; subst;
    repeat match type of H with
           | match ?x with _ => _ end = _ => destruct x
           end; discriminate.
Qed.

Lemma construct_items_post items st :
  Forall (λ n, Forall ok (anchors_of n) → ∀ st, I st → post I E (construct o n st)) items →
  Forall ok (flat_map anchors_of items) →
  I st → post I E (construct_items (construct o) items st).
Proof.
  intros IH. revert st. induction IH as [|i items Hi _ IHitems]; intros st Hok HI.
  - exact HI.
  - simpl in Hok. apply Forall_app in Hok as [Hok1 Hok2].
    simpl. apply post_bind; [by apply Hi|]. intros v st1 HI1.
    apply post_bind; [by apply IHitems|]. intros vs st2 HI2. exact HI2.
Qed.

Lemma construct_pairs_post pairs acc st :
  Forall (λ kv, (Forall ok (anchors_of (fst kv)) → ∀ st, I st → post I E (construct o (fst kv) st))
                ∧ (Forall ok (anchors_of (snd kv)) → ∀ st, I st → post I E (construct o (snd kv) st)))
    pairs →
  Forall ok (flat_map (λ kv, anchors_of (fst kv) ++ anchors_of (snd kv)) pairs) →
  I st → post I E (construct_pairs o (construct o) pairs acc st).
Proof.
  intros IH. revert acc st. induction IH as [|kv pairs [Hk Hv] _ IHpairs]; intros acc st Hok HI.
  - exact HI.
  - simpl in Hok. apply Forall_app in Hok as [Hok1 Hok2].
    apply Forall_app in Hok1 as [Hokk Hokv].
    simpl. apply post_bind; [by apply Hk|]. intros k st1 HI1.
    destruct (key_string k) as [ks|].
    + apply post_bind; [by apply Hv|]. intros v st2 HI2.
      apply post_bind.
      * destruct (has_key ks acc); [by apply I_duplicate|exact HI2].
      * intros _ st3 HI3. by apply IHpairs.
    + apply I_fail; [|exact HI1]. intros [H|H]; discriminate.
Qed.

Lemma construct_post n :
  Forall ok (anchors_of n) → ∀ st, I st → post I E (construct o n st).
Proof.
  induction n as [tag anchor text style m|tag anchor items m IH|tag anchor pairs m IH|a m]
    using Node_ind'; intros Hok st HI.
  - simpl. apply post_bind.
    + unfold check_ambiguity. destruct tag; [exact HI|].
      destruct style; try exact HI.
      destruct (ambiguous (schema o) text); [by apply I_warn|exact HI].
    + intros _ st1 HI1. destruct (construct_scalar _ _ _ _) as [f|p] eqn:Hp.
      * apply I_fail; [|exact HI1]. by apply construct_scalar_fault in Hp.
      * apply post_bind; [by apply post_register|]. intros _ st2 HI2. exact HI2.
  - simpl in Hok. apply Forall_app in Hok as [Hok1 Hok2].
    simpl. apply post_bind; [by apply post_check_tag|]. intros _ st1 HI1.
    rewrite bind_alloc.
    apply post_bind; [apply post_register; [assumption|by apply I_alloc]|].
    intros _ st3 HI3.
    apply post_bind; [by apply construct_items_post|]. intros vs st4 HI4.
    apply post_bind; [apply I_fill; [by apply I_base|exact HI4]|].
    intros _ st5 HI5. exact HI5.
  - simpl in Hok. apply Forall_app in Hok as [Hok1 Hok2].
    simpl. apply post_bind; [by apply post_check_tag|]. intros _ st1 HI1.
    rewrite bind_alloc.
    apply post_bind; [apply post_register; [assumption|by apply I_alloc]|].
    intros _ st3 HI3.
    apply post_bind; [by apply construct_pairs_post|]. intros vs st4 HI4.
    apply post_bind; [apply I_fill; [by apply I_base|exact HI4]|].
    intros _ st5 HI5. exact HI5.
  - simpl. destruct (anchors st !! a); [exact HI|].
    apply I_fail; [|exact HI]. intros [H|H]; discriminate.
Qed.

End ConstructInvariant.

(** ** Anchors and aliases *)

Section Kept.
Variables (o : LoadOptions) (sto : list Obj) (a : string) (x : option Val).

Local Abbreviation I := (kept sto a x).
Local Abbreviation E := (λ (_ : Thrown) (_ : LoadState), True).

Lemma kept_alloc st ob :
  I st → I {| store := store st ++ [ob]; anchors := anchors st; delivered := delivered st |}.
Proof.
  intros (Hlen & Htake & Ha). split; [|split]; simpl.
  - rewrite length_app. lia.
  - rewrite take_app_le by assumption. exact Htake.
  - exact Ha.
Qed.

Lemma kept_fill st r ob :
  length sto ≤ r → I st →
  I {| store := <[r := ob]> (store st); anchors := anchors st; delivered := delivered st |}.
Proof.
  intros Hr (Hlen & Htake & Ha). split; [|split]; simpl.
  - by rewrite length_insert.
  - rewrite take_insert_ge by assumption. exact Htake.
  - exact Ha.
Qed.

Lemma kept_register st b v :
  b ≠ a → I st →
  I {| store := store st; anchors := <[b := v]> (anchors st); delivered := delivered st |}.
Proof.
  intros Hb (Hlen & Htake & Ha). split; [|split]; simpl; try assumption.
  by rewrite lookup_insert_ne.
Qed.

Lemma kept_warn f m st : I st → post I E (warn o f m st).
Proof.
  intros HI. unfold warn. destruct (onWarning o) as [hook|]; [|exact HI].
  destruct (hook _); [exact Logic.I|exact HI].
Qed.

Lemma kept_duplicate m st : I st → post I E (duplicate_key o m st).
Proof.
  intros HI. unfold duplicate_key. destruct (fatalDuplicateKeys o); [exact Logic.I|].
  by apply kept_warn.
Qed.

Lemma construct_kept n st :
  a ∉ anchors_of n → I st → post I E (construct o n st).
Proof.
  intros Ha. apply (construct_post o I E (λ b, b ≠ a) (length sto)).
  - intros st' (H & _). exact H.
  - apply kept_alloc.
  - apply kept_fill.
  - intros. by apply kept_register.
  - intros. by apply kept_warn.
  - apply kept_duplicate.
  - intros. exact Logic.I.
  - apply Forall_forall. intros b Hb ->. by apply Ha.
Qed.

Lemma construct_items_kept items st :
  a ∉ flat_map anchors_of items → I st →
  post I E (construct_items (construct o) items st).
Proof.
  intros Ha. apply (construct_items_post o I E (λ b, b ≠ a)).
  - apply Forall_forall. intros n _ Hn st' HI.
    apply (construct_post o I E (λ b, b ≠ a) (length sto)); try assumption.
    + intros st'' (H & _). exact H.
    + apply kept_alloc.
    + apply kept_fill.
    + intros. by apply kept_register.
    + intros. by apply kept_warn.
    + apply kept_duplicate.
    + intros. exact Logic.I.
  - apply Forall_forall. intros b Hb ->. by apply Ha.
Qed.

Lemma construct_pairs_kept pairs acc st :
  a ∉ flat_map (λ kv, anchors_of (fst kv) ++ anchors_of (snd kv)) pairs → I st →
  post I E (construct_pairs o (construct o) pairs acc st).
Proof.
  intros Ha. apply (construct_pairs_post o I E (λ b, b ≠ a)).
  - apply kept_duplicate.
  - intros. exact Logic.I.
  - apply Forall_forall. intros kv _.
    split; intros Hn st' HI;
      (apply (construct_post o I E (λ b, b ≠ a) (length sto)); try assumption;
       [intros st'' (H & _); exact H|apply kept_alloc|apply kept_fill
       |intros; by apply kept_register|intros; by apply kept_warn|apply kept_duplicate
       |intros; exact Logic.I]).
  - apply Forall_forall. intros b Hb ->. by apply Ha.
Qed.

End Kept.


(** ** Warnings *)

Lemma scan_from_fault nls : ∀ st f m,
  scan_from st nls = Err f m → ∃ k, f = ScannerError k.
Proof.
  induction nls as [|[no raw] nls IH]; intros [out pend] f m; simpl.
  - discriminate.
  - assert (Hfresh : ∀ out', match scan_fresh out' no raw with
                             | Ok st' => True
                             | Err f' _ => ∃ k, f' = ScannerError k
                             end).
    { intros out'. unfold scan_fresh. destruct (scan_line raw) as [k|[|l [[fo c]|]]]; eauto. }
    destruct pend as [p|].
    + destruct (_ || _).
      * simpl. apply IH.
      * specialize (Hfresh (finish p :: out)).
        destruct (scan_fresh _ no raw) as [st'|f' m']; simpl.
        -- apply IH.
        -- intros H. inversion H; subst. exact Hfresh.
    + specialize (Hfresh out).
      destruct (scan_fresh _ no raw) as [st'|f' m']; simpl.
      * apply IH.
      * intros H. inversion H; subst. exact Hfresh.
Qed.

Lemma rmap_fault {A B} (P : Fault → Prop) (f : A → Result B) (l : list A) :
  (∀ a e m, f a = Err e m → P e) → ∀ e m, rmap f l = Err e m → P e.
Proof.
  intros Hf. induction l as [|a l IH]; intros e m; simpl; [discriminate|].
  destruct (f a) as [b|e' m'] eqn:Ha; simpl.
  - destruct (rmap f l) as [bs|e' m']; simpl; [discriminate|].
    intros H. inversion H; subst. by eapply IH.
  - intros H. inversion H; subst. by eapply Hf.
Qed.

Lemma tok_node_fault d tag anchor m t f m' :
  tok_node d tag anchor m t = Err f m' → parser_fault f.
Proof.
  destruct t; simpl; try discriminate; destruct d; try discriminate;
    intros H; inversion H; by left.
Qed.

Lemma entry_value_fault d n block e f m :
  (∀ tag anchor pm ls f m, block tag anchor pm ls = Err f m → parser_fault f) →
  entry_value d n block e = Err f m → parser_fault f.
Proof.
  intros Hblock. unfold entry_value. destruct e as [[m0 l] nested].
  destruct (negb _).
  - intros H. inversion H. right. by eexists.
  - destruct (lvalue l) as [t|].
    + destruct nested as [|[m' l'] nested].
      * apply tok_node_fault.
      * intros H. inversion H. right. by eexists.
    + apply Hblock.
Qed.

Lemma parse_block_fault : ∀ d tag anchor pm ls f m,
  parse_block d tag anchor pm ls = Err f m → parser_fault f.
Proof.
  induction d as [|d IH]; intros tag anchor pm ls f m; rewrite parse_block_eq;
    (destruct ls as [|[m0 l] rest]; [discriminate|]);
    (destruct (lhead l);
     [destruct rest as [|[m' l'] rest];
      [cbv zeta; destruct (lvalue l); [apply tok_node_fault|discriminate]
      |intros H; inversion H; right; by eexists]
     | |]);
    try (intros H; inversion H; by left).
  - destruct (rmap _ _) as [items|e m'] eqn:Hitems; [discriminate|].
    cbn [rbind]. intros H. inversion H; subst.
    revert Hitems. apply rmap_fault. intros e' f' m''. unfold seq_entry.
    destruct (lhead _); try (intros H'; inversion H'; right; by eexists).
    apply entry_value_fault. apply IH.
  - destruct (rmap _ _) as [items|e m'] eqn:Hitems; [discriminate|].
    cbn [rbind]. intros H. inversion H; subst.
    revert Hitems. apply rmap_fault. intros e' f' m''. unfold map_entry.
    destruct (lhead _); try (intros H'; inversion H'; right; by eexists).
    destruct (entry_value _ _ _ _) eqn:Hv; [discriminate|].
    cbn [rbind]. intros H'. inversion H'; subst.
    revert Hv. apply entry_value_fault. apply IH.
Qed.

Section Hook.
Variables (o : LoadOptions) (hook : FormatException → option Thrown).
Hypothesis has_hook : onWarning o = Some hook.
Hypothesis lenient : fatalDuplicateKeys o = false.

Lemma warn_routed f m st :
  warn o f m st
  = let w := exception (filename o) (ConstructError f) m in
    let st' := {| store := store st; anchors := anchors st;
                  delivered := delivered st ++ [w] |} in
    match hook w with None => Done tt st' | Some t => Raised t st' end.
Proof. unfold warn. rewrite has_hook. reflexivity. Qed.

Lemma duplicate_key_routed m st :
  duplicate_key o m st = warn o DuplicateKey m st.
Proof. unfold duplicate_key. rewrite lenient. reflexivity. Qed.

Lemma answered_warn f m st :
  anomaly (ConstructError f) →
  answered hook st → post (answered hook) (raised_by o hook) (warn o f m st).
Proof.
  intros Hf HI. rewrite warn_routed. cbv zeta.
  destruct (hook _) as [t|] eqn:Hhook; simpl.
  - right. eexists _, _. split; [reflexivity|]. by split.
  - apply Forall_app. split; [exact HI|]. constructor; [|constructor]. by split.
Qed.

Lemma construct_answered n st :
  answered hook st → post (answered hook) (raised_by o hook) (construct o n st).
Proof.
  apply (construct_post o (answered hook) (raised_by o hook) (λ _, True) 0).
  - intros. lia.
  - intros st' ob H. exact H.
  - intros st' r ob _ H. exact H.
  - intros st' a v _ H. exact H.
  - intros m st'. apply answered_warn. by right.
  - intros m st'. rewrite duplicate_key_routed. apply answered_warn. by left.
  - intros f m st' Hf H. left. by eexists _, _.
  - apply Forall_forall. done.
Qed.

Lemma load_document_answered doc st :
  answered hook st → post (answered hook) (raised_by o hook) (load_document o doc st).
Proof.
  intros HI. unfold load_document.
  apply post_bind.
  { destruct (scan doc) as [toks|f m] eqn:Hscan; [exact HI|].
    left. exists f, m. split; [reflexivity|]. split; [|exact HI].
    apply scan_from_fault in Hscan as [k ->]. intros [H|H]; discriminate. }
  intros toks st1 HI1. apply post_bind.
  { destruct (parse (maxDepth o) toks) as [n|f m] eqn:Hparse; [exact HI1|].
    left. exists f, m. split; [reflexivity|]. split; [|exact HI1].
    apply parse_block_fault in Hparse as [->|[k ->]]; intros [H|H]; discriminate. }
  intros n st2 HI2. apply post_bind; [exact HI2|].
  intros _ st3 HI3. by apply construct_answered.
Qed.

End Hook.


(** ** Characters *)

Ltac each_char c :=
  destruct c as [[] [] [] [] [] [] [] []]; vm_compute; try discriminate; auto.

Lemma plain_char_not_special c :
  plain_char c = true →
  Ascii.eqb c SP = false ∧ Ascii.eqb c TAB = false ∧ Ascii.eqb c LF = false
  ∧ Ascii.eqb c "#" = false ∧ Ascii.eqb c SQ = false ∧ Ascii.eqb c DQ = false
  ∧ Ascii.eqb c ":" = false ∧ Ascii.eqb c "&" = false ∧ Ascii.eqb c "!" = false
  ∧ Ascii.eqb c "*" = false ∧ Ascii.eqb c "[" = false ∧ Ascii.eqb c "{" = false
  ∧ Ascii.eqb c ">" = false ∧ Ascii.eqb c "|" = false ∧ Ascii.eqb c "." = false.
Proof. each_char c; intros _; repeat split. Qed.

Lemma digit_plain c : is_digit c = true → plain_char c = true ∧ Ascii.eqb c "-" = false.
Proof. each_char c. Qed.

Lemma digit_not_space c : is_digit c = true → Ascii.eqb c SP = false.
Proof. each_char c. Qed.

Lemma printable_not_lf c : is_printable c = true → Ascii.eqb c LF = false.
Proof. each_char c. Qed.

Lemma hex_round_trip c :
  match hex_value (hex_digit (code c / 16)), hex_value (hex_digit (code c mod 16)) with
  | Some a, Some b => Some (ascii_of_nat (16 * a + b))
  | _, _ => None
  end = Some c.
Proof. each_char c. Qed.

Lemma escape_char_no_lf c :
  all_chars (λ x, negb (Ascii.eqb x LF)) (escape_char c) = true.
Proof. each_char c. Qed.

Lemma append_nil_r (a : string) : a +:+ EmptyString = a.
Proof. induction a; simpl; [reflexivity|]. by f_equal. Qed.

Lemma all_chars_append p a b :
  all_chars p (a +:+ b) = all_chars p a && all_chars p b.
Proof. induction a; simpl; [reflexivity|]. rewrite IHa. by rewrite andb_assoc. Qed.

Lemma all_chars_impl (p q : ascii → bool) s :
  (∀ c, p c = true → q c = true) → all_chars p s = true → all_chars q s = true.
Proof.
  intros Hpq. induction s as [|c s IH]; simpl; [reflexivity|].
  intros [Hc Hs]%andb_prop. rewrite (Hpq c Hc). by apply IH.
Qed.

(** ** Quoted scalars are read back *)

Lemma read_double_hex h l rest :
  read_double (String BSL (String "x" (String h (String l rest))))
  = match hex_value h, hex_value l with
    | Some a, Some b => push (ascii_of_nat (16 * a + b)) (read_double rest)
    | _, _ => inl InvalidEscape
    end.
Proof. reflexivity. Qed.

Lemma read_double_escape_char c rest :
  read_double (escape_char c +:+ rest) = push c (read_double rest).
Proof.
  unfold escape_char.
  destruct (Ascii.eqb c BSL) eqn:Hb; [apply Ascii.eqb_eq in Hb as ->; reflexivity|].
  destruct (Ascii.eqb c DQ) eqn:Hq; [apply Ascii.eqb_eq in Hq as ->; reflexivity|].
  destruct (Ascii.eqb c LF) eqn:Hl; [apply Ascii.eqb_eq in Hl as ->; reflexivity|].
  destruct (Ascii.eqb c TAB) eqn:Ht; [apply Ascii.eqb_eq in Ht as ->; reflexivity|].
  destruct (is_printable c).
  - simpl. rewrite Hq, Hb. reflexivity.
  - pose proof (hex_round_trip c) as Hhex.
    cbn [append]. rewrite read_double_hex.
    destruct (hex_value (hex_digit (code c / 16))) as [a|]; [|discriminate].
    destruct (hex_value (hex_digit (code c mod 16))) as [b|]; [|discriminate].
    by inversion Hhex.
Qed.

Lemma read_double_escape s rest :
  read_double (escape_double s +:+ String DQ rest) = inr (s, rest).
Proof.
  induction s as [|c s IH]; simpl; [reflexivity|].
  rewrite append_assoc, read_double_escape_char, IH. reflexivity.
Qed.

Lemma read_single_escape s rest :
  match rest with String c _ => Ascii.eqb c SQ = false | EmptyString => True end →
  read_single (escape_single s +:+ String SQ rest) = inr (s, rest).
Proof.
  intros Hrest. induction s as [|c s IH]; simpl.
  - destruct rest as [|c2 rest]; [reflexivity|]. by rewrite Hrest.
  - destruct (Ascii.eqb c SQ) eqn:Hc.
    + apply Ascii.eqb_eq in Hc as ->. simpl. rewrite IH. reflexivity.
    + simpl. rewrite Hc, IH. reflexivity.
Qed.

(** ** Plain scalars are read back *)

Lemma starts_with_cons a p b s :
  starts_with (String a p) (String b s) = Ascii.eqb a b && starts_with p s.
Proof. reflexivity. Qed.

Lemma plain_safe_chars text :
  plain_safe text = true →
  ∃ c r, text = String c r ∧ plain_char c = true ∧ all_chars plain_char r = true
         ∧ (Ascii.eqb c "-" && ends_key r = false)
         ∧ (Ascii.eqb c "-" = true → starts_with "-" r = false).
Proof.
  destruct text as [|c r]; [discriminate|]. unfold plain_safe.
  intros [Hc Hr]%andb_prop. exists c, r. split; [reflexivity|].
  destruct (Ascii.eqb c "-") eqn:Hdash.
  - apply Ascii.eqb_eq in Hdash as ->.
    destruct r as [|d r]; [discriminate|].
    destruct (digit_plain d Hc) as [_ Hd]. pose proof (digit_not_space d Hc) as Hsp.
    split; [reflexivity|]. split; [exact Hr|]. split.
    + unfold ends_key. rewrite Hsp. reflexivity.
    + intros _. rewrite starts_with_cons, Ascii.eqb_sym, Hd. reflexivity.
  - split; [exact Hc|]. split; [exact Hr|]. split; [reflexivity|discriminate].
Qed.

Lemma find_colon_plain s :
  all_chars plain_char s = true → find_colon s = None.
Proof.
  induction s as [|c s IH]; simpl; [reflexivity|].
  intros [Hc Hs]%andb_prop.
  destruct (plain_char_not_special c Hc) as (_&_&_&_&_&_&Hcolon&_).
  rewrite Hcolon, IH by assumption. reflexivity.
Qed.

Lemma find_colon_key s rest :
  all_chars plain_char s = true → ends_key rest = true →
  find_colon (s +:+ String ":" rest) = Some (s, rest).
Proof.
  intros Hs Hrest. induction s as [|c s IH]; simpl.
  - unfold ends_key in Hrest. destruct rest; rewrite ?Hrest; reflexivity.
  - apply andb_prop in Hs as [Hc Hs].
    destruct (plain_char_not_special c Hc) as (_&_&_&_&_&_&Hcolon&_).
    rewrite Hcolon, IH by assumption. reflexivity.
Qed.

Lemma strip_comment_plain s :
  all_chars plain_char s = true → strip_comment s = s.
Proof.
  induction s as [|c s IH]; [reflexivity|].
  intros [Hc Hs]%andb_prop.
  destruct (plain_char_not_special c Hc) as (Hsp&_).
  destruct s as [|d s]; [reflexivity|].
  change (strip_comment (String c (String d s)))
    with (if Ascii.eqb c SP && Ascii.eqb d "#" then EmptyString
          else String c (strip_comment (String d s))).
  rewrite Hsp, IH by assumption. reflexivity.
Qed.

Lemma rtrim_plain s :
  all_chars plain_char s = true → rtrim s = s.
Proof.
  induction s as [|c s IH]; [reflexivity|].
  intros [Hc Hs]%andb_prop. simpl. rewrite IH by assumption.
  destruct (plain_char_not_special c Hc) as (Hsp&_). rewrite Hsp.
  destruct s; reflexivity.
Qed.

Lemma indentation_spaces n body :
  match body with String c _ => Ascii.eqb c SP = false | EmptyString => True end →
  indentation (spaces n +:+ body) = (n, body).
Proof.
  intros Hbody. induction n as [|n IH]; simpl.
  - destruct body as [|c r]; [reflexivity|]. simpl. by rewrite Hbody.
  - rewrite IH. reflexivity.
Qed.

Lemma scan_value_space s : scan_value (String SP s) = scan_value s.
Proof.
  unfold scan_value, skip_spaces. simpl indentation.
  destruct (indentation s) as [n r]. reflexivity.
Qed.

(** ** The lines of the dumper are scanned back *)

Ltac eval_eqb :=
  repeat match goal with
         | |- context [Ascii.eqb (Ascii ?a0 ?a1 ?a2 ?a3 ?a4 ?a5 ?a6 ?a7)
                         (Ascii ?b0 ?b1 ?b2 ?b3 ?b4 ?b5 ?b6 ?b7)] =>
             let v := eval vm_compute in
                        (Ascii.eqb (Ascii a0 a1 a2 a3 a4 a5 a6 a7)
                           (Ascii b0 b1 b2 b3 b4 b5 b6 b7)) in
             change (Ascii.eqb (Ascii a0 a1 a2 a3 a4 a5 a6 a7)
                       (Ascii b0 b1 b2 b3 b4 b5 b6 b7)) with v
         end;
  cbv iota.

(** [scan_value] on a text that starts with neither a space nor a
    property. *)
Lemma scan_value_eq c r :
  Ascii.eqb c SP = false → Ascii.eqb c "&" = false → Ascii.eqb c "!" = false →
  scan_value (String c r)
  = if Ascii.eqb c "#" then inr no_value
    else if Ascii.eqb c "*" then
      let '(w, r') := word r in
      if blank_or_comment r' then inr (just (TAlias w)) else inl UnexpectedCharacter
    else if Ascii.eqb c SQ then
      match read_single r with
      | inl k => inl k
      | inr (t, r') =>
          if blank_or_comment r' then inr (just (TScalar t SingleQuoted))
          else inl UnexpectedCharacter
      end
    else if Ascii.eqb c DQ then
      match read_double r with
      | inl k => inl k
      | inr (t, r') =>
          if blank_or_comment r' then inr (just (TScalar t DoubleQuoted))
          else inl UnexpectedCharacter
      end
    else if Ascii.eqb c "[" then
      if starts_with "]" r && blank_or_comment (drop_chars 1 r)
      then inr (just TEmptySeq) else inl UnexpectedCharacter
    else if Ascii.eqb c "{" then
      if starts_with "}" r && blank_or_comment (drop_chars 1 r)
      then inr (just TEmptyMap) else inl UnexpectedCharacter
    else if Ascii.eqb c ">" || Ascii.eqb c "|" then
      let '(ch, r') := match r with
                       | String "-" r' => (Strip, r')
                       | String "+" r' => (Keep, r')
                       | _ => (Clip, r)
                       end in
      if blank_or_comment r'
      then inr (Build_Value None None None (Some (Ascii.eqb c ">", ch)))
      else inl UnexpectedCharacter
    else
      let text := rtrim (strip_comment (String c r)) in
      match find_colon text with
      | Some _ => inl UnexpectedCharacter
      | None =>
          if Ascii.eqb c "-" && ends_key r then inl UnexpectedCharacter
          else inr (just (TScalar text Plain))
      end.
Proof.
  intros Hsp Hamp Hbang. unfold scan_value, skip_spaces.
  change (indentation (String c r))
    with (if Ascii.eqb c SP then let '(n, r0) := indentation r in (S n, r0)
          else (0, String c r)).
  rewrite Hsp. cbn [snd]. unfold read_prop. rewrite Hamp, Hbang.
  cbv beta iota zeta. rewrite Hamp. reflexivity.
Qed.

Lemma scan_value_plain text :
  plain_safe text = true → scan_value text = inr (just (TScalar text Plain)).
Proof.
  intros Hsafe.
  destruct (plain_safe_chars text Hsafe) as (c & r & -> & Hc & Hr & Hdash & _).
  assert (Hall : all_chars plain_char (String c r) = true)
    by (cbn [all_chars]; by rewrite Hc).
  destruct (plain_char_not_special c Hc)
    as (Hsp&Htab&Hlf&Hhash&Hsq&Hdq&Hcolon&Hamp&Hbang&Hstar&Hlb&Hlc&Hgt&Hbar&Hdot).
  rewrite scan_value_eq by assumption.
  rewrite Hhash, Hstar, Hsq, Hdq, Hlb, Hlc, Hgt, Hbar. cbn [orb]. cbv zeta.
  rewrite strip_comment_plain, rtrim_plain, find_colon_plain, Hdash by assumption.
  reflexivity.
Qed.

Lemma scan_value_single text :
  scan_value (String SQ (escape_single text +:+ String SQ EmptyString))
  = inr (just (TScalar text SingleQuoted)).
Proof.
  rewrite scan_value_eq by reflexivity. eval_eqb.
  rewrite read_single_escape by exact I. reflexivity.
Qed.

Lemma scan_value_double text :
  scan_value (String DQ (escape_double text +:+ String DQ EmptyString))
  = inr (just (TScalar text DoubleQuoted)).
Proof.
  rewrite scan_value_eq by reflexivity. eval_eqb.
  rewrite read_double_escape. reflexivity.
Qed.

Lemma scan_value_tok t :
  wf_tok t → scan_value (print_tok t) = inr (just t).
Proof.
  destruct t as [text [| | | |]| | |]; simpl; try contradiction; intros Hwf.
  - by apply scan_value_plain.
  - apply scan_value_single.
  - apply scan_value_double.
  - reflexivity.
  - reflexivity.
Qed.

Lemma scan_line_eq n c r :
  Ascii.eqb c SP = false →
  scan_line (spaces n +:+ String c r)
  = if Ascii.eqb c TAB then inl BadIndentation
    else if Ascii.eqb c "#" then inr SBlank
    else if Ascii.eqb c "-" && ends_key r then scanned n HDash (scan_value r)
    else if Ascii.eqb c SQ
         then scan_quoted_head n SingleQuoted (String c r) (read_single r)
    else if Ascii.eqb c DQ
         then scan_quoted_head n DoubleQuoted (String c r) (read_double r)
    else match find_colon (String c r) with
         | Some (k, after) => scanned n (HKey (rtrim k) Plain) (scan_value after)
         | None => scanned n HNone (scan_value (String c r))
         end.
Proof.
  intros Hsp. unfold scan_line. rewrite indentation_spaces by exact Hsp. reflexivity.
Qed.

Lemma scan_vpart v :
  match v with Some t => wf_tok t | None => True end →
  ends_key (vpart v) = true
  ∧ scan_value (vpart v) = inr (Build_Value None None v None).
Proof.
  destruct v as [t|]; simpl; intros Hwf.
  - split; [reflexivity|]. rewrite scan_value_space. by apply scan_value_tok.
  - split; reflexivity.
Qed.

Lemma dash_not_key c r x :
  Ascii.eqb c "-" && ends_key r = false →
  Ascii.eqb c "-" && ends_key (r +:+ String ":" x) = false.
Proof.
  destruct (Ascii.eqb c "-"); [|reflexivity]. simpl.
  destruct r as [|d r]; [discriminate|]. simpl. auto.
Qed.

Lemma scan_print_line l :
  wf_line l → scan_line (print_line l) = inr (SLine l None).
Proof.
  destruct l as [n h a tg v]. unfold wf_line, print_line.
  cbn [lindent lhead lanchor ltag lvalue]. intros (-> & -> & Hk & Hv).
  destruct h as [| |k style].
  - (* a value alone *)
    destruct v as [t|]; [|by destruct Hv].
    destruct t as [text [| | | |]| | |]; simpl in Hv; try contradiction.
    + destruct (plain_safe_chars text Hv) as (c & r & -> & Hc & Hr & Hdash & _).
      assert (Hall : all_chars plain_char (String c r) = true)
        by (cbn [all_chars]; by rewrite Hc).
      destruct (plain_char_not_special c Hc)
        as (Hsp&Htab&Hlf&Hhash&Hsq&Hdq&Hcolon&_).
      cbn [print_tok print_scalar].
      rewrite scan_line_eq by assumption.
      rewrite Htab, Hhash, Hdash, Hsq, Hdq, find_colon_plain by assumption.
      rewrite scan_value_plain by assumption. reflexivity.
    + cbn [print_tok print_scalar].
      rewrite scan_line_eq by reflexivity. eval_eqb. cbn [andb].
      rewrite read_single_escape by exact I. cbn [scan_quoted_head].
      rewrite scan_value_single. reflexivity.
    + cbn [print_tok print_scalar].
      rewrite scan_line_eq by reflexivity. eval_eqb. cbn [andb].
      rewrite read_double_escape. cbn [scan_quoted_head].
      rewrite scan_value_double. reflexivity.
    + cbn [print_tok]. rewrite scan_line_eq by reflexivity. reflexivity.
    + cbn [print_tok]. rewrite scan_line_eq by reflexivity. reflexivity.
  - (* a sequence entry *)
    assert (Hv' : match v with Some t => wf_tok t | None => True end)
      by (destruct v; [exact Hv|exact I]).
    destruct (scan_vpart v Hv') as [Hends Hscan].
    assert (Hbody : match v with
                    | Some t => "- " +:+ print_tok t
                    | None => "-"
                    end = String "-" (vpart v)) by (destruct v; reflexivity).
    rewrite Hbody, scan_line_eq by reflexivity. eval_eqb.
    rewrite Hends. cbn [andb]. rewrite Hscan. reflexivity.
  - (* a mapping entry *)
    assert (Hv' : match v with Some t => wf_tok t | None => True end)
      by (destruct v; [exact Hv|exact I]).
    destruct (scan_vpart v Hv') as [Hends Hscan].
    assert (Hbody : match v with
                    | Some t => print_scalar k style +:+ ": " +:+ print_tok t
                    | None => print_scalar k style +:+ ":"
                    end = print_scalar k style +:+ String ":" (vpart v))
      by (destruct v; reflexivity).
    rewrite Hbody. clear Hbody.
    destruct style; simpl in Hk; try contradiction.
    + destruct (plain_safe_chars k Hk) as (c & r & -> & Hc & Hr & Hdash & _).
      assert (Hall : all_chars plain_char (String c r) = true)
        by (cbn [all_chars]; by rewrite Hc).
      destruct (plain_char_not_special c Hc)
        as (Hsp&Htab&Hlf&Hhash&Hsq&Hdq&Hcolon&_).
      cbn [print_scalar append].
      rewrite scan_line_eq by assumption.
      rewrite Htab, Hhash, (dash_not_key _ _ _ Hdash), Hsq, Hdq.
      change (String c (r +:+ String ":" (vpart v)))
        with (String c r +:+ String ":" (vpart v)).
      rewrite find_colon_key, rtrim_plain, Hscan by assumption. reflexivity.
    + cbn [print_scalar append]. rewrite append_assoc. cbn [append].
      rewrite scan_line_eq by reflexivity. eval_eqb. cbn [andb].
      rewrite read_single_escape by reflexivity. cbn [scan_quoted_head].
      eval_eqb. rewrite Hends, Hscan. reflexivity.
    + cbn [print_scalar append]. rewrite append_assoc. cbn [append].
      rewrite scan_line_eq by reflexivity. eval_eqb. cbn [andb].
      rewrite read_double_escape. cbn [scan_quoted_head].
      eval_eqb. rewrite Hends, Hscan. reflexivity.
Qed.

(** ** The text of the dumper is split in the lines it was made of *)

Lemma no_lf_spaces n : no_lf (spaces n) = true.
Proof. induction n; [reflexivity|exact IHn]. Qed.

Lemma no_lf_plain s : all_chars plain_char s = true → no_lf s = true.
Proof.
  apply all_chars_impl. intros c Hc.
  destruct (plain_char_not_special c Hc) as (_&_&Hlf&_). by rewrite Hlf.
Qed.

Lemma no_lf_escape_single s : all_chars is_printable s = true → no_lf (escape_single s) = true.
Proof.
  induction s as [|c s IH]; simpl; [reflexivity|].
  intros [Hc Hs]%andb_prop. destruct (Ascii.eqb c SQ) eqn:Hq.
  - simpl. by apply IH.
  - unfold no_lf. cbn [all_chars]. rewrite (printable_not_lf c Hc). by apply IH.
Qed.

Lemma no_lf_escape_double s : no_lf (escape_double s) = true.
Proof.
  induction s as [|c s IH]; simpl; [reflexivity|].
  unfold no_lf. rewrite all_chars_append. fold (no_lf (escape_double s)).
  by rewrite escape_char_no_lf, IH.
Qed.

Lemma no_lf_scalar text style : wf_scalar text style → no_lf (print_scalar text style) = true.
Proof.
  destruct style; simpl; try contradiction; intros Hwf.
  - destruct (plain_safe_chars text Hwf) as (c & r & -> & Hc & Hr & _).
    apply no_lf_plain. cbn [all_chars]. by rewrite Hc.
  - unfold no_lf. cbn [all_chars]. rewrite all_chars_append.
    fold (no_lf (escape_single text)). by rewrite no_lf_escape_single.
  - unfold no_lf. cbn [all_chars]. rewrite all_chars_append.
    fold (no_lf (escape_double text)). by rewrite no_lf_escape_double.
Qed.

Lemma no_lf_tok t : wf_tok t → no_lf (print_tok t) = true.
Proof.
  destruct t; simpl; try contradiction; try reflexivity. apply no_lf_scalar.
Qed.

Lemma no_lf_line l : wf_line l → no_lf (print_line l) = true.
Proof.
  destruct l as [n h a tg v]. unfold wf_line, print_line.
  cbn [lindent lhead lanchor ltag lvalue]. intros (_ & _ & Hk & Hv).
  unfold no_lf. rewrite all_chars_append. fold (no_lf (spaces n)).
  rewrite no_lf_spaces. cbn [andb].
  destruct h as [| |k style], v as [t|];
    rewrite ?all_chars_append; cbn [all_chars];
    try fold (no_lf (print_tok t)); try fold (no_lf (print_scalar k style));
    rewrite ?no_lf_tok, ?no_lf_scalar by assumption; reflexivity.
Qed.

Lemma lines_line l text :
  no_lf l = true → lines (l +:+ String LF text) = l :: lines text.
Proof.
  induction l as [|c l IH]; simpl; [reflexivity|].
  intros [Hc Hl]%andb_prop. apply negb_true_iff in Hc. rewrite Hc, IH by assumption.
  reflexivity.
Qed.

Lemma lines_unlines ls :
  Forall (λ l, no_lf l = true) ls → lines (unlines ls) = ls.
Proof.
  induction 1 as [|l ls Hl _ IH]; simpl; [reflexivity|].
  unfold nl. cbn [append]. rewrite lines_line, IH by assumption. reflexivity.
Qed.

(** ** The text of the dumper is one document *)

(** How the text of a line of the dumper starts. *)
Lemma print_line_starts l :
  wf_line l →
  ∃ c r, print_line l = spaces (lindent l) +:+ String c r
         ∧ Ascii.eqb c SP = false ∧ Ascii.eqb c "#" = false
         ∧ Ascii.eqb c "." = false
         ∧ (Ascii.eqb c "-" = true → starts_with "-" r = false).
Proof.
  destruct l as [n h a tg v]. unfold wf_line, print_line.
  cbn [lindent lhead lanchor ltag lvalue]. intros (_ & _ & Hk & Hv).
  destruct h as [| |k style].
  - destruct v as [t|]; [|by destruct Hv].
    destruct t as [text [| | | |]| | |]; simpl in Hv; try contradiction;
      cbn [print_tok print_scalar]; try (eexists _, _; split; [reflexivity|];
                                          repeat split; discriminate).
    destruct (plain_safe_chars text Hv) as (c & r & -> & Hc & Hr & _ & Hdash).
    destruct (plain_char_not_special c Hc) as (Hsp&_&_&Hhash&_&_&_&_&_&_&_&_&_&_&Hdot).
    by exists c, r.
  - destruct v as [t|]; eexists _, _; (split; [reflexivity|]);
      repeat split; try reflexivity.
  - destruct style; simpl in Hk; try contradiction.
    + destruct (plain_safe_chars k Hk) as (c & r & -> & Hc & Hr & _ & Hdash).
      destruct (plain_char_not_special c Hc) as (Hsp&_&_&Hhash&_&_&_&_&_&_&_&_&_&_&Hdot).
      destruct v as [t|]; eexists c, _; cbn [print_scalar append];
        (split; [reflexivity|]); repeat split; try assumption;
        intros Hc'; specialize (Hdash Hc'); destruct r as [|d r]; try discriminate;
        cbn [append]; rewrite starts_with_cons in *; exact Hdash.
    + destruct v as [t|]; eexists _, _; cbn [print_scalar append];
        (split; [reflexivity|]); repeat split; discriminate.
    + destruct v as [t|]; eexists _, _; cbn [print_scalar append];
        (split; [reflexivity|]); repeat split; discriminate.
Qed.

Lemma skip_spaces_spaces n c r :
  Ascii.eqb c SP = false → skip_spaces (spaces n +:+ String c r) = String c r.
Proof. intros Hc. unfold skip_spaces. by rewrite indentation_spaces. Qed.

Lemma classify_line l : wf_line l → classify (print_line l) = KContent.
Proof.
  intros Hwf. destruct (print_line_starts l Hwf) as (c & r & -> & Hsp & _ & Hdot & Hdash).
  unfold classify. destruct (lindent l) as [|n].
  - cbn [spaces append]. rewrite !starts_with_cons.
    rewrite (Ascii.eqb_sym "." c), Hdot. cbn [andb].
    destruct (Ascii.eqb c "-") eqn:Hc.
    + apply Ascii.eqb_eq in Hc as ->.
      destruct r as [|d r]; [reflexivity|].
      specialize (Hdash eq_refl). rewrite starts_with_cons in Hdash.
      rewrite starts_with_cons. cbn [starts_with] in Hdash. rewrite andb_true_r in Hdash.
      rewrite Hdash. reflexivity.
    + rewrite (Ascii.eqb_sym "-" c), Hc. reflexivity.
  - reflexivity.
Qed.

Lemma not_blank_line l : wf_line l → blank_or_comment (print_line l) = false.
Proof.
  intros Hwf. destruct (print_line_starts l Hwf) as (c & r & -> & Hsp & Hhash & _).
  unfold blank_or_comment. rewrite skip_spaces_spaces by assumption. exact Hhash.
Qed.

Lemma split_docs_content nls : ∀ d,
  Forall (λ x, classify (snd x) = KContent) nls →
  split_docs (Some d) nls = [rev d ++ nls].
Proof.
  induction nls as [|[no raw] nls IH]; intros d Hall; simpl.
  - by rewrite app_nil_r.
  - inversion Hall as [|? ? Hraw Hrest]; subst. simpl in Hraw. rewrite Hraw.
    rewrite IH by assumption. simpl. by rewrite <- app_assoc.
Qed.

Lemma documents_of_dump ls :
  ls ≠ [] → Forall wf_line ls →
  documents (unlines (map print_line ls)) = [number_lines (map print_line ls)].
Proof.
  intros Hne Hwf. unfold documents.
  rewrite lines_unlines.
  2:{ apply Forall_map. eapply Forall_impl; [exact Hwf|]. apply no_lf_line. }
  assert (Hall : Forall (λ x : nat * string, classify (snd x) = KContent)
                   (number_lines (map print_line ls))).
  { unfold number_lines. apply Forall_forall. intros [no raw] Hin.
    apply list_elem_of_lookup in Hin as [i Hi].
    rewrite list_lookup_imap in Hi.
    destruct (map print_line ls !! i) as [raw'|] eqn:Hraw; [|discriminate].
    simpl in Hi. inversion Hi; subst.
    rewrite list_lookup_fmap in Hraw.
    destruct (ls !! i) as [l|] eqn:Hl; [|discriminate]. simpl in Hraw.
    inversion Hraw; subst. simpl. apply classify_line.
    eapply Forall_lookup_1; eassumption. }
  destruct ls as [|l ls]; [by destruct Hne|].
  inversion Hwf as [|? ? Hl Hls]; subst.
  unfold number_lines in *. simpl in *.
  inversion Hall as [|? ? Hc Hrest]; subst. simpl in Hc.
  rewrite Hc, not_blank_line by assumption.
  rewrite split_docs_content by assumption. reflexivity.
Qed.

(** ** The text of the dumper is scanned back *)

Lemma scan_from_lines ls : ∀ nls out,
  map snd nls = map print_line ls → Forall wf_line ls →
  ∃ mls, scan_from (out, None) nls = Ok (rev out ++ mls) ∧ map snd mls = ls.
Proof.
  induction ls as [|l ls IH]; intros nls out Hnls Hwf.
  - destruct nls; [|discriminate]. exists []. simpl. by rewrite app_nil_r.
  - destruct nls as [|[no raw] nls]; [discriminate|].
    simpl in Hnls. inversion Hnls as [[Hraw Hrest]]. subst raw.
    inversion Hwf as [|? ? Hl Hls]; subst.
    simpl. unfold scan_fresh. rewrite scan_print_line by assumption. simpl.
    destruct (IH nls ((mark_of no (print_line l), l) :: out) Hrest Hls)
      as (mls & Hscan & Hmls).
    exists ((mark_of no (print_line l), l) :: mls). split.
    + rewrite Hscan. simpl. by rewrite <- app_assoc.
    + simpl. by rewrite Hmls.
Qed.

Lemma snd_number_lines (xs : list string) : map snd (number_lines xs) = xs.
Proof.
  unfold number_lines. change (map snd) with (fmap (M := list) (@snd nat string)).
  rewrite fmap_imap. rewrite (imap_ext _ (const id)) by done.
  rewrite imap_const. apply list_fmap_id.
Qed.

Lemma scan_of_dump ls :
  Forall wf_line ls →
  ∃ mls, scan (number_lines (map print_line ls)) = Ok mls ∧ map snd mls = ls.
Proof.
  intros Hwf. unfold scan.
  destruct (scan_from_lines ls (number_lines (map print_line ls)) []) as (mls & H1 & H2).
  - apply snd_number_lines.
  - exact Hwf.
  - by exists mls.
Qed.

(** ** Scalars of the default schema *)

Lemma digits_of_uint d : all_chars is_digit (NilEmpty.string_of_uint d) = true.
Proof. induction d; simpl; try reflexivity; exact IHd. Qed.

Lemma string_of_uint_digits d :
  ∃ c r, NilZero.string_of_uint d = String c r
         ∧ is_digit c = true ∧ all_chars is_digit r = true.
Proof.
  pose proof (digits_of_uint d) as Hd.
  destruct d; simpl in *; eexists _, _; (split; [reflexivity|]); split;
    try reflexivity; assumption.
Qed.

Lemma print_int_shape n :
  ∃ c r, print_int n = String c r
         ∧ (is_digit c || Ascii.eqb c "-") = true
         ∧ plain_safe (String c r) = true.
Proof.
  unfold print_int. destruct n as [|p|p]; simpl.
  - eexists _, _. split; [reflexivity|]. split; reflexivity.
  - destruct (string_of_uint_digits (Pos.to_uint p)) as (c & r & -> & Hc & Hr).
    exists c, r. split; [reflexivity|]. rewrite Hc. split; [reflexivity|].
    unfold plain_safe. destruct (digit_plain c Hc) as [Hp Hd]. rewrite Hd, Hp.
    cbn [andb]. revert Hr. apply all_chars_impl. intros x Hx. by apply digit_plain.
  - destruct (string_of_uint_digits (Pos.to_uint p)) as (c & r & -> & Hc & Hr).
    eexists _, _. split; [reflexivity|]. split; [reflexivity|].
    unfold plain_safe. eval_eqb. rewrite Hc. cbn [andb all_chars].
    destruct (digit_plain c Hc) as [Hp _]. rewrite Hp. cbn [andb].
    revert Hr. apply all_chars_impl. intros x Hx. by apply digit_plain.
Qed.

Lemma read_print_int n : read_int (print_int n) = Some n.
Proof.
  unfold read_int, print_int. rewrite NilZero.isi.
  - simpl. by rewrite DecimalZ.of_to.
  - destruct n; simpl; try discriminate.
    intros H. inversion H as [H']. by apply Unsigned.to_uint_nonnil in H'.
  - destruct n; simpl; try discriminate.
    intros H. inversion H as [H']. by apply Unsigned.to_uint_nonnil in H'.
Qed.

Lemma digitish_not_letter c :
  (is_digit c || Ascii.eqb c "-") = true →
  Ascii.eqb c "~" = false ∧ Ascii.eqb c "n" = false ∧ Ascii.eqb c "N" = false
  ∧ Ascii.eqb c "t" = false ∧ Ascii.eqb c "T" = false ∧ Ascii.eqb c "f" = false
  ∧ Ascii.eqb c "F" = false ∧ Ascii.eqb c "y" = false ∧ Ascii.eqb c "Y" = false
  ∧ Ascii.eqb c "o" = false ∧ Ascii.eqb c "O" = false.
Proof. each_char c; intros _; repeat split. Qed.

Lemma string_eqb_cons c r d s :
  String.eqb (String c r) (String d s) = if Ascii.eqb c d then String.eqb r s else false.
Proof. reflexivity. Qed.

Lemma implicit_type_default text :
  implicit_type default_schema text
  = if td_resolve null_type text then Some null_type
    else if td_resolve bool_type text then Some bool_type
    else if td_resolve int_type text then Some int_type
    else Some str_type.
Proof.
  unfold implicit_type, default_schema. cbn [types find td_kind null_type bool_type
    int_type str_type kind_eqb andb].
  destruct (td_resolve null_type text); [reflexivity|].
  destruct (td_resolve bool_type text); [reflexivity|].
  destruct (td_resolve int_type text); reflexivity.
Qed.

Lemma int_is_no_word c r :
  (is_digit c || Ascii.eqb c "-") = true →
  td_resolve null_type (String c r) = false
  ∧ td_resolve bool_type (String c r) = false
  ∧ ambiguous default_schema (String c r) = false.
Proof.
  intros Hc.
  destruct (digitish_not_letter c Hc) as (H1&H2&H3&H4&H5&H6&H7&H8&H9&H10&H11).
  unfold ambiguous. cbn [default_schema deprecated existsb legacy_bool_type
    td_resolve null_type bool_type one_of].
  rewrite !string_eqb_cons, H1, H2, H3, H4, H5, H6, H7, H8, H9, H10, H11.
  repeat split.
Qed.

Lemma render_scalar_default p :
  ∃ text style,
    render_scalar default_schema p = Some (text, style)
    ∧ wf_scalar text style
    ∧ construct_scalar default_schema None text style = inr p
    ∧ (style = Plain → ambiguous default_schema text = false).
Proof.
  destruct p as [|[]|n|s].
  - exists "null", Plain. repeat split.
  - exists "true", Plain. repeat split.
  - exists "false", Plain. repeat split.
  - destruct (print_int_shape n) as (c & r & Hshape & Hc & Hsafe).
    destruct (int_is_no_word c r Hc) as (Hnull & Hbool & Hamb).
    rewrite <- Hshape in Hsafe, Hnull, Hbool, Hamb.
    assert (Himp : implicit_type default_schema (print_int n) = Some int_type).
    { rewrite implicit_type_default, Hnull, Hbool.
      cbn [td_resolve int_type]. by rewrite read_print_int. }
    exists (print_int n), Plain.
    assert (Hr : render_scalar default_schema (PNum n) = Some (print_int n, Plain)).
    { unfold render_scalar. cbn [default_schema types find td_kind td_predicate
        null_type bool_type int_type kind_eqb andb td_represent fst snd].
      unfold choose_style, plain_legal. rewrite Himp, Hsafe, Hamb. reflexivity. }
    split; [exact Hr|]. split; [exact Hsafe|]. split.
    + unfold construct_scalar. rewrite Himp. unfold construct_with.
      cbn [td_construct int_type]. by rewrite read_print_int.
    + intros _. exact Hamb.
  - assert (Hr : render_scalar default_schema (PStr s)
                 = Some (s, if plain_legal default_schema str_type s then Plain
                            else quoted_style s)) by reflexivity.
    destruct (plain_legal default_schema str_type s) eqn:Hlegal.
    + exists s, Plain. split; [exact Hr|].
      unfold plain_legal in Hlegal.
      apply andb_prop in Hlegal as [Hlegal Hamb].
      apply andb_prop in Hlegal as [Hsafe Htag].
      apply negb_true_iff in Hamb.
      split; [exact Hsafe|]. split; [|by intros _].
      unfold construct_scalar. rewrite implicit_type_default in *.
      destruct (td_resolve null_type s); [discriminate|].
      destruct (td_resolve bool_type s); [discriminate|].
      destruct (td_resolve int_type s); [discriminate|]. reflexivity.
    + exists s, (quoted_style s). split; [exact Hr|].
      unfold quoted_style. destruct (all_chars is_printable s) eqn:Hp.
      * repeat split; [exact Hp|discriminate].
      * repeat split. discriminate.
Qed.

(** ** The lines of the dumper are parsed back *)

Lemma Data_ind' (P : Data → Prop) :
  (∀ p, P (DPrim p)) →
  (∀ items, Forall P items → P (DSeq items)) →
  (∀ entries, Forall (λ kv, P (snd kv)) entries → P (DMap entries)) →
  ∀ v, P v.
Proof.
  intros Hp Hs Hm. fix IH 1. intros [p|items|entries].
  - apply Hp.
  - apply Hs. induction items as [|i items IHi]; constructor; [apply IH|exact IHi].
  - apply Hm. induction entries as [|[k v] entries IHe]; constructor; [apply IH|exact IHe].
Qed.

Lemma rmap_ok {A B} (f : A → Result B) l bs :
  Forall2 (λ a b, f a = Ok b) l bs → rmap f l = Ok bs.
Proof.
  induction 1 as [|a b l bs Hab _ IH]; simpl; [reflexivity|].
  by rewrite Hab, IH.
Qed.

Lemma group_app n nested rest :
  Forall (λ x : MLine, n < lindent (snd x)) nested →
  group n (nested ++ rest) = (nested ++ fst (group n rest), snd (group n rest)).
Proof.
  induction 1 as [|x nested Hx _ IH]; simpl.
  - by destruct (group n rest).
  - rewrite IH. apply Nat.leb_gt in Hx. rewrite Hx. reflexivity.
Qed.

Lemma group_entry n (m : Mark) hl mnested mrest groups :
  lindent hl = n →
  Forall (λ x : MLine, n < lindent (snd x)) mnested →
  group n mrest = ([], groups) →
  group n ((m, hl) :: mnested ++ mrest) = ([], ((m, hl), mnested) :: groups).
Proof.
  intros Hn Hnested Hrest. cbn [group]. rewrite group_app, Hrest by assumption.
  cbn [fst snd]. rewrite Hn, Nat.leb_refl, app_nil_r. reflexivity.
Qed.

Lemma foldr_max_bound {B} (depth : B → nat) (d : nat) (bs : list B) :
  foldr (λ b k, Nat.max (depth b) k) 0 bs ≤ d → Forall (λ b, depth b ≤ d) bs.
Proof.
  induction bs as [|b bs IH]; simpl; [constructor|].
  intros H. constructor; [lia|apply IH; lia].
Qed.

Section Dumped.
Variable o : DumpOptions.
Hypothesis schema_default : dumpSchema o = default_schema.
Hypothesis keys_unsorted : sortKeys o = SortNone.
Hypothesis indent_positive : 1 ≤ indent o.

Lemma entry_lines_wf d n h r v :
  h ≠ HNone →
  match h with HKey k style => wf_scalar k style | _ => True end →
  rendered_ok d (n + indent o) v r →
  Forall (λ l, wf_line l ∧ n ≤ lindent l) (entry_lines n h r).
Proof.
  intros Hh Hk Hr. destruct r as [t|ls]; simpl in Hr |- *.
  - destruct Hr as [Hwf Hnode].
    constructor; [|constructor]. split; [|simpl; lia].
    unfold wf_line. simpl. by repeat split.
  - destruct Hr as (_ & Hlines & Hnode). constructor.
    + split; [|simpl; lia]. unfold wf_line. simpl. by repeat split.
    + eapply Forall_impl; [exact Hlines|]. simpl. intros l [Hl Hn]. split; [exact Hl|lia].
Qed.

Lemma entry_rendered d n h r v (mchunk : list MLine) :
  h ≠ HNone →
  match h with HKey k style => wf_scalar k style | _ => True end →
  rendered_ok d (n + indent o) v r →
  map snd mchunk = entry_lines n h r →
  Forall (λ l, wf_line l ∧ n ≤ lindent l) (entry_lines n h r)
  ∧ ∃ m hl mnested,
      mchunk = (m, hl) :: mnested
      ∧ lindent hl = n ∧ lhead hl = h
      ∧ Forall (λ x : MLine, n < lindent (snd x)) mnested
      ∧ ∃ node, entry_value d n (parse_block d) ((m, hl), mnested) = Ok node
                ∧ denotes v node.
Proof.
  intros Hh Hk Hr Hchunk. destruct r as [t|ls]; simpl in Hr, Hchunk |- *.
  - destruct Hr as [Hwf Hnode]. split.
    + constructor; [|constructor]. split; [|simpl; lia].
      unfold wf_line. simpl. by repeat split.
    + destruct mchunk as [|[m hl] [|]]; try discriminate.
      simpl in Hchunk. inversion Hchunk as [Hhl]. subst hl.
      eexists m, _, []. split; [reflexivity|]. repeat split; try constructor.
      unfold entry_value. simpl. rewrite Nat.eqb_refl. simpl. apply Hnode.
  - destruct Hr as (_ & Hlines & Hnode). split.
    + constructor.
      * split; [|simpl; lia]. unfold wf_line. simpl. by repeat split.
      * eapply Forall_impl; [exact Hlines|]. simpl. intros l [Hl Hn]. split; [exact Hl|lia].
    + destruct mchunk as [|[m hl] mnested]; [discriminate|].
      simpl in Hchunk. inversion Hchunk as [[Hhl Hnested]]. subst hl.
      eexists m, _, mnested. split; [reflexivity|]. split; [reflexivity|].
      split; [reflexivity|]. split.
      * rewrite <- Hnested in Hlines. apply Forall_map in Hlines.
        eapply Forall_impl; [exact Hlines|]. simpl. intros x [_ Hx]. lia.
      * unfold entry_value. simpl. rewrite Nat.eqb_refl. simpl. by apply Hnode.
Qed.

Lemma seq_entries d n (items : list Data) :
  Forall (λ i, ∃ r, render o d (n + indent o) i = Ok (Some r)
                    ∧ rendered_ok d (n + indent o) i r) items →
  ∃ rs,
    rmap (render o d (n + indent o)) items = Ok (map Some rs)
    ∧ length rs = length items
    ∧ Forall (λ l, wf_line l ∧ n ≤ lindent l) (concat (map (entry_lines n HDash) rs))
    ∧ ∀ mls : list MLine,
        map snd mls = concat (map (entry_lines n HDash) rs) →
        ∃ groups nodes,
          group n mls = ([], groups)
          ∧ Forall2 (λ g node, seq_entry d n (parse_block d) g = Ok node) groups nodes
          ∧ Forall2 denotes items nodes
          ∧ match mls with
            | [] => items = []
            | (_, hl) :: _ => lhead hl = HDash ∧ lindent hl = n
            end.
Proof.
  induction 1 as [|i items (r & Hrender & Hr) _ (rs & Hrs & Hlen & Hlines & Hparse)].
  - exists []. repeat split; try constructor.
    intros mls Hmls. destruct mls; [|discriminate]. exists [], []. repeat split; constructor.
  - exists (r :: rs). split; [|split; [|split]].
    + simpl. by rewrite Hrender, Hrs.
    + simpl. by rewrite Hlen.
    + simpl. apply Forall_app. split; [|exact Hlines].
      by eapply (entry_lines_wf d n HDash r i).
    + intros mls Hmls. simpl in Hmls.
      apply fmap_app_inv in Hmls as (mchunk & mrest & Hchunk & Hrest & ->).
      destruct (entry_rendered d n HDash r i mchunk) as (_ & m & hl & mnested & -> & Hn & Hh & Hdeep & node & Hnode & Hden);
        try done.
      destruct (Hparse mrest (eq_sym Hrest)) as (groups & nodes & Hgroup & Hnodes & Hdens & _).
      exists (((m, hl), mnested) :: groups), (node :: nodes).
      split; [|split; [|split]].
      * simpl app. by apply group_entry.
      * constructor; [|exact Hnodes]. unfold seq_entry. cbn [fst snd]. by rewrite Hh.
      * by constructor.
      * simpl. by split.
Qed.

Lemma map_entries d n (entries : list (string * Data)) :
  Forall (λ kv, ∃ r, render o d (n + indent o) (snd kv) = Ok (Some r)
                     ∧ rendered_ok d (n + indent o) (snd kv) r) entries →
  ∃ rs lss,
    rmap (λ kv, r ←r render o d (n + indent o) (snd kv); Ok (fst kv, r)) entries = Ok rs
    ∧ rmap (λ kr : string * option Rendered,
              match snd kr with
              | None => Ok []
              | Some r =>
                  match render_scalar (dumpSchema o) (PStr (fst kr)) with
                  | Some (text, style) => Ok (entry_lines n (HKey text style) r)
                  | None => unrepresentable o []
                  end
              end) rs = Ok lss
    ∧ Forall (λ l, wf_line l ∧ n ≤ lindent l) (concat lss)
    ∧ ∀ mls : list MLine,
        map snd mls = concat lss →
        ∃ groups nodes,
          group n mls = ([], groups)
          ∧ Forall2 (λ g node, map_entry d n (parse_block d) g = Ok node) groups nodes
          ∧ Forall2 (λ e p, denotes (DPrim (PStr (fst e))) (fst p)
                            ∧ denotes (snd e) (snd p)) entries nodes
          ∧ match mls with
            | [] => entries = []
            | (_, hl) :: _ => (∃ k style, lhead hl = HKey k style) ∧ lindent hl = n
            end.
Proof.
  induction 1 as [|[k v] entries (r & Hrender & Hr) _ (rs & lss & Hrs & Hlss & Hlines & Hparse)].
  - exists [], []. repeat split; try constructor.
    intros mls Hmls. destruct mls; [|discriminate]. exists [], []. repeat split; constructor.
  - simpl in Hrender, Hr.
    destruct (render_scalar_default (PStr k)) as (text & style & Hkey & Hwf & Hcons & Hamb).
    exists ((k, Some r) :: rs), (entry_lines n (HKey text style) r :: lss).
    split; [|split; [|split]].
    + simpl. by rewrite Hrender, Hrs.
    + simpl. rewrite Hlss, schema_default, Hkey. reflexivity.
    + simpl. apply Forall_app. split; [|exact Hlines].
      by eapply (entry_lines_wf d n (HKey text style) r v).
    + intros mls Hmls. simpl in Hmls.
      apply fmap_app_inv in Hmls as (mchunk & mrest & Hchunk & Hrest & ->).
      destruct (entry_rendered d n (HKey text style) r v mchunk)
        as (_ & m & hl & mnested & -> & Hn & Hh & Hdeep & node & Hnode & Hden);
        try done.
      destruct (Hparse mrest (eq_sym Hrest)) as (groups & nodes & Hgroup & Hnodes & Hdens & _).
      exists (((m, hl), mnested) :: groups),
             ((Scalar None None text style m, node) :: nodes).
      split; [|split; [|split]].
      * simpl app. by apply group_entry.
      * constructor; [|exact Hnodes]. unfold map_entry. cbn [fst snd].
        rewrite Hh, Hnode. reflexivity.
      * constructor; [|exact Hdens]. simpl. split; [|exact Hden]. by constructor.
      * simpl. split; [by eexists _, _|exact Hn].
Qed.

Lemma render_ok v : ∀ d n,
  data_depth v ≤ d →
  ∃ r, render o d n v = Ok (Some r) ∧ rendered_ok d n v r.
Proof.
  induction v as [p|items IH|entries IH] using Data_ind'; intros d n Hd.
  - destruct (render_scalar_default p) as (text & style & Hr & Hwf & Hcons & Hamb).
    exists (Inline (TScalar text style)). split.
    + cbn [render]. rewrite schema_default, Hr. reflexivity.
    + split; [exact Hwf|]. intros m. eexists. split; [reflexivity|]. by constructor.
  - simpl in Hd. destruct d as [|d]; [lia|].
    apply le_S_n, foldr_max_bound in Hd.
    destruct items as [|i items].
    + exists (Inline TEmptySeq). split; [reflexivity|]. split; [exact I|].
      intros m. eexists. split; [reflexivity|]. constructor. constructor.
    + destruct (seq_entries d n (i :: items)) as (rs & Hrs & Hlen & Hlines & Hparse).
      { apply Forall_forall. intros x Hx.
        eapply Forall_forall in IH; [|exact Hx].
        eapply Forall_forall in Hd; [|exact Hx]. by apply IH. }
      exists (Block (concat (map (entry_lines n HDash) rs))). split.
      * cbn [render]. rewrite Hrs. cbn [rbind]. do 3 f_equal.
        rewrite map_map. reflexivity.
      * assert (Hne : concat (map (entry_lines n HDash) rs) ≠ []).
        { destruct rs as [|[t|ls] rs]; discriminate. }
        split; [exact Hne|]. split; [exact Hlines|]. intros mls pm Hmls.
        destruct (Hparse mls Hmls) as (groups & nodes & Hgroup & Hnodes & Hdens & Hfirst).
        destruct mls as [|[m hl] mls]; [by destruct Hne|]. destruct Hfirst as [Hh Hn].
        exists (Sequence None None nodes m). split; [|by constructor].
        rewrite parse_block_eq, Hh, Hn, Hgroup. cbn [snd].
        by rewrite (rmap_ok _ _ _ Hnodes).
  - simpl in Hd. destruct d as [|d]; [lia|].
    apply le_S_n, (foldr_max_bound (λ kv : string * Data, data_depth (snd kv))) in Hd.
    destruct entries as [|e entries].
    + exists (Inline TEmptyMap). split; [reflexivity|]. split; [exact I|].
      intros m. eexists. split; [reflexivity|]. constructor. constructor.
    + destruct (map_entries d n (e :: entries)) as (rs & lss & Hrs & Hlss & Hlines & Hparse).
      { apply Forall_forall. intros x Hx.
        eapply Forall_forall in IH; [|exact Hx].
        eapply Forall_forall in Hd; [|exact Hx]. by apply IH. }
      exists (Block (concat lss)). split.
      * cbn [render]. rewrite Hrs. cbn [rbind]. rewrite keys_unsorted. cbn [ordered].
        rewrite Hlss. reflexivity.
      * assert (Hne : concat lss ≠ []).
        { intros Hnil. destruct (Hparse [] (eq_sym Hnil)) as (_ & _ & _ & _ & _ & H).
          discriminate. }
        split; [exact Hne|]. split; [exact Hlines|]. intros mls pm Hmls.
        destruct (Hparse mls Hmls) as (groups & nodes & Hgroup & Hnodes & Hdens & Hfirst).
        destruct mls as [|[m hl] mls]; [by destruct Hne|].
        destruct Hfirst as [(k & style & Hh) Hn].
        exists (Mapping None None nodes m). split; [|by constructor].
        rewrite parse_block_eq, Hh, Hn, Hgroup. cbn [snd].
        by rewrite (rmap_ok _ _ _ Hnodes).
Qed.

End Dumped.

(** ** The nodes of the dumper are constructed to the value *)

Lemma with_store_same st : with_store st (store st ++ []) = st.
Proof. destruct st. unfold with_store. simpl. by rewrite app_nil_r. Qed.

Lemma reads_as_extend base sto more x v :
  reads_as base sto x v → reads_as base (sto ++ more) x v.
Proof.
  intros Hx T f Hf HS. apply Hx; [exact Hf|].
  intros i Hi. rewrite HS by (rewrite length_app; lia).
  apply lookup_app_l. lia.
Qed.

Lemma reads_as_later base base' sto x v :
  base ≤ base' → reads_as base' sto x v → reads_as base sto x v.
Proof.
  intros Hb Hx T f Hf HS. apply Hx; [exact Hf|]. intros i Hi. apply HS. lia.
Qed.

Lemma reads_all base sto S f xs items :
  Forall2 (λ x v, reads_as base sto x v) xs items →
  Forall (λ v, data_depth v ≤ f) items →
  same_on base (length sto) S sto →
  Forall2 (λ x v, reify f S x = Some v) xs items.
Proof.
  intros Hreads Hf HS. induction Hreads as [|x v xs items Hx _ IH]; [constructor|].
  inversion Hf; subst. constructor; [by apply Hx|by apply IH].
Qed.

Lemma reads_all_entries base sto T f (xs : list (string * Val)) entries :
  Forall2 (λ kx e, fst kx = fst e ∧ reads_as base sto (snd kx) (snd e)) xs entries →
  Forall (λ e : string * Data, data_depth (snd e) ≤ f) entries →
  same_on base (length sto) T sto →
  Forall2 (λ kx e, pair (fst kx) <$> reify f T (snd kx) = Some e) xs entries.
Proof.
  intros Hreads Hf HS.
  induction Hreads as [|[k x] [k' v] xs entries [Hk Hx] _ IH]; [constructor|].
  inversion Hf; subst. simpl in *. subst k'. constructor; [|by apply IH].
  simpl. by rewrite (Hx T f).
Qed.

Section Constructed.
Variable o : LoadOptions.
Hypothesis schema_default : schema o = default_schema.

Lemma construct_prim p text style m :
  construct_scalar default_schema None text style = inr p →
  (style = Plain → ambiguous default_schema text = false) →
  ∀ st, construct o (Scalar None None text style m) st = Done (VPrim p) st.
Proof.
  intros Hcons Hamb st. cbn [construct]. unfold bind at 1.
  assert (Hcheck : check_ambiguity o None text style m st = Done tt st).
  { unfold check_ambiguity. rewrite schema_default.
    destruct style; try reflexivity. by rewrite Hamb. }
  rewrite Hcheck, schema_default, Hcons. reflexivity.
Qed.

Lemma construct_items_denotes items ns :
  Forall2 (λ v node, constructs o v node) items ns →
  ∀ st, ∃ objs xs,
    construct_items (construct o) ns st = Done xs (with_store st (store st ++ objs))
    ∧ Forall2 (λ x v, reads_as (length (store st)) (store st ++ objs) x v) xs items.
Proof.
  induction 1 as [|v node items ns Hv _ IH]; intros st.
  - exists [], []. split; [|constructor]. simpl. unfold ret. by rewrite with_store_same.
  - destruct (Hv st) as (objs1 & x & Hx & Hreads).
    destruct (IH (with_store st (store st ++ objs1))) as (objs2 & xs & Hxs & Hall).
    exists (objs1 ++ objs2), (x :: xs). split.
    + cbn [construct_items]. unfold bind at 1. rewrite Hx. unfold bind at 1.
      rewrite Hxs. unfold ret, with_store. simpl. by rewrite app_assoc.
    + simpl in Hall. constructor.
      * rewrite app_assoc. by apply reads_as_extend.
      * rewrite app_assoc. eapply Forall2_impl; [exact Hall|].
        intros x' v' Hx'. eapply reads_as_later; [|exact Hx'].
        rewrite length_app. lia.
Qed.

Lemma has_key_app k acc more :
  has_key k (acc ++ more) = has_key k acc || has_key k more.
Proof. unfold has_key. apply existsb_app. Qed.

Lemma set_entry_new k x acc :
  has_key k acc = false → set_entry k x acc = acc ++ [(k, x)].
Proof.
  induction acc as [|[k' x'] acc IH]; simpl; [reflexivity|].
  intros [Hk Hacc]%orb_false_elim. rewrite Hk, IH by assumption. reflexivity.
Qed.

Lemma construct_pairs_denotes entries ps :
  Forall2 (λ e p, denotes (DPrim (PStr (fst e))) (fst p) ∧ constructs o (snd e) (snd p))
    entries ps →
  NoDup (map fst entries) →
  ∀ st acc,
    Forall (λ e, has_key (fst e) acc = false) entries →
    ∃ objs xs,
      construct_pairs o (construct o) ps acc st
      = Done (acc ++ xs) (with_store st (store st ++ objs))
      ∧ Forall2 (λ kx e, fst kx = fst e
                         ∧ reads_as (length (store st)) (store st ++ objs) (snd kx) (snd e))
          xs entries.
Proof.
  induction 1 as [|[k v] [kn vn] entries ps [Hk Hv] _ IH]; intros Hnodup st acc Hacc.
  - exists [], []. split; [|constructor]. simpl. unfold ret.
    by rewrite with_store_same, app_nil_r.
  - simpl in Hk, Hv, Hnodup. inversion Hnodup as [|? ? Hfresh Hnodup']; subst.
    inversion Hacc as [|? ? Hkacc Hacc']; subst. simpl in Hkacc.
    inversion Hk as [p text style m Hcons Hamb| |]; subst.
    destruct (Hv st) as (objs1 & x & Hx & Hreads).
    destruct (IH Hnodup' (with_store st (store st ++ objs1)) (acc ++ [(k, x)]))
      as (objs2 & xs & Hxs & Hall).
    { apply Forall_forall. intros e He. rewrite has_key_app.
      eapply Forall_forall in Hacc'; [|exact He]. rewrite Hacc'.
      unfold has_key. cbn [existsb fst orb]. rewrite orb_false_r.
      apply String.eqb_neq. intros Heq. apply Hfresh. rewrite <- Heq.
      apply list_elem_of_In, in_map. by apply list_elem_of_In. }
    exists (objs1 ++ objs2), ((k, x) :: xs). split.
    + cbn [construct_pairs fst snd]. unfold bind at 1.
      rewrite (construct_prim (PStr k) text style m Hcons Hamb). cbn [key_string prim_text].
      unfold bind at 1. rewrite Hx. unfold bind at 1. rewrite Hkacc. unfold ret at 1.
      rewrite set_entry_new by assumption. rewrite Hxs.
      unfold with_store. simpl. by rewrite <- !app_assoc.
    + simpl in Hall. constructor.
      * split; [reflexivity|]. simpl. rewrite app_assoc. by apply reads_as_extend.
      * rewrite app_assoc. eapply Forall2_impl; [exact Hall|].
        intros x' v' [Hk' Hx']. split; [exact Hk'|].
        eapply reads_as_later; [|exact Hx']. rewrite length_app. lia.
Qed.

Lemma insert_placeholder (sto objs : list Obj) (a b : Obj) :
  <[length sto := b]> ((sto ++ [a]) ++ objs) = sto ++ [b] ++ objs.
Proof.
  rewrite <- app_assoc. rewrite insert_app_r_alt by lia.
  rewrite Nat.sub_diag. reflexivity.
Qed.

Lemma reads_as_behind sto a b objs x v :
  reads_as (length (sto ++ [a])) ((sto ++ [a]) ++ objs) x v →
  reads_as (S (length sto)) (sto ++ [b] ++ objs) x v.
Proof.
  intros Hx T f Hf HS. apply Hx; [exact Hf|]. intros i Hi.
  rewrite !length_app in Hi. simpl in Hi.
  rewrite HS by (rewrite !length_app; simpl; lia).
  rewrite <- (app_assoc sto [a] objs).
  rewrite (lookup_app_r sto ([b] ++ objs)), (lookup_app_r sto ([a] ++ objs)) by lia.
  destruct (i - length sto) as [|j] eqn:Hj; [lia|]. reflexivity.
Qed.

Lemma constructs_denotes v : ∀ node,
  denotes v node → distinct_keys v → constructs o v node.
Proof.
  induction v as [p|items IH|entries IH] using Data_ind'; intros node Hden Hkeys.
  - inversion Hden as [p' text style m Hcons Hamb| |]; subst. intros st.
    exists [], (VPrim p). rewrite with_store_same. split.
    + by apply construct_prim.
    + intros T f _ _. destruct f; reflexivity.
  - inversion Hden as [|items' ns m Hall|]; subst. intros st.
    assert (Hitems : Forall2 (λ v node, constructs o v node) items ns).
    { clear Hden. revert IH Hkeys. induction Hall as [|v node items ns Hv _ IHall];
        intros IH Hkeys; [constructor|].
      inversion IH; subst. simpl in Hkeys. destruct Hkeys as [Hk Hks].
      constructor; [by auto|by apply IHall]. }
    destruct (construct_items_denotes items ns Hitems
                (with_store st (store st ++ [OSeq []]))) as (objs & xs & Hxs & Hreads).
    exists ([OSeq xs] ++ objs), (VRef (length (store st))). split.
    + cbn [construct]. unfold bind at 1. cbn [check_tag]. unfold ret at 1.
      rewrite bind_alloc. unfold bind at 1. cbn [register]. unfold bind at 1.
      fold (with_store st (store st ++ [OSeq []])). rewrite Hxs.
      unfold bind, fill, ret, with_store. simpl.
      by rewrite insert_placeholder.
    + intros T f Hf HS. simpl in Hf. destruct f as [|f]; [lia|].
      cbn [reify]. rewrite HS by (rewrite !length_app; simpl; lia).
      rewrite lookup_app_r by lia. rewrite Nat.sub_diag. simpl.
      erewrite mapM_Some_2; [reflexivity|].
      apply le_S_n, foldr_max_bound in Hf.
      apply (reads_all (S (length (store st))) (store st ++ [OSeq xs] ++ objs));
        [|exact Hf|].
      * eapply Forall2_impl; [exact Hreads|]. intros x v Hx.
        by apply (reads_as_behind (store st) (OSeq [])).
      * intros i Hi. apply HS. lia.
  - inversion Hden as [| |entries' ps m Hall]; subst. intros st.
    simpl in Hkeys. destruct Hkeys as [Hnodup Hkeys].
    assert (Hentries : Forall2 (λ e p, denotes (DPrim (PStr (fst e))) (fst p)
                                       ∧ constructs o (snd e) (snd p)) entries ps).
    { clear Hden Hnodup. revert IH Hkeys.
      induction Hall as [|e p entries ps [Hk Hv] _ IHall];
        intros IH Hkeys; [constructor|].
      inversion IH; subst. simpl in Hkeys. destruct Hkeys as [Hk' Hks].
      constructor; [split; [exact Hk|by auto]|by apply IHall]. }
    destruct (construct_pairs_denotes entries ps Hentries Hnodup
                (with_store st (store st ++ [OMap []])) [])
      as (objs & xs & Hxs & Hreads).
    { apply Forall_forall. intros e _. reflexivity. }
    exists ([OMap xs] ++ objs), (VRef (length (store st))). split.
    + cbn [construct]. unfold bind at 1. cbn [check_tag]. unfold ret at 1.
      rewrite bind_alloc. unfold bind at 1. cbn [register]. unfold bind at 1.
      fold (with_store st (store st ++ [OMap []])). rewrite Hxs.
      unfold bind, fill, ret, with_store. simpl.
      by rewrite insert_placeholder.
    + intros T f Hf HS. simpl in Hf. destruct f as [|f]; [lia|].
      cbn [reify]. rewrite HS by (rewrite !length_app; simpl; lia).
      rewrite lookup_app_r by lia. rewrite Nat.sub_diag. simpl.
      erewrite mapM_Some_2; [reflexivity|].
      apply le_S_n, (foldr_max_bound (λ kv : string * Data, data_depth (snd kv))) in Hf.
      simpl in Hreads.
      apply (reads_all_entries (S (length (store st))) (store st ++ [OMap xs] ++ objs));
        [|exact Hf|].
      * eapply Forall2_impl; [exact Hreads|]. intros kx e [Hk Hx]. split; [exact Hk|].
        by apply (reads_as_behind (store st) (OMap [])).
      * intros i Hi. apply HS. lia.
Qed.

End Constructed.

(** ** Round trip *)

Lemma denotes_depth v : ∀ node, denotes v node → node_depth node = data_depth v.
Proof.
  induction v as [p|items IH|entries IH] using Data_ind'; intros node Hden.
  - by inversion Hden.
  - inversion Hden as [|items' ns m Hall|]; subst. simpl. f_equal. clear Hden.
    induction Hall as [|v node items ns Hv _ IHall]; [reflexivity|].
    inversion IH as [|? ? Hhead Htail]; subst. simpl.
    rewrite (Hhead node Hv), (IHall Htail). reflexivity.
  - inversion Hden as [| |entries' ps m Hall]; subst. simpl. f_equal. clear Hden.
    induction Hall as [|e p entries ps [Hk Hv] _ IHall]; [reflexivity|].
    inversion IH as [|? ? Hhead Htail]; subst. simpl.
    rewrite (Hhead (snd p) Hv), (IHall Htail). inversion Hk; subst. reflexivity.
Qed.

Lemma dump_lines_ok (o : DumpOptions) (v : Data) :
  dumpSchema o = default_schema → sortKeys o = SortNone → 1 ≤ indent o →
  data_depth v ≤ dumpMaxDepth o →
  ∃ ls, dump_lines o v = Ok ls
        ∧ ls ≠ [] ∧ Forall wf_line ls
        ∧ ∀ mls D, map snd mls = ls → data_depth v ≤ D →
            ∃ node, parse D mls = Ok node ∧ denotes v node.
Proof.
  intros Hs Hk Hi Hd.
  destruct (render_ok o Hs Hk Hi v (dumpMaxDepth o) 0 Hd) as (r & Hr & Hok).
  assert (Hany : ∀ mls node D, parse_block (dumpMaxDepth o) None None no_mark mls = Ok node →
                   denotes v node → data_depth v ≤ D →
                   parse D mls = Ok node).
  { intros mls node D Hnode Hden HD. unfold parse.
    apply (parse_block_guard (dumpMaxDepth o) D None None no_mark mls node Hnode).
    by rewrite (denotes_depth v node Hden). }
  unfold dump_lines. rewrite Hr. cbn [rbind].
  destruct r as [t|ls]; simpl in Hok.
  - destruct Hok as [Hwf Hnode]. eexists. split; [reflexivity|].
    split; [discriminate|]. split.
    + constructor; [|constructor]. unfold wf_line. simpl. by repeat split.
    + intros mls D Hmls HD. destruct mls as [|[m l] [|]]; try discriminate.
      simpl in Hmls. inversion Hmls as [Hl]. subst l.
      destruct (Hnode m) as (node & Htok & Hden). exists node. split; [|exact Hden].
      apply Hany; try assumption. rewrite parse_block_eq. exact Htok.
  - destruct Hok as (Hne & Hlines & Hnode). exists ls. split; [reflexivity|].
    split; [exact Hne|]. split.
    + eapply Forall_impl; [exact Hlines|]. by intros l [Hl _].
    + intros mls D Hmls HD. destruct (Hnode mls no_mark Hmls) as (node & Hparse & Hden).
      exists node. split; [|exact Hden]. by apply Hany.
Qed.


(** ** Beyond the configured depth *)

Lemma rmap_all {A B} (f : A → Result B) (l : list A) (bs : list B) :
  rmap f l = Ok bs → Forall (λ a, ∃ b, f a = Ok b) l.
Proof.
  revert bs. induction l as [|a l IH]; intros bs Hbs; [constructor|].
  simpl in Hbs. destruct (f a) as [b|] eqn:Hfa; [|discriminate]. simpl in Hbs.
  destruct (rmap f l) as [bs'|] eqn:Hfl; [|discriminate].
  constructor; [by exists b|by apply (IH bs')].
Qed.

(** The dumper descends no further than its depth budget. *)
Lemma render_depth (o : DumpOptions) (v : Data) :
  ∀ d n r, render o d n v = Ok r → data_depth v ≤ d.
Proof.
  induction v as [p|items IH|entries IH] using Data_ind'; intros d n r Hr.
  - simpl. lia.
  - destruct d as [|d']; [discriminate|]. simpl. apply le_n_S.
    apply (foldr_max_le data_depth).
    destruct items as [|i items]; [constructor|].
    cbn [render] in Hr.
    destruct (rmap (render o d' (n + indent o)) (i :: items)) as [rs|] eqn:Hrs;
      [|discriminate].
    apply rmap_all in Hrs.
    rewrite Forall_forall in IH, Hrs. apply Forall_forall. intros x Hx.
    destruct (Hrs x Hx) as [rx Hrx]. by apply (IH x Hx _ _ _ Hrx).
  - destruct d as [|d']; [discriminate|]. simpl. apply le_n_S.
    apply (foldr_max_le (λ kv : string * Data, data_depth kv.2)).
    destruct entries as [|e entries]; [constructor|].
    cbn [render] in Hr.
    destruct (rmap (λ kv : string * Data,
                      r0 ←r render o d' (n + indent o) kv.2; Ok (kv.1, r0))
                (e :: entries)) as [rs|] eqn:Hrs; [|discriminate].
    apply rmap_all in Hrs.
    rewrite Forall_forall in IH, Hrs. apply Forall_forall. intros x Hx.
    destruct (Hrs x Hx) as [rx Hrx].
    destruct (render o d' (n + indent o) x.2) as [r0|] eqn:Hr0; [|discriminate].
    by apply (IH x Hx _ _ _ Hr0).
Qed.

Lemma dump_depth (o : DumpOptions) (v : Data) (text : string) :
  dump o v = Ok text → data_depth v ≤ dumpMaxDepth o.
Proof.
  unfold dump, dump_lines. intros H.
  destruct (render o (dumpMaxDepth o) 0 v) as [r|] eqn:Hr; [|discriminate].
  by apply render_depth in Hr.
Qed.



Lemma nest_depth (k : nat) : data_depth (nest k) = S k.
Proof. induction k as [|k IH]; [reflexivity|]. simpl. rewrite IH. lia. Qed.

Lemma render_nest (o : DumpOptions) :
  ∀ d k n, d ≤ k → ∃ m, render o d n (nest k) = Err DepthExceededError m.
Proof.
  induction d as [|d IH]; intros k n Hk.
  - destruct k; by eexists.
  - destruct k as [|k]; [lia|]. cbn [nest render rmap].
    destruct (IH k (n + indent o)) as [m Hm]; [lia|]. rewrite Hm. by eexists.
Qed.

(** Whatever the maximum is, a value nested one deeper is not dumped. *)
Lemma dump_beyond_depth (D : nat) :
  ∃ m, dump (default_dump D) (nest D) = Err DepthExceededError m.
Proof.
  unfold dump, dump_lines.
  destruct (render_nest (default_dump D) (dumpMaxDepth (default_dump D)) D 0) as [m Hm];
    [reflexivity|].
  rewrite Hm. by eexists.
Qed.



(** ** Concrete documents *)


(** The anchored mapping and its alias are one reference of the store,
    and a mapping can hold itself. *)
Example shared_text_loads :
  load (default_load 100) shared_text
  = Done (VRef 0)
      {| store := [OMap [("base", VRef 1); ("copy", VRef 1); ("self", VRef 2)];
                   OMap [("k", VPrim (PStr "v"))];
                   OMap [("me", VRef 2)]];
         anchors := <["s" := VRef 2]> (<["a" := VRef 1]> ∅);
         delivered := [] |}.
Proof. vm_compute. reflexivity. Qed.


(** A key given twice: with a hook that returns, the load goes on and the
    later value stands; with the hook of the test, the warning is what
    the load raises. *)
Example duplicate_key_tolerated :
  ∃ w, load (lenient_load tolerate) duplicate_text
       = Done (VRef 0) {| store := [OMap [("a", VPrim (PNum 2))]]; anchors := ∅;
                          delivered := [w] |}
       ∧ fault w = ConstructError DuplicateKey.
Proof. eexists. split; [vm_compute; reflexivity|reflexivity]. Qed.

Example duplicate_key_rethrown :
  ∃ w st, load (lenient_load rethrow) duplicate_text = Raised (Yaml w) st
          ∧ fault w = ConstructError DuplicateKey
          ∧ delivered st = [w].
Proof. eexists _, _. split; [vm_compute; reflexivity|]. by split. Qed.

Example ambiguity_tolerated :
  ∃ w, load (lenient_load tolerate) ambiguous_text
       = Done (VRef 0) {| store := [OMap [("x", VPrim (PStr "yes"))]]; anchors := ∅;
                          delivered := [w] |}
       ∧ fault w = ConstructError ImplicitTypeAmbiguity.
Proof. eexists. split; [vm_compute; reflexivity|reflexivity]. Qed.


(** ** What a failed load raises *)

Section FailureShape.
Variable o : LoadOptions.
Hypothesis hook_rethrows : onWarning o = None ∨ onWarning o = Some rethrow.

Local Abbreviation format_exception :=
  (λ (t : Thrown) (_ : LoadState), ∃ f m, t = Yaml (exception (filename o) f m)).

Lemma warn_format_exception f m st :
  post (λ _, True) format_exception (warn o f m st).
Proof.
  unfold warn. destruct hook_rethrows as [-> | ->]; simpl; [exact Logic.I|].
  by eexists _, _.
Qed.

Lemma load_document_format_exception doc st :
  post (λ _, True) format_exception (load_document o doc st).
Proof.
  unfold load_document. apply post_bind.
  { destruct (scan doc) as [toks|f m]; simpl; [exact Logic.I|]. by eexists _, _. }
  intros toks st1 _. apply post_bind.
  { destruct (parse (maxDepth o) toks) as [n|f m]; simpl; [exact Logic.I|].
    by eexists _, _. }
  intros n st2 _. apply post_bind; [exact Logic.I|]. intros _ st3 _.
  apply (construct_post o (λ _, True) format_exception (λ _, True) 0);
    try (intros; exact Logic.I).
  - intros. lia.
  - intros. apply warn_format_exception.
  - intros m st'. unfold duplicate_key.
    destruct (fatalDuplicateKeys o); [by eexists _, _|]. intros. apply warn_format_exception.
  - intros f m st' _ _. by eexists _, _.
  - apply Forall_forall. done.
Qed.

(** Whatever [load] or [loadAll] raises, with no hook or with the hook of
    11-load-errors.js, is a format exception with the fields of §6, and
    its message holds the file name of the options. *)
Lemma load_failure_shape (text : string) (t : Thrown) (st : LoadState) :
  load o text = Raised t st ∨ snd (loadAll o text) = Raised t st →
  ∃ e, t = Yaml e
       ∧ name e = "FormatException"
       ∧ reason e = reason_of (fault e)
       ∧ (∃ before after, message e = before +:+ filename o +:+ after)
       ∧ (∃ after, message e
                   = reason e +:+ " in " +:+ filename o +:+ " at line "
                     +:+ print_nat (line (mark e)) +:+ ", column "
                     +:+ print_nat (column (mark e)) +:+ after).
Proof.
  intros Hraised.
  assert (∃ f m, t = Yaml (exception (filename o) f m)) as (f & m & ->).
  { destruct Hraised as [H|H].
    - unfold load in H. destruct (documents text) as [|doc docs]; [discriminate|].
      pose proof (load_document_format_exception doc initial) as Hp.
      rewrite H in Hp. exact Hp.
    - unfold loadAll in H.
      destruct (loadAll_from_calls o (documents text) 0 [] initial)
        as (news & _ & _ & _ & Hk).
      rewrite H in Hk. destruct Hk as (doc & st0 & _ & Hdoc).
      pose proof (load_document_format_exception doc st0) as Hp.
      rewrite Hdoc in Hp. exact Hp. }
  eexists. split; [reflexivity|]. split; [reflexivity|]. split; [reflexivity|].
  simpl. unfold format_message. split.
  - exists (reason_of f +:+ " in "). eexists. rewrite append_assoc. reflexivity.
  - eexists. reflexivity.
Qed.

End FailureShape.

(* ===================================================================== *)
(** ** distinct and union, further                                         *)
(* ===================================================================== *)

Section CollectionFacts.
Context {T : Type} `{EqDecision T}.
Import Collections.

Lemma first_occurrences_sublist (l : list T) : first_occurrences l `sublist_of` l.
Proof.
  induction l as [|x l IH]; simpl; [constructor|].
  apply sublist_skip. etrans; [apply sublist_filter|exact IH].
Qed.

Lemma filter_other_id (x : T) (l : list T) : x ∉ l → filter (λ y, y ≠ x) l = l.
Proof.
  induction l as [|y l IH]; [done|]. rewrite not_elem_of_cons. intros [Hne Hx].
  rewrite filter_cons, decide_True by congruence. by rewrite IH.
Qed.

Lemma first_occurrences_NoDup_id (l : list T) : NoDup l → first_occurrences l = l.
Proof.
  induction 1 as [|x l Hx _ IH]; simpl; [done|].
  by rewrite IH, filter_other_id.
Qed.

(** X1. [distinct] returns the elements of the array, each once, in the
    order of their first occurrence; an element at the end is kept when
    it is new. *)
Theorem distinct_keeps_first_occurrences (array : list T) :
  NoDup (distinct array)
  ∧ (∀ x, x ∈ distinct array ↔ x ∈ array)
  ∧ distinct array `sublist_of` array
  ∧ (∀ x, distinct (array ++ [x])
          = if decide (x ∈ array) then distinct array else distinct array ++ [x]).
Proof.
  rewrite distinct_first_occurrences. split; [apply NoDup_first_occurrences|].
  split; [intros x; apply elem_of_first_occurrences|].
  split; [apply first_occurrences_sublist|].
  intros x. rewrite distinct_first_occurrences, first_occurrences_app. simpl.
  rewrite filter_cons, filter_nil.
  destruct (decide (x ∈ array)) as [Hin|Hnot].
  - rewrite decide_False by (intros Hn; by apply Hn). by rewrite app_nil_r.
  - by rewrite decide_True.
Qed.

(** X2. [distinct] changes nothing the second time, leaves exactly the
    arrays without duplicates as they are, and never returns a longer
    array. *)
Theorem distinct_idempotent (array : list T) :
  distinct (distinct array) = distinct array
  ∧ (distinct array = array ↔ NoDup array)
  ∧ length (distinct array) ≤ length array.
Proof.
  rewrite !distinct_first_occurrences. split; [|split].
  - apply first_occurrences_NoDup_id, NoDup_first_occurrences.
  - split.
    + intros <-. apply NoDup_first_occurrences.
    + apply first_occurrences_NoDup_id.
  - apply sublist_length, first_occurrences_sublist.
Qed.

(** [union], in one equation. *)
Lemma union_result (h : gmap ref (list T)) (ra rb : ref) (a b : list T) :
  h !! ra = Some a → h !! rb = Some b →
  union ra rb h
  = Some (first_occurrences (a ++ b), <[rb := []]> (<[ra := []]> h)).
Proof.
  intros Ha Hb. unfold union. rewrite Ha. simpl. rewrite drain_foldl.
  destruct (decide (ra = rb)) as [->|Hne].
  - assert (a = b) as <- by congruence.
    rewrite lookup_insert_eq. simpl. unfold array_from, set_new.
    rewrite foldl_set_add. cbn [app].
    by rewrite filter_not_elem_nil, first_occurrences_twice.
  - rewrite lookup_insert_ne by assumption. rewrite Hb. simpl. rewrite drain_foldl.
    unfold array_from, set_new. rewrite <- foldl_app, foldl_set_add. cbn [app].
    by rewrite filter_not_elem_nil.
Qed.

(** X3. [union(a, b)] returns what [distinct] returns for [a] followed
    by [b]; for one and the same array given twice, what [distinct]
    returns for it. *)
Theorem union_is_distinct_of_concat (h : gmap ref (list T)) (ra rb : ref)
    (a b : list T) :
  h !! ra = Some a → h !! rb = Some b →
  ∃ h', union ra rb h = Some (distinct (a ++ b), h')
        ∧ (ra = rb → distinct (a ++ b) = distinct a).
Proof.
  intros Ha Hb. rewrite (union_result h ra rb a b Ha Hb).
  eexists. split; [by rewrite distinct_first_occurrences|].
  intros ->. assert (a = b) as <- by congruence.
  by rewrite !distinct_first_occurrences, first_occurrences_twice.
Qed.

(** X4. A second [union] of the same two arrays returns the empty
    array, the first one having emptied them. *)
Theorem union_again_is_empty (h h' : gmap ref (list T)) (ra rb : ref)
    (a b result : list T) :
  h !! ra = Some a → h !! rb = Some b →
  union ra rb h = Some (result, h') →
  union ra rb h' = Some ([], h').
Proof.
  intros Ha Hb Hunion. rewrite (union_result h ra rb a b Ha Hb) in Hunion.
  inversion Hunion; subst. clear Hunion.
  assert (Ha' : <[rb := []]> (<[ra := @nil T]> h) !! ra = Some []).
  { destruct (decide (ra = rb)) as [->|Hne]; [apply lookup_insert_eq|].
    rewrite lookup_insert_ne by congruence. apply lookup_insert_eq. }
  rewrite (union_result _ ra rb [] [] Ha' (lookup_insert_eq _ _ _)). simpl.
  f_equal. f_equal. apply map_eq. intros r.
  destruct (decide (r = rb)) as [->|Hb']; [by rewrite !lookup_insert_eq|].
  destruct (decide (r = ra)) as [->|Ha''].
  - rewrite (lookup_insert_ne _ rb) by congruence. rewrite lookup_insert_eq.
    rewrite (lookup_insert_ne _ rb) by congruence. by rewrite lookup_insert_eq.
  - by rewrite !lookup_insert_ne by congruence.
Qed.

(** X5. [union(b, a)] returns the elements of [union(a, b)] in another
    order, and leaves the same arrays behind. *)
Theorem union_swap_permutation (h : gmap ref (list T)) (ra rb : ref) (a b : list T) :
  h !! ra = Some a → h !! rb = Some b →
  ∃ r1 r2 h',
    union ra rb h = Some (r1, h') ∧ union rb ra h = Some (r2, h') ∧ r1 ≡ₚ r2.
Proof.
  intros Ha Hb. rewrite (union_result h ra rb a b Ha Hb), (union_result h rb ra b a Hb Ha).
  eexists _, _, _. split; [reflexivity|]. split.
  - f_equal. f_equal. destruct (decide (ra = rb)) as [->|Hne]; [done|].
    by apply insert_insert_ne.
  - apply NoDup_Permutation; try apply NoDup_first_occurrences.
    intros x. rewrite !elem_of_first_occurrences, !elem_of_app. tauto.
Qed.

End CollectionFacts.

(* ===================================================================== *)
(** ** isMaybe, further                                                    *)
(* ===================================================================== *)

Section IsMaybeMore.
Import TypeDecoders.
Context {A R E : Type}.
Variable Options : Type.
Variable applyOptionsToDecoderErrors :
  list (DecoderError (JsValue A)) → Options → list (DecoderError (JsValue A)).
Variable undefinedDecoder nullDecoder :
  JsValue A → DecoderResult (JsValue R) (JsValue A).

(** What is_exactly.ts is taken to do, as above. *)
Hypothesis undefinedDecoder_hit :
  undefinedDecoder JsUndefined = DecoderSuccess JsUndefined.
Hypothesis undefinedDecoder_miss :
  ∀ v, v ≠ JsUndefined → isDecoderSuccess (undefinedDecoder v) = false.
Hypothesis nullDecoder_hit :
  nullDecoder JsNull = DecoderSuccess JsNull.
Hypothesis nullDecoder_miss :
  ∀ v, v ≠ JsNull → isDecoderSuccess (nullDecoder v) = false.

Local Abbreviation isMaybe' :=
  (isMaybe Options applyOptionsToDecoderErrors undefinedDecoder nullDecoder).
Local Abbreviation isMaybePromise' :=
  (isMaybePromise (E := E) Options applyOptionsToDecoderErrors
     undefinedDecoder nullDecoder).

(** X6. Whatever the options, [isMaybe(d)] succeeds on exactly
    [undefined], on exactly [null] and on the values [d] succeeds on, and
    on no other. *)
Theorem isMaybe_succeeds_iff
    (d : JsValue A → DecoderResult R (JsValue A)) (options : Options)
    (value : JsValue A) :
  isDecoderSuccess (fst (isMaybe' d options value)) = true
  ↔ value = JsUndefined ∨ value = JsNull ∨ isDecoderSuccess (d value) = true.
Proof.
  unfold isMaybe. destruct value as [| |a].
  - rewrite undefinedDecoder_hit. simpl. tauto.
  - rewrite undefinedDecoder_miss by discriminate. rewrite nullDecoder_hit. simpl. tauto.
  - rewrite undefinedDecoder_miss, nullDecoder_miss by discriminate.
    unfold tbind, consult, tret. destruct (d (JsOther a)) as [r|errors]; simpl.
    + tauto.
    + split; [discriminate|]. intros [H|[H|H]]; discriminate.
Qed.

(** X7. For a decoder that answers with a promise, exactly [undefined]
    and exactly [null] are accepted without the decoder being called;
    otherwise it is called once, its rejection is the rejection of the
    result, and what it is fulfilled with is treated as the result of a
    decoder that answers at once. *)
Theorem isMaybePromise_settles
    (d : JsValue A → Promise E (DecoderResult R (JsValue A))) (options : Options)
    (value : JsValue A) :
  match value with
  | JsUndefined =>
      isMaybePromise' d options value = (Fulfilled (DecoderSuccess JsUndefined), [])
  | JsNull =>
      isMaybePromise' d options value = (Fulfilled (DecoderSuccess JsNull), [])
  | JsOther _ =>
      isMaybePromise' d options value
      = (match d value with
         | Fulfilled result => Fulfilled (fst (isMaybe' (λ _, result) options value))
         | Rejected e => Rejected e
         | Unsettled => Unsettled
         end, [value])
  end.
Proof.
  unfold isMaybePromise, isMaybe. destruct value as [| |a].
  - by rewrite undefinedDecoder_hit.
  - rewrite undefinedDecoder_miss by discriminate. by rewrite nullDecoder_hit.
  - rewrite undefinedDecoder_miss, nullDecoder_miss by discriminate.
    unfold tbind, consult, tret. destruct (d (JsOther a)) as [[r|errors]|e|]; reflexivity.
Qed.

End IsMaybeMore.

(* ===================================================================== *)
(** ** sum                                                                *)
(* ===================================================================== *)

Section SumFacts.
Import MathSum.
Context {Big Raw : Type}.
Variable newBig : BigSource Big Raw → Big.
Variable plus : Big → BigSource Big Raw → Big.
Variable toString : Big → string.
Variable zero : Raw.
Variable raw_toString : Raw → string.

Local Abbreviation sum' := (sum Big Raw newBig plus toString zero raw_toString).
Local Abbreviation add' := (add Big Raw newBig plus).

Lemma foldl_add_big (values : list (BigSource Big Raw)) (b : Big) :
  foldl add' (inr b) values = inr (foldl plus b values).
Proof. revert b. induction values as [|v values IH]; intros b; [done|]. apply IH. Qed.

Lemma sum_folds_plus (values : list (BigSource Big Raw)) :
  sum' values
  = match values with
    | [] => "0"
    | _ => toString (foldl plus (newBig (inl zero)) values)
    end.
Proof.
  destruct values as [|v values]; [reflexivity|].
  unfold sum. cbn [length Nat.eqb foldl]. unfold add at 2.
  by rewrite foldl_add_big.
Qed.

(** What big/mod.ts is taken to do: every [Big] and every source stands
    for a number of a commutative monoid [M] under addition; [new Big]
    keeps the number, [plus] adds, [toString] prints the number, and the
    number 0 prints as [0]. *)
Variable M : Type.
Variable madd : M → M → M.
Variable mzero : M.
Variable number : Big → M.
Variable source : BigSource Big Raw → M.
Variable print : M → string.
Hypothesis madd_assoc : ∀ a b c, madd a (madd b c) = madd (madd a b) c.
Hypothesis madd_comm : ∀ a b, madd a b = madd b a.
Hypothesis madd_zero : ∀ a, madd mzero a = a.
Hypothesis newBig_number : ∀ s, number (newBig s) = source s.
Hypothesis plus_number : ∀ b s, number (plus b s) = madd (number b) (source s).
Hypothesis toString_number : ∀ b, toString b = print (number b).
Hypothesis zero_source : source (inl zero) = mzero.
Hypothesis zero_prints : print mzero = "0".

Lemma foldl_plus_number (values : list (BigSource Big Raw)) (b : Big) :
  number (foldl plus b values) = foldl madd (number b) (map source values).
Proof.
  revert b. induction values as [|v values IH]; intros b; [done|].
  simpl. by rewrite IH, plus_number.
Qed.

Lemma foldl_madd_from (a : M) (l : list M) :
  foldl madd a l = madd a (foldl madd mzero l).
Proof.
  revert a. induction l as [|x l IH]; intros a; simpl.
  - by rewrite madd_comm, madd_zero.
  - rewrite IH, (IH (madd mzero x)), madd_zero. by rewrite madd_assoc.
Qed.

Lemma foldl_madd_perm (l l' : list M) :
  l ≡ₚ l' → foldl madd mzero l = foldl madd mzero l'.
Proof.
  induction 1 as [|x l l' _ IH|x y l|l1 l2 l3 _ IH1 _ IH2]; simpl.
  - done.
  - by rewrite (foldl_madd_from (madd mzero x) l), (foldl_madd_from (madd mzero x) l'), IH.
  - rewrite !madd_zero, (foldl_madd_from (madd y x)), (foldl_madd_from (madd x y)).
    by rewrite (madd_comm x y).
  - by rewrite IH1.
Qed.

(** X8. [sum] prints the sum of its values, added from left to right
    onto 0; the sum of no value is [0]. *)
Theorem sum_adds_up (values : list (BigSource Big Raw)) :
  sum' values = print (foldl madd mzero (map source values)).
Proof.
  rewrite sum_folds_plus. destruct values as [|v values]; [simpl; by rewrite zero_prints|].
  by rewrite toString_number, foldl_plus_number, newBig_number, zero_source.
Qed.

(** X9. The order of the values makes no difference to [sum]. *)
Theorem sum_order_irrelevant (values values' : list (BigSource Big Raw)) :
  values ≡ₚ values' → sum' values = sum' values'.
Proof.
  intros Hperm. rewrite !sum_folds_plus.
  destruct values as [|v values], values' as [|v' values'].
  - done.
  - by apply Permutation_nil_cons in Hperm.
  - symmetry in Hperm. by apply Permutation_nil_cons in Hperm.
  - rewrite !toString_number, !foldl_plus_number, newBig_number, zero_source.
    f_equal. apply foldl_madd_perm. by apply fmap_Permutation.
Qed.

End SumFacts.

(* ===================================================================== *)
(** ** walkSync                                                            *)
(* ===================================================================== *)

Section WalkFacts.
Import Walk.
Context {RegExp Err : Type}.
Variable test : RegExp → string → bool.
Variable readDirSync : string → Try Err (list FileInfo).
Variable readlinkSync : string → Try Err string.
Variable statSync : string → Try Err FileInfo.

Local Abbreviation walkSync' := (walkSync test readDirSync readlinkSync statSync).
Local Abbreviation each' := (each test readlinkSync statSync).
Local Abbreviation Run' := (Run RegExp Err).

(** An entry that may be yielded under the options [o]. *)
Local Abbreviation included o :=
  (λ f : FileInfo, isFile f = true ∧ include test f o = true).

(** The errors that reach [onError] when the directories [vs] are read. *)
Local Abbreviation heard o vs :=
  (match onError o with Some _ => failures readDirSync vs | None => [] end).

Lemma set_maxDepth_same (o : WalkOptions RegExp Err) : set_maxDepth o (maxDepth o) = o.
Proof. by destruct o. Qed.

Lemma lowered_app (j k : nat) (n : JsNumber) :
  lowered (j + k) n = lowered k (lowered j n).
Proof.
  unfold lowered. rewrite Nat.add_comm. apply Nat.iter_add.
Qed.

Lemma grows_refl (r : Run') : grows r r [] [] [].
Proof.
  unfold grows. rewrite !app_nil_r. simpl. by rewrite set_maxDepth_same.
Qed.

Lemma grows_trans (r r1 r2 : Run') ys1 vs1 es1 ys2 vs2 es2 :
  grows r r1 ys1 vs1 es1 → grows r1 r2 ys2 vs2 es2 →
  grows r r2 (ys1 ++ ys2) (vs1 ++ vs2) (es1 ++ es2).
Proof.
  intros (Hy1 & Hv1 & He1 & Ho1) (Hy2 & Hv2 & He2 & Ho2).
  unfold grows. rewrite Hy2, Hy1, Hv2, Hv1, He2, He1, Ho2, Ho1, !app_assoc.
  repeat split. rewrite length_app, lowered_app. reflexivity.
Qed.

Lemma grows_enter (dir : string) (r : Run') :
  grows r (visit dir (decrement r)) [] [dir] [].
Proof. unfold grows. simpl. by rewrite !app_nil_r. Qed.

Lemma grows_yield (f : FileInfo) (r : Run') : grows r (yield f r) [f] [] [].
Proof.
  unfold grows. simpl. rewrite !app_nil_r, set_maxDepth_same. done.
Qed.

Lemma grows_report (e : Err) (r : Run') : grows r (report e r) [] [] [e].
Proof.
  unfold grows. simpl. rewrite !app_nil_r, set_maxDepth_same. done.
Qed.

Lemma grows_options (r r' : Run') ys vs es :
  grows r r' ys vs es →
  exts (options r') = exts (options r)
  ∧ match_ (options r') = match_ (options r)
  ∧ skip (options r') = skip (options r)
  ∧ onError (options r') = onError (options r)
  ∧ followSymlinks (options r') = followSymlinks (options r)
  ∧ (∀ f, include test f (options r') = include test f (options r)).
Proof. intros (_ & _ & _ & ->). by repeat split. Qed.

Lemma failures_app (xs ys : list string) :
  failures readDirSync (xs ++ ys) = failures readDirSync xs ++ failures readDirSync ys.
Proof. apply omap_app. Qed.

(** What a call of [walkSync] on a directory adds to a run. *)
Local Abbreviation walk_grows walk :=
  (∀ dir (r r' : Run'),
     final (walk dir r) = Some r' →
     ∃ ys vs es, grows r r' ys (dir :: vs) es
                 ∧ Forall (included (options r)) ys
                 ∧ es = heard (options r) (dir :: vs)).

Lemma each_grows walk :
  walk_grows walk →
  ∀ ls (r r' : Run'),
    final (each' walk ls r) = Some r' →
    ∃ ys vs es, grows r r' ys vs es
                ∧ Forall (included (options r)) ys
                ∧ es = heard (options r) vs.
Proof.
  intros Hwalk. induction ls as [|f rest IH]; intros r r' Hfinal.
  { inversion Hfinal; subst. exists [], [], []. split; [apply grows_refl|].
    split; [constructor|]. by destruct (onError _). }
  assert (Hskip : final (each' walk rest r) = Some r' →
                  ∃ ys vs es, grows r r' ys vs es
                              ∧ Forall (included (options r)) ys
                              ∧ es = heard (options r) vs) by apply IH.
  assert (Hentry : ∀ g,
    final (if isFile g then
             if include test g (options r) then each' walk rest (yield g r)
             else each' walk rest r
           else if negb (lt_zero (maxDepth (options r))) then
             match walk (path g) r with
             | Finished r1 => each' walk rest r1
             | other => other
             end
           else each' walk rest r) = Some r' →
    ∃ ys vs es, grows r r' ys vs es
                ∧ Forall (included (options r)) ys
                ∧ es = heard (options r) vs).
  { intros g Hg. destruct (isFile g) eqn:Hfile.
    - destruct (include test g (options r)) eqn:Hinc; [|by apply Hskip].
      apply IH in Hg as (ys & vs & es & Hgrow & Hys & Hes).
      exists ([g] ++ ys), ([] ++ vs), ([] ++ es).
      split; [exact (grows_trans _ _ _ _ _ _ _ _ _ (grows_yield g r) Hgrow)|].
      split; [|exact Hes]. constructor; [by split|exact Hys].
    - destruct (negb (lt_zero (maxDepth (options r)))); [|by apply Hskip].
      destruct (walk (path g) r) as [r1|e r1|] eqn:Hcall.
      + destruct (Hwalk (path g) r r1) as (ys1 & vs1 & es1 & Hgrow1 & Hys1 & Hes1);
          [by rewrite Hcall|].
        apply IH in Hg as (ys & vs & es & Hgrow & Hys & Hes).
        destruct (grows_options _ _ _ _ _ Hgrow1) as (_ & _ & _ & Herr & _ & Hinc).
        exists (ys1 ++ ys), ((path g :: vs1) ++ vs), (es1 ++ es).
        split; [exact (grows_trans _ _ _ _ _ _ _ _ _ Hgrow1 Hgrow)|]. split.
        * apply Forall_app. split; [exact Hys1|].
          eapply Forall_impl; [exact Hys|]. intros x [Hx1 Hx2]. by rewrite <- Hinc.
        * rewrite Hes1, Hes, Herr. destruct (onError (options r)); [|reflexivity].
          by rewrite <- failures_app.
      + destruct (Hwalk (path g) r r1) as (ys1 & vs1 & es1 & Hgrow1 & Hys1 & Hes1);
          [by rewrite Hcall|].
        simpl in Hg. inversion Hg; subst r1. by exists ys1, (path g :: vs1), es1.
      + discriminate. }
  simpl in Hfinal. destruct (isSymlink f).
  - destruct (followSymlinks (options r)); [|exact (Hskip Hfinal)].
    destruct (resolveSync readlinkSync statSync f) as [g|e].
    + exact (Hentry g Hfinal).
    + simpl in Hfinal. inversion Hfinal; subst. exists [], [], [].
      split; [apply grows_refl|]. split; [constructor|]. by destruct (onError _).
  - exact (Hentry f Hfinal).
Qed.

Lemma walkSync_grows fuel : walk_grows (walkSync' fuel).
Proof.
  induction fuel as [|fuel IH]; intros dir r r' Hfinal; [discriminate|].
  simpl in Hfinal.
  pose proof (grows_enter dir r) as Henter.
  destruct (grows_options _ _ _ _ _ Henter) as (_ & _ & _ & Herr & _ & Hinc).
  destruct (readDirSync dir) as [ls|err] eqn:Hread.
  - apply (each_grows _ IH) in Hfinal as (ys & vs & es & Hgrow & Hys & Hes).
    exists ys, vs, es. split; [exact (grows_trans _ _ _ _ _ _ _ _ _ Henter Hgrow)|].
    split; [exact Hys|]. rewrite Hes. simpl. destruct (onError (options r)); [|reflexivity].
    simpl. by rewrite Hread.
  - simpl in Hfinal. destruct (onError (options r)) as [hook|] eqn:Hhook.
    + assert (r' = report err (visit dir (decrement r))) as ->.
      { destruct (hook err); by inversion Hfinal. }
      exists [], [], [err].
      split; [exact (grows_trans _ _ _ _ _ _ _ _ _ Henter (grows_report err _))|].
      split; [constructor|]. simpl. by rewrite Hread.
    + inversion Hfinal; subst. exists [], [], []. split; [exact Henter|].
      split; [constructor|reflexivity].
Qed.


Lemma lowered_Int (k : nat) (m : Z) : lowered k (Int m) = Int (m - Z.of_nat k).
Proof.
  induction k as [|k IH]; [simpl; f_equal; lia|].
  unfold lowered in *. rewrite Nat.iter_succ, IH. simpl. f_equal. lia.
Qed.

Lemma lowered_absent (k : nat) (n : JsNumber) :
  (∀ m, n ≠ Int m) → lowered (S k) n = NaN.
Proof.
  intros Hn. induction k as [|k IH].
  - destruct n; [reflexivity..|]. by destruct (Hn z).
  - unfold lowered in *. rewrite Nat.iter_succ, IH. reflexivity.
Qed.

Lemma grows_start (o : WalkOptions RegExp Err) (r' : Run') ys vs es :
  grows (start o) r' ys vs es →
  yielded r' = ys ∧ visited r' = vs ∧ reported r' = es
  ∧ options r' = set_maxDepth o (lowered (length vs) (maxDepth o)).
Proof. intros (Hy & Hv & He & Ho). by repeat split. Qed.



(** X12. With [onError], it is called with the error of every directory
    that could not be read, in the order of the reads; without, no error
    is reported. *)
Theorem walkSync_reports_read_errors (fuel : nat) (dir : string)
    (o : WalkOptions RegExp Err) (r' : Run') :
  final (walkSync' fuel dir (start o)) = Some r' →
  reported r'
  = match onError o with
    | Some _ => failures readDirSync (visited r')
    | None => []
    end.
Proof.
  intros Hfinal.
  apply walkSync_grows in Hfinal as (ys & vs & es & Hgrow & _ & Hes).
  apply grows_start in Hgrow as (_ & -> & -> & _). exact Hes.
Qed.

(** X13. An empty list of extensions or of patterns to match lets no
    file through. *)
Theorem walkSync_empty_filter_yields_nothing (fuel : nat) (dir : string)
    (o : WalkOptions RegExp Err) (r' : Run') :
  exts o = Some [] ∨ match_ o = Some [] →
  final (walkSync' fuel dir (start o)) = Some r' →
  yielded r' = [].
Proof.
  intros Hempty Hfinal.
  apply walkSync_grows in Hfinal as (ys & vs & es & Hgrow & Hys & _).
  apply grows_start in Hgrow as (-> & _).
  destruct ys as [|f ys]; [reflexivity|].
  apply Forall_cons in Hys as [[_ Hinc] _].
  unfold include in Hinc. simpl in Hinc. destruct Hempty as [He|He]; rewrite He in Hinc.
  - discriminate.
  - destruct (exts o) as [es'|]; [destruct (negb _)|]; discriminate.
Qed.

(** ** The depth budget *)

(** A call that has the fuel for every depth from 0 to [B]. *)
Local Abbreviation safe walk B :=
  (∀ dir (r : Run') c,
     maxDepth (options r) = Int c → (0 ≤ c ≤ B)%Z →
     ∃ r' c', final (walk dir r) = Some r'
              ∧ maxDepth (options r') = Int c' ∧ (-1 ≤ c' ≤ c)%Z).

Lemma each_safe walk (B : Z) :
  safe walk B →
  ∀ ls (r : Run') c,
    maxDepth (options r) = Int c → (c ≤ B)%Z →
    ∃ r' c', final (each' walk ls r) = Some r'
             ∧ maxDepth (options r') = Int c' ∧ (Z.min c (-1) ≤ c' ≤ c)%Z.
Proof.
  intros Hwalk. induction ls as [|f rest IH]; intros r c Hc HB.
  { exists r, c. split; [reflexivity|]. split; [exact Hc|lia]. }
  assert (Hentry : ∀ g,
    ∃ r' c',
      final (if isFile g then
               if include test g (options r) then each' walk rest (yield g r)
               else each' walk rest r
             else if negb (lt_zero (maxDepth (options r))) then
               match walk (path g) r with
               | Finished r1 => each' walk rest r1
               | other => other
               end
             else each' walk rest r) = Some r'
      ∧ maxDepth (options r') = Int c' ∧ (Z.min c (-1) ≤ c' ≤ c)%Z).
  { intros g. destruct (isFile g).
    - destruct (include test g (options r)); by apply IH.
    - rewrite Hc. simpl. destruct (Z.ltb_spec c 0) as [Hneg|Hpos]; simpl; [by apply IH|].
      destruct (Hwalk (path g) r c Hc) as (r1 & c1 & Hfinal & Hc1 & Hbound); [lia|].
      destruct (walk (path g) r) as [r2|e r2|].
      + inversion Hfinal; subst r2.
        destruct (IH r1 c1 Hc1) as (r' & c' & H' & Hc' & Hb'); [lia|].
        exists r', c'. repeat split; try assumption; lia.
      + simpl in Hfinal. inversion Hfinal; subst r2.
        exists r1, c1. repeat split; try assumption; lia.
      + discriminate. }
  simpl. destruct (isSymlink f).
  - destruct (followSymlinks (options r)); [|by apply IH].
    destruct (resolveSync readlinkSync statSync f) as [g|e]; [exact (Hentry g)|].
    exists r, c. split; [reflexivity|]. split; [exact Hc|lia].
  - exact (Hentry f).
Qed.

Lemma walkSync_safe (fuel : nat) :
  ∀ dir (r : Run') m,
    maxDepth (options r) = Int m → Z.to_nat m + 1 ≤ fuel →
    ∃ r' m', final (walkSync' fuel dir r) = Some r'
             ∧ maxDepth (options r') = Int m'
             ∧ (Z.min (m - 1) (-1) ≤ m' ≤ m - 1)%Z.
Proof.
  induction fuel as [|fuel IH]; intros dir r m Hm Hfuel; [lia|].
  assert (Hwalk : safe (walkSync' fuel) (m - 1)%Z).
  { intros d r0 c Hc Hrange.
    destruct (IH d r0 c Hc) as (r' & c' & Hfinal & Hc' & Hb); [lia|].
    exists r', c'. repeat split; try assumption; lia. }
  assert (Hloop : ∀ ls (r0 : Run'),
            maxDepth (options r0) = Int (m - 1) →
            ∃ r' m', final (each' (walkSync' fuel) ls r0) = Some r'
                     ∧ maxDepth (options r') = Int m'
                     ∧ (Z.min (m - 1) (-1) ≤ m' ≤ m - 1)%Z).
  { intros ls r0 Hr0. apply (each_safe _ _ Hwalk ls r0 (m - 1)%Z Hr0). lia. }
  simpl. destruct (readDirSync dir) as [ls|err].
  - apply Hloop. simpl. by rewrite Hm.
  - simpl. destruct (onError (options r)) as [hook|].
    + destruct (hook err).
      * eexists _, _. split; [reflexivity|]. simpl. rewrite Hm. split; [reflexivity|]. lia.
      * eexists _, _. split; [reflexivity|]. simpl. rewrite Hm. split; [reflexivity|]. lia.
    + eexists _, _. split; [reflexivity|]. simpl. rewrite Hm. split; [reflexivity|]. lia.
Qed.



(** ** Without following links *)

(** Options under which nothing can be thrown: links are not followed
    and [onError], if any, returns. *)
Local Abbreviation quiet o :=
  (followSymlinks o = false ∧ ∀ hook, onError o = Some hook → ∀ e, hook e = None).

Lemma each_quiet walk :
  walk_grows walk →
  (∀ dir (r : Run'), quiet (options r) → ∀ e r', walk dir r ≠ Threw e r') →
  ∀ ls (r : Run'), quiet (options r) → ∀ e r', each' walk ls r ≠ Threw e r'.
Proof.
  intros Hgrows Hwalk. induction ls as [|f rest IH]; intros r Hq e r'; [discriminate|].
  assert (Hentry : ∀ g,
    (if isFile g then
       if include test g (options r) then each' walk rest (yield g r)
       else each' walk rest r
     else if negb (lt_zero (maxDepth (options r))) then
       match walk (path g) r with
       | Finished r1 => each' walk rest r1
       | other => other
       end
     else each' walk rest r) ≠ Threw e r').
  { intros g. destruct (isFile g).
    - destruct (include test g (options r)); by apply IH.
    - destruct (negb _); [|by apply IH].
      destruct (walk (path g) r) as [r1|e1 r1|] eqn:Hcall; [| |discriminate].
      + destruct (Hgrows (path g) r r1) as (ys & vs & es & Hgrow & _); [by rewrite Hcall|].
        destruct (grows_options _ _ _ _ _ Hgrow) as (_ & _ & _ & Herr & Hfollow & _).
        apply IH. by rewrite Hfollow, Herr.
      + by destruct (Hwalk (path g) r Hq e1 r1). }
  simpl. destruct Hq as [Hfollow Hhook]. rewrite Hfollow.
  destruct (isSymlink f); [by apply IH|exact (Hentry f)].
Qed.

(** X15. When links are not followed and [onError] is absent or
    returns, nothing is thrown out of the walk: a directory that cannot
    be read is passed over. *)
Theorem walkSync_never_throws (fuel : nat) (dir : string)
    (o : WalkOptions RegExp Err) :
  followSymlinks o = false →
  (∀ hook, onError o = Some hook → ∀ e, hook e = None) →
  threw (walkSync' fuel dir (start o)) = false.
Proof.
  intros Hfollow Hhook.
  assert (H : ∀ dir (r : Run'), quiet (options r) → ∀ e r', walkSync' fuel dir r ≠ Threw e r').
  { clear dir. induction fuel as [|fuel' IH]; intros dir r Hq e r'; [discriminate|].
    assert (Hloop : ∀ ls (r0 : Run'), quiet (options r0) →
              each' (walkSync' fuel') ls r0 ≠ Threw e r').
    { intros ls r0 Hr0. by apply (each_quiet _ (walkSync_grows fuel') IH). }
    simpl. destruct (readDirSync dir) as [ls|err]; [by apply Hloop|].
    simpl. destruct (onError (options r)) as [hook|] eqn:Hh; [|discriminate].
    destruct Hq as [_ Hq]. rewrite (Hq hook eq_refl err). discriminate. }
  destruct (walkSync' fuel dir (start o)) as [r'|e r'|] eqn:Hout; try reflexivity.
  by destruct (H dir (start o) (conj Hfollow Hhook) e r').
Qed.

Section OtherLinks.
Variable readlinkSync2 : string → Try Err string.
Variable statSync2 : string → Try Err FileInfo.

Lemma each_ignores_links walk walk2 :
  walk_grows walk →
  (∀ dir (r : Run'), followSymlinks (options r) = false → walk dir r = walk2 dir r) →
  ∀ ls (r : Run'),
    followSymlinks (options r) = false →
    each' walk ls r = each test readlinkSync2 statSync2 walk2 ls r.
Proof.
  intros Hgrows Hwalk. induction ls as [|f rest IH]; intros r Hfollow; [reflexivity|].
  simpl. rewrite Hfollow.
  destruct (isSymlink f); [by apply IH|].
  destruct (isFile f).
  - destruct (include test f (options r)); by apply IH.
  - destruct (negb _); [|by apply IH].
    rewrite <- (Hwalk (path f) r Hfollow).
    destruct (walk (path f) r) as [r1|e1 r1|] eqn:Hcall; try reflexivity.
    destruct (Hgrows (path f) r r1) as (ys & vs & es & Hgrow & _); [by rewrite Hcall|].
    destruct (grows_options _ _ _ _ _ Hgrow) as (_ & _ & _ & _ & Hf & _).
    apply IH. by rewrite Hf.
Qed.

(** X16. When links are not followed, [readlinkSync] and [statSync] have
    no part in the walk: any two of them give the same run. *)
Theorem walkSync_ignores_links (fuel : nat) (dir : string)
    (o : WalkOptions RegExp Err) :
  followSymlinks o = false →
  walkSync' fuel dir (start o)
  = walkSync test readDirSync readlinkSync2 statSync2 fuel dir (start o).
Proof.
  intros Hfollow.
  assert (H : ∀ dir (r : Run'), followSymlinks (options r) = false →
            walkSync' fuel dir r
            = walkSync test readDirSync readlinkSync2 statSync2 fuel dir r).
  { clear dir. induction fuel as [|fuel' IH]; intros dir r Hf; [reflexivity|].
    simpl. destruct (readDirSync dir) as [ls|err].
    - by apply (each_ignores_links _ _ (walkSync_grows fuel') IH).
    - reflexivity. }
  by apply H.
Qed.

End OtherLinks.

(** ** No depth left *)

Lemma each_shallow walk (ls : list FileInfo) :
  ∀ (r : Run') c,
    maxDepth (options r) = Int c → (c < 0)%Z →
    followSymlinks (options r) = false →
    each' walk ls r
    = Finished {| options := options r;
                  yielded := yielded r
                             ++ List.filter (λ f, isFile f && include test f (options r)) ls;
                  visited := visited r; reported := reported r |}.
Proof.
  induction ls as [|f rest IH]; intros r c Hc Hneg Hfollow.
  { simpl. rewrite app_nil_r. by destruct r. }
  simpl. rewrite Hfollow. destruct (isSymlink f) eqn:Hlink.
  - assert (isFile f = false) as ->.
    { unfold isFile, isSymlink in *. by destruct (kind f). }
    simpl. by apply (IH r c).
  - destruct (isFile f); simpl.
    + destruct (include test f (options r)); simpl.
      * rewrite (IH (yield f r) c Hc Hneg Hfollow). simpl. by rewrite <- app_assoc.
      * by apply (IH r c).
    + rewrite Hc. simpl. destruct (Z.ltb_spec c 0); [|lia]. simpl. by apply (IH r c).
Qed.


End WalkFacts.

(* ===================================================================== *)
(** ** The test runner                                                    *)
(* ===================================================================== *)

Section RunnerFacts.
Import Runner.

Lemma partition_from (callback : string → bool) (arr : list string) :
  ∀ no yes,
    foldl (λ (p : list string * list string) el,
             if callback el then (fst p, snd p ++ [el]) else (fst p ++ [el], snd p))
          (no, yes) arr
    = (no ++ List.filter (λ el, negb (callback el)) arr,
       yes ++ List.filter callback arr).
Proof.
  induction arr as [|el arr IH]; intros no yes; simpl.
  - by rewrite !app_nil_r.
  - destruct (callback el); simpl; rewrite IH; simpl; by rewrite <- ?app_assoc.
Qed.

(** X18. [partition] splits the array in two and keeps the order: first
    the elements the callback rejects, second those it accepts; every
    element is in exactly one of the two. *)
Theorem partition_filters (arr : list string) (callback : string → bool) :
  partition arr callback
  = (List.filter (λ el, negb (callback el)) arr, List.filter callback arr)
  ∧ length (fst (partition arr callback)) + length (snd (partition arr callback))
    = length arr
  ∧ ∀ el, In el arr ↔ In el (fst (partition arr callback))
                      ∨ In el (snd (partition arr callback)).
Proof.
  unfold partition. rewrite partition_from. cbn [app fst snd].
  split; [reflexivity|]. split.
  - induction arr as [|el arr IH]; [reflexivity|]. simpl.
    destruct (callback el); simpl; lia.
  - intros el. rewrite !filter_In. destruct (callback el); simpl; intuition congruence.
Qed.

Lemma isRemoteUrl_not_file (filename : string) :
  isRemoteUrl ("file://" +:+ filename) = false.
Proof. reflexivity. Qed.

Context {RegExp Err : Type}.
Variable filePathToRegExp : string → Err + RegExp.
Variable newRegExp : string → Err + RegExp.
Variable test : RegExp → string → bool.
Variable walk : list RegExp → list RegExp → Err + list string.

Local Abbreviation getMatchingUrls' :=
  (getMatchingUrls RegExp Err filePathToRegExp newRegExp test walk).

(** X19. A remote URL is returned exactly when it was asked for and no
    remote pattern to exclude matches it; patterns of local paths have no
    say in it. *)
Theorem getMatchingUrls_remote (matchPaths excludePaths urls : list string) :
  getMatchingUrls' matchPaths excludePaths = inr urls →
  ∃ patterns,
    map_try newRegExp (List.filter isRemoteUrl excludePaths) = inr patterns
    ∧ ∀ url, isRemoteUrl url = true →
        (In url urls ↔ In url matchPaths ∧ Forall (λ p, test p url = false) patterns).
Proof.
  unfold getMatchingUrls, partition. rewrite !partition_from. cbn [app].
  destruct (map_try filePathToRegExp _) as [|match_]; [discriminate|].
  destruct (map_try filePathToRegExp _) as [|skip]; [discriminate|].
  destruct (walk match_ skip) as [|files]; [discriminate|].
  destruct (map_try newRegExp _) as [|patterns]; [discriminate|].
  intros Hurls. inversion Hurls; subst urls. clear Hurls.
  exists patterns. split; [reflexivity|]. intros url Hremote.
  rewrite in_app_iff, filter_In, filter_In, in_map_iff.
  rewrite negb_true_iff, Forall_forall.
  split.
  - intros [(filename & <- & _)|[[Hin _] Hnone]].
    + pose proof (isRemoteUrl_not_file filename) as Hfile.
      change (isRemoteUrl ("file://" +:+ filename) = true) in Hremote. congruence.
    + split; [exact Hin|]. intros p Hp.
      destruct (test p url) eqn:Ht; [|reflexivity].
      assert (existsb (λ pattern, test pattern url) patterns = true) as Hex.
      { apply existsb_exists. exists p. split; [by apply list_elem_of_In|exact Ht]. }
      congruence.
  - intros [Hin Hnone]. right. split; [by split|].
    destruct (existsb _ patterns) eqn:Hex; [|reflexivity].
    apply existsb_exists in Hex as (p & Hp & Ht).
    rewrite (Hnone p) in Ht; [discriminate|by apply list_elem_of_In].
Qed.


Variable default_only default_skip : RegExp.
Variable import : string → option Err.
Variable runTests : RunOptions RegExp → option Err.

Local Abbreviation runTestModules' :=
  (runTestModules RegExp Err filePathToRegExp newRegExp test walk
     default_only default_skip import runTests).

Lemma imports_app (xs ys : list (Event RegExp)) :
  imports (xs ++ ys) = imports xs ++ imports ys.
Proof. apply omap_app. Qed.

Lemma test_runs_app (xs ys : list (Event RegExp)) :
  test_runs (xs ++ ys) = test_runs xs ++ test_runs ys.
Proof. apply omap_app. Qed.

Lemma import_all_events (urls : list string) :
  ∀ evs failure,
    import_all RegExp Err import urls = (evs, failure) →
    test_runs evs = []
    ∧ imports evs `prefix_of` urls
    ∧ (failure = None → imports evs = urls).
Proof.
  induction urls as [|url rest IH]; intros evs failure Hall; simpl in Hall.
  - inversion Hall; subst. repeat split. apply prefix_nil.
  - destruct (import url) as [e|].
    + inversion Hall; subst. simpl. repeat split; [|discriminate].
      apply prefix_cons, prefix_nil.
    + destruct (import_all RegExp Err import rest) as [evs' r] eqn:Hrest.
      inversion Hall; subst. destruct (IH evs' failure eq_refl) as (Hruns & Hpre & Hdone).
      simpl. split; [exact Hruns|]. split; [by apply prefix_cons|].
      intros Hf. by rewrite Hdone.
Qed.


End RunnerFacts.

(* ===================================================================== *)
(** ** The registry of loggers                                             *)
(* ===================================================================== *)

Section LogFacts.
Import Log.

Lemma obj_get_set_eq {V} (k : string) (v : V) (o : Obj V) :
  obj_get k (obj_set k v o) = Some v.
Proof.
  induction o as [|[k' w] o IH]; simpl.
  - by rewrite String.eqb_refl.
  - destruct (String.eqb_spec k' k) as [->|Hne]; simpl.
    + by rewrite String.eqb_refl.
    + by destruct (String.eqb_spec k' k).
Qed.

Lemma obj_get_set_ne {V} (k k' : string) (v : V) (o : Obj V) :
  k ≠ k' → obj_get k' (obj_set k v o) = obj_get k' o.
Proof.
  intros Hne. induction o as [|[k0 w] o IH]; simpl.
  - by destruct (String.eqb_spec k k').
  - destruct (String.eqb_spec k0 k) as [->|Hk0]; simpl.
    + by destruct (String.eqb_spec k k').
    + by rewrite IH.
Qed.

Lemma obj_get_None {V} (k : string) (o : Obj V) :
  obj_get k o = None ↔ k ∉ keys o.
Proof.
  induction o as [|[k' w] o IH]; simpl.
  - split; [intros _; apply not_elem_of_nil|done].
  - rewrite not_elem_of_cons, <- IH.
    destruct (String.eqb_spec k' k) as [->|Hne].
    + split; [discriminate|]. by intros [? _].
    + split; [intros H; split; [congruence|exact H]|by intros [_ H]].
Qed.

Lemma obj_set_new {V} (k : string) (v : V) (o : Obj V) :
  k ∉ keys o → obj_set k v o = o ++ [(k, v)].
Proof.
  induction o as [|[k' w] o IH]; simpl; [done|].
  rewrite not_elem_of_cons. intros [Hne Hnot].
  destruct (String.eqb_spec k' k) as [->|_]; [done|]. by rewrite IH.
Qed.

Lemma obj_set_values {V} (P : V → Prop) (k : string) (v : V) (o : Obj V) :
  P v → Forall (λ kv, P (snd kv)) o → Forall (λ kv, P (snd kv)) (obj_set k v o).
Proof.
  intros Hv. induction 1 as [|[k' w] o Hw Ho IH]; simpl.
  - by repeat constructor.
  - destruct (String.eqb k' k); constructor; done.
Qed.

Lemma obj_get_value {V} (P : V → Prop) (k : string) (v : V) (o : Obj V) :
  Forall (λ kv, P (snd kv)) o → obj_get k o = Some v → P v.
Proof.
  induction 1 as [|[k' w] o Hw Ho IH]; simpl; [discriminate|].
  destruct (String.eqb k' k); [|exact IH]. by intros [= <-].
Qed.

(** Entries set one after the other under keys that are new. *)
Lemma foldl_set_new {V W} (f : string * V → W) (entries : Obj V) :
  ∀ acc : Obj W,
    NoDup (keys acc ++ keys entries) →
    foldl (λ acc kv, obj_set (fst kv) (f kv) acc) acc entries
    = acc ++ map (λ kv, (fst kv, f kv)) entries.
Proof.
  induction entries as [|[k v] entries IH]; intros acc Hnd; simpl.
  - by rewrite app_nil_r.
  - simpl in Hnd. apply NoDup_app in Hnd as (Hacc & Hdisj & Hent).
    apply NoDup_cons in Hent as [Hk Hent].
    rewrite obj_set_new by (intros Hin; apply (Hdisj k Hin); by left).
    rewrite IH.
    + by rewrite <- app_assoc.
    + unfold keys. rewrite map_app. simpl. rewrite <- app_assoc. simpl.
      apply NoDup_app. split; [exact Hacc|]. split.
      * intros x Hx. rewrite not_elem_of_cons. split.
        -- intros ->. apply (Hdisj k Hx). by left.
        -- intros Hin. apply (Hdisj x Hx). by right.
      * by apply NoDup_cons.
Qed.

Lemma foldl_set_get {V W} (f : string * V → W) (k : string) (entries : Obj V) :
  ∀ acc : Obj W,
    obj_get k entries = None →
    obj_get k (foldl (λ acc kv, obj_set (fst kv) (f kv) acc) acc entries)
    = obj_get k acc.
Proof.
  induction entries as [|[k' v] entries IH]; intros acc Hnone; simpl; [done|].
  simpl in Hnone. destruct (String.eqb_spec k' k) as [->|Hne]; [discriminate|].
  rewrite IH by exact Hnone. by apply obj_get_set_ne.
Qed.

Lemma keys_obj_set {V} (k : string) (v : V) (o : Obj V) :
  keys (obj_set k v o) = if decide (k ∈ keys o) then keys o else keys o ++ [k].
Proof.
  induction o as [|[k' w] o IH].
  - destruct (decide _) as [Hin|]; [by apply elem_of_nil in Hin|done].
  - cbn [obj_set]. destruct (String.eqb_spec k' k) as [->|Hne]; cbv iota.
    + destruct (decide (k ∈ keys ((k, w) :: o))) as [|Hnot]; [done|].
      destruct Hnot. by left.
    + change (keys ((k', w) :: obj_set k v o)) with (k' :: keys (obj_set k v o)).
      change (keys ((k', w) :: o)) with (k' :: keys o).
      rewrite IH. destruct (decide (k ∈ keys o)) as [Hin|Hnot].
      * destruct (decide (k ∈ k' :: keys o)) as [|Hnot]; [done|].
        destruct Hnot. by right.
      * destruct (decide (k ∈ k' :: keys o)) as [Hin|]; [|done].
        apply elem_of_cons in Hin as [->|Hin]; done.
Qed.

Lemma NoDup_obj_set {V} (k : string) (v : V) (o : Obj V) :
  NoDup (keys o) → NoDup (keys (obj_set k v o)).
Proof.
  intros Hnd. rewrite keys_obj_set. destruct (decide _) as [|Hnot]; [done|].
  apply NoDup_app. split; [exact Hnd|]. split; [|apply NoDup_singleton].
  intros x Hx Hin. apply list_elem_of_singleton in Hin as ->. done.
Qed.

Lemma NoDup_spread {V} (a : Obj V) (b : option (Obj V)) :
  NoDup (keys a) → NoDup (keys (spread a b)).
Proof.
  unfold spread. generalize (default [] b). intros l. revert a.
  induction l as [|[k v] l IH]; intros a Ha; simpl; [done|].
  apply IH. by apply NoDup_obj_set.
Qed.

Lemma spread_get_kept {V} (k : string) (a : Obj V) (b : option (Obj V)) :
  obj_get k (default [] b) = None → obj_get k (spread a b) = obj_get k a.
Proof. intros Hnone. unfold spread. by apply (foldl_set_get snd). Qed.

Lemma spread_get_some {V} (k : string) (a : Obj V) (b : option (Obj V)) :
  is_Some (obj_get k a) → is_Some (obj_get k (spread a b)).
Proof.
  unfold spread. generalize (default [] b). intros l. revert a.
  induction l as [|[k' v] l IH]; intros a Ha; simpl; [done|].
  apply IH. destruct (decide (k' = k)) as [->|Hne].
  - by rewrite obj_get_set_eq.
  - by rewrite obj_get_set_ne.
Qed.

Context {BaseHandler Err : Type}.
Variable handler_setup : BaseHandler → option Err.
Variable consoleHandler : BaseHandler.

Local Abbreviation setup' := (setup handler_setup consoleHandler).
Local Abbreviation State' := (State BaseHandler).

(** The configuration [setup] works with: the default entries, then those
    of the caller. *)
Local Abbreviation merged_handlers config :=
  (spread [("default", consoleHandler)] (handlers config)).
Local Abbreviation merged_loggers config :=
  (spread [("default", {| level := Some DEFAULT_LEVEL;
                          handlerNames := Some ["default"] |})]
     (loggers config)).

(** The logger [setup] makes of an entry of the configuration. *)
Local Abbreviation logger_of st :=
  (λ kv : string * LoggerConfig,
     {| loggerName := fst kv; levelName := level_or_default (snd kv);
        loggerHandlers := getHandlersByName st (handlerNames (snd kv)) |}).

Lemma setup_handlers_events (entries : Obj BaseHandler) :
  ∀ registered evs failure registered',
    setup_handlers handler_setup entries registered = (evs, failure, registered') →
    ∃ done,
      done `prefix_of` entries
      ∧ registered' = foldl (λ acc kv, obj_set (fst kv) (snd kv) acc) registered done
      ∧ match failure with
        | None => done = entries ∧ evs = map (λ kv, Setup (snd kv)) entries
        | Some e =>
            ∃ k h, (done ++ [(k, h)]) `prefix_of` entries
                   ∧ handler_setup h = Some e
                   ∧ evs = map (λ kv, Setup (snd kv)) (done ++ [(k, h)])
        end.
Proof.
  induction entries as [|[k h] rest IH]; intros registered evs failure registered' Hrun;
    simpl in Hrun.
  - inversion Hrun; subst. exists []. by repeat split.
  - destruct (handler_setup h) as [e|] eqn:Hsetup.
    + inversion Hrun; subst. exists []. split; [apply prefix_nil|]. split; [done|].
      exists k, h. split; [apply prefix_cons, prefix_nil|]. by split.
    + destruct (setup_handlers handler_setup rest (obj_set k h registered))
        as [[evs' r] reg'] eqn:Hrest.
      inversion Hrun; subst.
      destruct (IH _ _ _ _ Hrest) as (done & Hpre & Hreg & Hcase).
      exists ((k, h) :: done). split; [by apply prefix_cons|]. split; [exact Hreg|].
      destruct failure as [e|].
      * destruct Hcase as (k' & h' & Hpre' & Hfail & Hevs).
        exists k', h'. split; [by apply (prefix_cons (k, h))|]. split; [exact Hfail|].
        simpl. by rewrite Hevs.
      * destruct Hcase as [-> ->]. by split.
Qed.


Lemma map_pair_eta {V} (o : Obj V) : map (λ kv, (fst kv, snd kv)) o = o.
Proof. induction o as [|[k v] o IH]; [done|]. simpl. by rewrite IH. Qed.

Lemma obj_get_map {V W} (f : string * V → W) (k : string) (o : Obj V) :
  obj_get k (map (λ kv, (fst kv, f kv)) o) = (λ c, f (k, c)) <$> obj_get k o.
Proof.
  induction o as [|[k' c] o IH]; simpl; [done|].
  destruct (String.eqb_spec k' k) as [->|Hne]; [done|exact IH].
Qed.

Lemma setup_loggers_map (entries : Obj LoggerConfig) (st : State') :
  NoDup (keys entries) →
  setup_loggers entries st = map (λ kv, (fst kv, logger_of st kv)) entries.
Proof.
  intros Hnd. unfold setup_loggers.
  by rewrite (foldl_set_new (logger_of st) entries []).
Qed.

Lemma NoDup_merged_loggers (config : LogConfig BaseHandler) :
  NoDup (keys (merged_loggers config)).
Proof. apply NoDup_spread, NoDup_singleton. Qed.

Lemma NoDup_merged_handlers (config : LogConfig BaseHandler) :
  NoDup (keys (merged_handlers config)).
Proof. apply NoDup_spread, NoDup_singleton. Qed.

(** [setup], call by call. *)
Lemma setup_unfold (config : LogConfig BaseHandler) (st st' : State') evs failure :
  setup' config st = (evs, failure, st') →
  ∃ hevs,
    setup_handlers handler_setup (merged_handlers config) []
    = (hevs, failure, state_handlers st')
    ∧ evs = map (λ kv, Destroy (snd kv)) (state_handlers st) ++ hevs
    ∧ fallbackLogger (state_config st')
      = Some {| handlerNames := fallbackLogger config ≫= handlerNames;
                level := fallbackLogger config ≫= level |}
    ∧ state_loggers st'
      = match failure with
        | Some _ => state_loggers st
        | None => map (λ kv, (fst kv, logger_of st' kv)) (merged_loggers config)
        end.
Proof.
  intros Hrun.
  change (setup' config st)
    with (let config' :=
            {| handlers := Some (merged_handlers config);
               loggers := Some (merged_loggers config);
               fallbackLogger :=
                 Some {| handlerNames := fallbackLogger config ≫= handlerNames;
                         level := fallbackLogger config ≫= level |} |} in
          let destroyed := map (λ kv, Destroy (snd kv)) (state_handlers st) in
          match setup_handlers handler_setup (merged_handlers config) [] with
          | (hevs, Some e, registered) =>
              (destroyed ++ hevs, Some e,
               {| state_handlers := registered; state_loggers := state_loggers st;
                  state_config := config' |})
          | (hevs, None, registered) =>
              (destroyed ++ hevs, None,
               {| state_handlers := registered;
                  state_loggers :=
                    setup_loggers (merged_loggers config)
                      {| state_handlers := registered; state_loggers := [];
                         state_config := config' |};
                  state_config := config' |})
          end) in Hrun.
  cbv zeta in Hrun.
  destruct (setup_handlers handler_setup (merged_handlers config) [])
    as [[hevs r] registered].
  destruct r as [e|]; injection Hrun as <- <- <-; exists hevs;
    cbn [state_handlers state_loggers state_config fallbackLogger];
    repeat split.
  by rewrite (setup_loggers_map _ _ (NoDup_merged_loggers config)).
Qed.


(** X22. After every [setup] that returns there is a logger named
    [default], so that [getLogger()] does not fail; it is the configured
    one, or the default one at level [INFO] when the configuration names
    none. *)
Theorem setup_keeps_default_logger (config : LogConfig BaseHandler) (st st' : State') evs :
  setup' config st = (evs, None, st') →
  ∃ cfg,
    obj_get "default" (merged_loggers config) = Some cfg
    ∧ (obj_get "default" (default [] (loggers config)) = None →
       cfg = {| level := Some DEFAULT_LEVEL; handlerNames := Some ["default"] |})
    ∧ getLogger None st'
      = (inr {| loggerName := "default"; levelName := level_or_default cfg;
                loggerHandlers := getHandlersByName st' (handlerNames cfg) |}, st')
    ∧ getLogger (Some "default") st' = getLogger None st'.
Proof.
  intros Hrun. apply setup_unfold in Hrun as (hevs & _ & _ & _ & Hl).
  destruct (spread_get_some "default"
              [("default", {| level := Some DEFAULT_LEVEL;
                              handlerNames := Some ["default"] |})]
              (loggers config)) as [cfg Hcfg]; [by eexists|].
  exists cfg. split; [exact Hcfg|]. split.
  - intros Hnone. rewrite (spread_get_kept _ _ _ Hnone) in Hcfg. by inversion Hcfg.
  - assert (Hget : obj_get "default" (state_loggers st')
                   = Some (logger_of st' ("default", cfg))).
    { rewrite Hl, (obj_get_map (logger_of st')), Hcfg. reflexivity. }
    unfold getLogger. rewrite Hget. by split.
Qed.

(** X23. A [setup] that returns leaves every logger with handlers that
    are registered. *)
Theorem setup_wires_loggers (config : LogConfig BaseHandler) (st st' : State') evs :
  setup' config st = (evs, None, st') → wired st'.
Proof.
  intros Hrun. apply setup_unfold in Hrun as (hevs & _ & _ & _ & Hl).
  intros name logger Hget. rewrite Hl, (obj_get_map (logger_of st')) in Hget.
  destruct (obj_get name (merged_loggers config)) as [cfg|]; [|discriminate].
  inversion Hget; subst logger. cbn [loggerHandlers].
  unfold getHandlersByName. apply Forall_forall. intros h Hh.
  apply list_elem_of_omap in Hh as (k & _ & Hk). by exists k.
Qed.


(** X25. [getLogger] with a name never fails; a name without a logger
    gets one at the level of the fallback configuration, or [NOTSET], and
    from then on the same logger is handed out without a change of the
    state. *)
Theorem getLogger_caches (name : string) (st st' : State')
    (result : string + Logger BaseHandler) :
  name ≠ EmptyString →
  getLogger (Some name) st = (result, st') →
  ∃ logger,
    result = inr logger
    ∧ getLogger (Some name) st' = (inr logger, st')
    ∧ match obj_get name (state_loggers st) with
      | Some found => logger = found ∧ st' = st
      | None =>
          logger
          = {| loggerName := name;
               levelName := default "NOTSET" (fallbackLogger (state_config st) ≫= level);
               loggerHandlers :=
                 getHandlersByName st
                   (fallbackLogger (state_config st) ≫= handlerNames) |}
      end.
Proof.
  intros Hname Hget. destruct name as [|c name]; [done|].
  unfold getLogger in Hget.
  destruct (obj_get (String c name) (state_loggers st)) as [found|] eqn:Hfound.
  - inversion Hget; subst. exists found. split; [done|]. split; [|done].
    unfold getLogger. by rewrite Hfound.
  - inversion Hget; subst. eexists. split; [reflexivity|]. split; [|reflexivity].
    unfold getLogger. cbn [state_loggers]. by rewrite obj_get_set_eq.
Qed.


End LogFacts.

(* ===================================================================== *)
(** ** The properties at work                                              *)
(* ===================================================================== *)

Lemma union_is_distinct_of_concat_witness :
  ∃ h', Collections.union 0 1 (<[0 := [3; 1; 3]]> (<[1 := [1; 2]]> ∅))
        = Some (Collections.distinct ([3; 1; 3] ++ [1; 2]), h')
        ∧ (0 = 1 → Collections.distinct ([3; 1; 3] ++ [1; 2])
                   = Collections.distinct [3; 1; 3]).
Proof.
  apply (union_is_distinct_of_concat (<[0 := [3; 1; 3]]> (<[1 := [1; 2]]> ∅)) 0 1);
    reflexivity.
Defined.

Lemma union_again_is_empty_witness :
  Collections.union 0 1 (<[1 := []]> (<[0 := []]> (<[0 := [3; 1; 3]]> (<[1 := [1; 2]]> ∅))))
  = Some ([], <[1 := []]> (<[0 := []]> (<[0 := [3; 1; 3]]> (<[1 := [1; 2]]> ∅)))).
Proof.
  apply (union_again_is_empty (<[0 := [3; 1; 3]]> (<[1 := [1; 2]]> ∅)) _ 0 1
           [3; 1; 3] [1; 2] [3; 1; 2]); reflexivity.
Defined.

Lemma union_swap_permutation_witness :
  ∃ r1 r2 h',
    Collections.union 0 1 (<[0 := [3; 1; 3]]> (<[1 := [1; 2]]> ∅)) = Some (r1, h')
    ∧ Collections.union 1 0 (<[0 := [3; 1; 3]]> (<[1 := [1; 2]]> ∅)) = Some (r2, h')
    ∧ r1 ≡ₚ r2.
Proof.
  apply (union_swap_permutation (<[0 := [3; 1; 3]]> (<[1 := [1; 2]]> ∅)) 0 1
           [3; 1; 3] [1; 2]); reflexivity.
Defined.

Lemma isMaybe_succeeds_iff_witness :
  TypeDecoders.isDecoderSuccess (fst (DecoderSample.maybeSmall (TypeDecoders.JsOther 12)))
  = true
  ↔ TypeDecoders.JsOther 12 = TypeDecoders.JsUndefined
    ∨ TypeDecoders.JsOther 12 = TypeDecoders.JsNull
    ∨ TypeDecoders.isDecoderSuccess (DecoderSample.isSmall (TypeDecoders.JsOther 12))
      = true.
Proof.
  refine (isMaybe_succeeds_iff (R := nat) unit DecoderSample.keep
            TypeDecoders.exactlyUndefined TypeDecoders.exactlyNull
            _ _ _ _ DecoderSample.isSmall tt (TypeDecoders.JsOther 12)).
  - reflexivity.
  - intros [| |a] Hv; [destruct Hv| |]; reflexivity.
  - reflexivity.
  - intros [| |a] Hv; [|destruct Hv|]; reflexivity.
Defined.

Lemma isMaybePromise_settles_witness :
  DecoderSample.maybeOffline TypeDecoders.JsNull
  = (TypeDecoders.Fulfilled (TypeDecoders.DecoderSuccess TypeDecoders.JsNull), []).
Proof.
  refine (isMaybePromise_settles (R := nat) unit DecoderSample.keep
            TypeDecoders.exactlyUndefined TypeDecoders.exactlyNull
            _ _ _ _ DecoderSample.offline tt TypeDecoders.JsNull).
  - reflexivity.
  - intros [| |a] Hv; [destruct Hv| |]; reflexivity.
  - reflexivity.
  - intros [| |a] Hv; [|destruct Hv|]; reflexivity.
Defined.

Lemma sum_adds_up_witness :
  MathSum.sum Z Z SumSample.source SumSample.plus SumSample.print 0%Z SumSample.print
    [inl 2%Z; inr 40%Z; inl (-7)%Z]
  = SumSample.print
      (foldl Z.add 0%Z (map SumSample.source [inl 2%Z; inr 40%Z; inl (-7)%Z])).
Proof.
  refine (sum_adds_up SumSample.source SumSample.plus SumSample.print 0%Z SumSample.print
            Z Z.add 0%Z (λ b, b) SumSample.source SumSample.print _ _ _ _ _
            [inl 2%Z; inr 40%Z; inl (-7)%Z]).
  - reflexivity.
  - reflexivity.
  - reflexivity.
  - reflexivity.
  - vm_compute. reflexivity.
Defined.

Lemma sum_order_irrelevant_witness :
  MathSum.sum Z Z SumSample.source SumSample.plus SumSample.print 0%Z SumSample.print
    [inl 2%Z; inr 40%Z]
  = MathSum.sum Z Z SumSample.source SumSample.plus SumSample.print 0%Z SumSample.print
      [inr 40%Z; inl 2%Z].
Proof.
  refine (sum_order_irrelevant SumSample.source SumSample.plus SumSample.print 0%Z
            SumSample.print Z Z.add 0%Z (λ b, b) SumSample.source SumSample.print
            _ _ _ _ _ _ _ [inl 2%Z; inr 40%Z] [inr 40%Z; inl 2%Z] _).
  - intros a b c. lia.
  - intros a b. lia.
  - intros a. lia.
  - reflexivity.
  - reflexivity.
  - reflexivity.
  - reflexivity.
  - apply Permutation_swap.
Defined.



Lemma walkSync_reports_read_errors_witness :
  Walk.reported (WalkSample.run_of (WalkSample.options (Walk.Int 2) None))
  = Walk.failures WalkSample.readDir
      (Walk.visited (WalkSample.run_of (WalkSample.options (Walk.Int 2) None))).
Proof.
  apply (walkSync_reports_read_errors WalkSample.test WalkSample.readDir
           WalkSample.readlink WalkSample.stat 3 "."
           (WalkSample.options (Walk.Int 2) None)).
  vm_compute. reflexivity.
Defined.

Lemma walkSync_empty_filter_yields_nothing_witness :
  Walk.yielded (WalkSample.run_of (WalkSample.options (Walk.Int 2) (Some []))) = [].
Proof.
  apply (walkSync_empty_filter_yields_nothing WalkSample.test WalkSample.readDir
           WalkSample.readlink WalkSample.stat 3 "."
           (WalkSample.options (Walk.Int 2) (Some []))).
  - right. reflexivity.
  - vm_compute. reflexivity.
Defined.


Lemma walkSync_never_throws_witness :
  Walk.threw (Walk.walkSync WalkSample.test WalkSample.readDir WalkSample.readlink
                WalkSample.stat 3 "."
                (Walk.start (WalkSample.options Walk.Undefined None))) = false.
Proof.
  apply (walkSync_never_throws WalkSample.test WalkSample.readDir WalkSample.readlink
           WalkSample.stat 3 "." (WalkSample.options Walk.Undefined None)).
  - reflexivity.
  - intros hook Hhook e. simpl in Hhook. inversion Hhook. reflexivity.
Defined.

Lemma walkSync_ignores_links_witness :
  Walk.walkSync WalkSample.test WalkSample.readDir WalkSample.readlink WalkSample.stat
    3 "." (Walk.start (WalkSample.options (Walk.Int 2) None))
  = Walk.walkSync WalkSample.test WalkSample.readDir
      (λ _, Walk.Throws "no links") (λ _, Walk.Throws "no links")
      3 "." (Walk.start (WalkSample.options (Walk.Int 2) None)).
Proof.
  apply (walkSync_ignores_links WalkSample.test WalkSample.readDir WalkSample.readlink
           WalkSample.stat (λ _, Walk.Throws "no links") (λ _, Walk.Throws "no links")
           3 "." (WalkSample.options (Walk.Int 2) None)).
  reflexivity.
Defined.


Lemma getMatchingUrls_remote_witness :
  ∃ patterns,
    Runner.map_try RunnerSample.toRegExp
      (List.filter Runner.isRemoteUrl RunnerSample.excludePaths) = inr patterns
    ∧ ∀ url, Runner.isRemoteUrl url = true →
        (In url ["file:///root/a_test.ts"; "https://deno.land/x/b_test.ts"]
         ↔ In url RunnerSample.matchPaths
           ∧ Forall (λ p, RunnerSample.test p url = false) patterns).
Proof.
  apply (getMatchingUrls_remote RunnerSample.toRegExp RunnerSample.toRegExp
           RunnerSample.test RunnerSample.walk
           RunnerSample.matchPaths RunnerSample.excludePaths).
  vm_compute. reflexivity.
Defined.



Lemma setup_keeps_default_logger_witness :
  ∃ cfg,
    Log.obj_get "default"
      (Log.spread [("default", {| Log.level := Some Log.DEFAULT_LEVEL;
                                  Log.handlerNames := Some ["default"] |})]
         (Log.loggers (LogSample.config "rotating"))) = Some cfg
    ∧ (Log.obj_get "default" (default [] (Log.loggers (LogSample.config "rotating")))
       = None →
       cfg = {| Log.level := Some Log.DEFAULT_LEVEL;
                Log.handlerNames := Some ["default"] |})
    ∧ Log.getLogger None (snd LogSample.configured)
      = (inr {| Log.loggerName := "default";
                Log.levelName := Log.level_or_default cfg;
                Log.loggerHandlers :=
                  Log.getHandlersByName (snd LogSample.configured)
                    (Log.handlerNames cfg) |},
         snd LogSample.configured)
    ∧ Log.getLogger (Some "default") (snd LogSample.configured)
      = Log.getLogger None (snd LogSample.configured).
Proof.
  apply (setup_keeps_default_logger LogSample.handler_setup "console"
           (LogSample.config "rotating") LogSample.loaded (snd LogSample.configured)
           (fst (fst LogSample.configured))).
  vm_compute. reflexivity.
Defined.

Lemma setup_wires_loggers_witness : Log.wired (snd LogSample.configured).
Proof.
  apply (setup_wires_loggers LogSample.handler_setup "console"
           (LogSample.config "rotating") LogSample.loaded (snd LogSample.configured)
           (fst (fst LogSample.configured))).
  vm_compute. reflexivity.
Defined.


Lemma getLogger_caches_witness :
  ∃ logger,
    fst (Log.getLogger (Some "tasks") LogSample.loaded) = inr logger
    ∧ Log.getLogger (Some "tasks") (snd (Log.getLogger (Some "tasks") LogSample.loaded))
      = (inr logger, snd (Log.getLogger (Some "tasks") LogSample.loaded))
    ∧ match Log.obj_get "tasks" (Log.state_loggers LogSample.loaded) with
      | Some found =>
          logger = found
          ∧ snd (Log.getLogger (Some "tasks") LogSample.loaded) = LogSample.loaded
      | None =>
          logger
          = {| Log.loggerName := "tasks";
               Log.levelName :=
                 default "NOTSET"
                   (Log.fallbackLogger (Log.state_config LogSample.loaded) ≫= Log.level);
               Log.loggerHandlers :=
                 Log.getHandlersByName LogSample.loaded
                   (Log.fallbackLogger (Log.state_config LogSample.loaded)
                    ≫= Log.handlerNames) |}
      end.
Proof.
  apply (getLogger_caches "tasks" LogSample.loaded).
  - discriminate.
  - vm_compute. reflexivity.
Defined.

